(** * sample-handler: a rate-limited handler returning response body sizes

    A shallow embedding of the Go package [transport/http] of
    laonix/sample-handler:

    - [handler.go]: the result collector [resSizes], the handler
      [ResponseSizeCounter] with [ServeHTTP], [serve], [getUrls],
      [getRespSizes], [doGet], [splitToLines] and [isUrl];
    - [middleware.go]: the counter store [StatHolder] behind the interface
      [Stat], the middleware [RateLimit] and [requestIP].

    Go strings are [string]s (sequences of 8-bit characters), byte slices
    are lists of [ascii], Go's [int] is [Z], [int32] is [Z] with its
    wrap-around written out, and the map of the counter store is a [gmap].
    The functions of Go's standard library that the package calls are given
    by models of their own, each in a module named after its Go package. *)

From Stdlib Require Import ZArith Ascii String List Lia Bool.
From Stdlib Require Import DecimalString DecimalZ.
From stdpp Require Import base gmap strings list.

Import ListNotations.
Local Open Scope string_scope.
Local Open Scope list_scope.
Local Open Scope Z_scope.

(** The line feed and carriage return characters. *)
Definition LF : ascii := "010"%char.
Definition CR : ascii := "013"%char.

(** The one-character string holding a line feed, Go's ["\n"]. *)
Definition nl : string := String LF EmptyString.

(* ===================================================================== *)
(** * Part I: the model *)
(* ===================================================================== *)

(** ** Byte slices and strings, with Go's integer indices *)

(** [len(b)] of a byte slice. *)
Definition blen (b : list ascii) : Z := Z.of_nat (length b).

(** [b[:i]] and [b[i:]]. *)
Definition bto (b : list ascii) (i : Z) : list ascii := take (Z.to_nat i) b.
Definition bfrom (b : list ascii) (i : Z) : list ascii := drop (Z.to_nat i) b.

(** [bytes.IndexByte]: the index of the first [c] in [b], or [-1]. *)
Fixpoint IndexByte (b : list ascii) (c : ascii) : Z :=
  match b with
  | [] => -1
  | x :: b' =>
      if Ascii.eqb x c then 0
      else let i := IndexByte b' c in if i <? 0 then -1 else i + 1
  end.

(** The conversions [[]byte(str)] and [string(b)]. *)
Definition bytes_of (str : string) : list ascii := list_ascii_of_string str.
Definition string_of (b : list ascii) : string := string_of_list_ascii b.

(** [len(str)] of a string. *)
Definition slen (str : string) : Z := blen (bytes_of str).

(** [str[i:j]], [str[:i]] and [str[i:]]. *)
Definition sslice (str : string) (i j : Z) : string :=
  string_of (bto (bfrom (bytes_of str) i) (j - i)).
Definition sto (str : string) (i : Z) : string := string_of (bto (bytes_of str) i).
Definition sfrom (str : string) (i : Z) : string := string_of (bfrom (bytes_of str) i).

(** [str[i]]; the models below index within bounds only. *)
Definition sat (str : string) (i : Z) : ascii :=
  nth (Z.to_nat i) (bytes_of str) "000"%char.

(** [strings.IndexByte] and [strings.LastIndexByte], [-1] when absent. *)
Definition sIndexByte (str : string) (c : ascii) : Z := IndexByte (bytes_of str) c.

Definition sLastIndexByte (str : string) (c : ascii) : Z :=
  let i := IndexByte (rev (bytes_of str)) c in
  if i <? 0 then -1 else slen str - 1 - i.

(** [strings.HasPrefix], [strings.Contains] and [strings.Index] for a
    pattern [p]. *)
Fixpoint bHasPrefix (b p : list ascii) : bool :=
  match p, b with
  | [], _ => true
  | _ :: _, [] => false
  | y :: p', x :: b' => Ascii.eqb x y && bHasPrefix b' p'
  end.

Fixpoint bIndex (b p : list ascii) : Z :=
  if bHasPrefix b p then 0
  else match b with
       | [] => -1
       | _ :: b' => let i := bIndex b' p in if i <? 0 then -1 else i + 1
       end.

Definition HasPrefix (str p : string) : bool := bHasPrefix (bytes_of str) (bytes_of p).
Definition Index (str p : string) : Z := bIndex (bytes_of str) (bytes_of p).
Definition Contains (str p : string) : bool := 0 <=? Index str p.

(** Whether a character occurs in a string. *)
Fixpoint has_char (c : ascii) (str : string) : bool :=
  match str with
  | EmptyString => false
  | String d rest => Ascii.eqb d c || has_char c rest
  end.

(** [strings.Cut] at the first [sep], a single byte here: the text before
    it, the text after it, and whether [sep] was found. *)
Definition Cut (str : string) (sep : ascii) : string * string * bool :=
  let i := sIndexByte str sep in
  if 0 <=? i then (sto str i, sfrom str (i + 1), true) else (str, "", false).

(* ===================================================================== *)
(** ** Go's [strconv] *)
(* ===================================================================== *)

Module strconv.

(** [strconv.Itoa]: the decimal representation of an integer, with a
    leading minus sign for a negative one. *)
Definition Itoa (i : Z) : string := NilZero.string_of_int (Z.to_int i).

(** [strconv.Atoi] on the strings [Itoa] produces. *)
Definition Atoi (str : string) : option Z :=
  match NilZero.int_of_string str with
  | Some d => Some (Z.of_int d)
  | None => None
  end.

End strconv.

(* ===================================================================== *)
(** ** Go's [bufio]: a [Scanner] over a [strings.Reader], split by lines *)
(* ===================================================================== *)

Module bufio.

(** The errors a scan can end with: [io.EOF], [io.ErrNoProgress] and the
    package's own. *)
Inductive error :=
| EOF
| ErrNoProgress
| ErrTooLong
| ErrNegativeAdvance
| ErrAdvanceTooFar.

(** [Error()] of each. *)
Definition error_string (e : error) : string :=
  match e with
  | EOF => "EOF"
  | ErrNoProgress => "multiple Read calls return no data or error"
  | ErrTooLong => "bufio.Scanner: token too long"
  | ErrNegativeAdvance => "bufio.Scanner: SplitFunc returns negative advance count"
  | ErrAdvanceTooFar => "bufio.Scanner: SplitFunc returns advance count beyond input"
  end.

Definition MaxScanTokenSize : Z := 64 * 1024.
Definition startBufSize : Z := 4096.

(** The scanner.  [rd] is what the [strings.Reader] has not handed out yet
    ([r.s[r.i:]]); the buffer [s.buf] is kept as its length [bufLen], the
    indices [start] and [end_], and the bytes between them,
    [data = s.buf[s.start:s.end]]: the bytes outside that window are never
    read.  [maxTokenSize] is [MaxScanTokenSize] and the split function is
    [ScanLines], as [NewScanner] sets them.  [ScanLines] returns no error
    and no empty token without an advance, so the fields [done] and
    [empties], set for [ErrFinalToken] and for tokens that do not advance,
    keep their initial values and are left out. *)
Record Scanner := mkScanner {
  rd : list ascii;
  bufLen : Z;
  start : Z;
  end_ : Z;
  data : list ascii;
  token : option (list ascii);
  err : option error
}.

(** [bufio.NewScanner(strings.NewReader(input))]. *)
Definition NewScanner (input : string) : Scanner :=
  {| rd := bytes_of input; bufLen := 0; start := 0; end_ := 0; data := [];
     token := None; err := None |}.

(** [dropCR] drops a terminal carriage return from the data. *)
Definition dropCR (d : list ascii) : list ascii :=
  if (0 <? blen d) && Ascii.eqb (nth (Z.to_nat (blen d - 1)) d "000"%char) CR
  then bto d (blen d - 1)
  else d.

(** [ScanLines]: the advance and the token ([None] is Go's nil token);
    it never returns an error. *)
Definition ScanLines (d : list ascii) (atEOF : bool) : Z * option (list ascii) :=
  if atEOF && (blen d =? 0) then (0, None)
  else
    let i := IndexByte d LF in
    if 0 <=? i then (i + 1, Some (dropCR (bto d i)))
    else if atEOF then (blen d, Some (dropCR d))
    else (0, None).

(** [setErr] records the first error that is not [io.EOF]. *)
Definition setErr (sc : Scanner) (e : error) : Scanner :=
  match err sc with
  | None | Some EOF =>
      {| rd := rd sc; bufLen := bufLen sc; start := start sc; end_ := end_ sc;
         data := data sc; token := token sc; err := Some e |}
  | Some _ => sc
  end.

(** [advance] consumes [n] bytes of the buffer; it reports whether the
    advance was legal. *)
Definition advance (sc : Scanner) (n : Z) : Scanner * bool :=
  if n <? 0 then (setErr sc ErrNegativeAdvance, false)
  else if end_ sc - start sc <? n then (setErr sc ErrAdvanceTooFar, false)
  else ({| rd := rd sc; bufLen := bufLen sc; start := start sc + n; end_ := end_ sc;
           data := bfrom (data sc) n; token := token sc; err := err sc |}, true).

(** [Read] of the [strings.Reader] into [s.buf[s.end:len(s.buf)]], followed by
    the bookkeeping of the read loop of [Scan]: a read of no byte without
    an error repeats itself, so the loop ends with [io.ErrNoProgress]. *)
Definition fill (sc : Scanner) : Scanner :=
  match rd sc with
  | [] => setErr sc EOF
  | _ :: _ =>
      let n := Z.min (bufLen sc - end_ sc) (blen (rd sc)) in
      if n <=? 0 then setErr sc ErrNoProgress
      else {| rd := bfrom (rd sc) n; bufLen := bufLen sc; start := start sc;
              end_ := end_ sc + n; data := data sc ++ bto (rd sc) n;
              token := token sc; err := err sc |}
  end.

(** Shifting the data to the beginning of the buffer. *)
Definition shift (sc : Scanner) : Scanner :=
  if (0 <? start sc) && ((end_ sc =? bufLen sc) || (bufLen sc / 2 <? start sc))
  then {| rd := rd sc; bufLen := bufLen sc; start := 0; end_ := end_ sc - start sc;
          data := data sc; token := token sc; err := err sc |}
  else sc.

(** One round of the loop of [Scan]: either the call returns, or the loop
    goes round again. *)
Inductive round :=
| Return (found : bool) (sc : Scanner)
| Again (sc : Scanner).

(** The second half of a round: no token could be made of the data held. *)
Definition more (sc : Scanner) : round :=
  match err sc with
  | Some _ =>
      Return false {| rd := rd sc; bufLen := bufLen sc; start := 0; end_ := 0;
                      data := []; token := token sc; err := err sc |}
  | None =>
      let sc := shift sc in
      if end_ sc =? bufLen sc then
        (* [len(s.buf) > maxInt/2] cannot hold below [MaxScanTokenSize] *)
        if MaxScanTokenSize <=? bufLen sc then Return false (setErr sc ErrTooLong)
        else
          let newSize := bufLen sc * 2 in
          let newSize := if newSize =? 0 then startBufSize else newSize in
          let newSize := Z.min newSize MaxScanTokenSize in
          Again (fill {| rd := rd sc; bufLen := newSize; start := 0;
                         end_ := end_ sc - start sc; data := data sc;
                         token := token sc; err := err sc |})
      else Again (fill sc)
  end.

Definition Scan_round (sc : Scanner) : round :=
  if (start sc <? end_ sc) || bool_decide (err sc <> None) then
    let '(adv, tok) := ScanLines (data sc) (bool_decide (err sc <> None)) in
    let '(sc1, ok) := advance sc adv in
    if negb ok then Return false sc1
    else
      let sc2 := {| rd := rd sc1; bufLen := bufLen sc1; start := start sc1;
                    end_ := end_ sc1; data := data sc1; token := tok;
                    err := err sc1 |} in
      match tok with
      | Some _ => Return true sc2
      | None => more sc2
      end
  else more sc.

(** The loop of [Scan], for at most [fuel] rounds. *)
Fixpoint Scan_loop (fuel : nat) (sc : Scanner) : option (bool * Scanner) :=
  match fuel with
  | O => None
  | S fuel' =>
      match Scan_round sc with
      | Return found sc' => Some (found, sc')
      | Again sc' => Scan_loop fuel' sc'
      end
  end.

(** [Scan]: every round but the last two reads at least one byte, so
    this many rounds are enough (lemma [ScanProofs.Scan_spec]). *)
Definition Scan (sc : Scanner) : option (bool * Scanner) :=
  Scan_loop (S (S (length (rd sc)))) sc.

(** [Text] is the token of the last [Scan], as a string. *)
Definition Text (sc : Scanner) : string :=
  match token sc with
  | Some t => string_of t
  | None => ""
  end.

(** [Err] is the error the scan stopped with, [io.EOF] left out. *)
Definition Err (sc : Scanner) : option error :=
  match err sc with
  | Some EOF => None
  | e => e
  end.

End bufio.

(* ===================================================================== *)
(** ** Go's [net]: [SplitHostPort] *)
(* ===================================================================== *)

Module net.

(** [net.SplitHostPort]: host and port of ["host:port"], ["[host]:port"],
    or the reason why the address is neither. *)
Definition SplitHostPort (hostport : string) : (string * string) + string :=
  let missingPort := "missing port in address" in
  let tooManyColons := "too many colons in address" in
  let addrErr (why : string) : (string * string) + string :=
    (* [AddrError.Error]: the address is named unless it is empty *)
    inr (if String.eqb hostport "" then why
         else "address " +:+ hostport +:+ ": " +:+ why) in
  let i := sLastIndexByte hostport ":" in
  if i <? 0 then addrErr missingPort
  else
    let bracketed : (string * Z * Z) + string :=
      if Ascii.eqb (sat hostport 0) "[" then
        let end_ := sIndexByte hostport "]" in
        if end_ <? 0 then inr "missing ']' in address"
        else if end_ + 1 =? slen hostport then inr missingPort
        else if end_ + 1 =? i then inl (sslice hostport 1 end_, 1, end_ + 1)
        else if Ascii.eqb (sat hostport (end_ + 1)) ":" then inr tooManyColons
        else inr missingPort
      else
        let host := sto hostport i in
        if 0 <=? sIndexByte host ":" then inr tooManyColons
        else inl (host, 0, 0) in
    match bracketed with
    | inr why => addrErr why
    | inl (host, j, k) =>
        if 0 <=? sIndexByte (sfrom hostport j) "[" then
          addrErr "unexpected '[' in address"
        else if 0 <=? sIndexByte (sfrom hostport k) "]" then
          addrErr "unexpected ']' in address"
        else inl (host, sfrom hostport (i + 1))
    end.

End net.

(* ===================================================================== *)
(** ** Go's [net/url]: what [Parse] decides about scheme and host *)
(* ===================================================================== *)

(** The handler asks of [url.Parse] whether it fails and whether scheme
    and host are empty.  The model follows the parser of Go 1.17 to 1.24
    on exactly that: it keeps the checks that make [Parse] fail and leaves
    out the decoding of the parts.  The handler itself is stated over any
    parser (section [Handler] below); this one serves the examples. *)

Module net_url.

(** Of a parsed [URL] the handler reads the fields [Scheme] and [Host]. *)
Record URL := mkURL { Scheme : string; Host : string }.

Definition is_lower (c : ascii) : bool := (("a" <=? c) && (c <=? "z"))%char.
Definition is_upper (c : ascii) : bool := (("A" <=? c) && (c <=? "Z"))%char.
Definition is_digit (c : ascii) : bool := (("0" <=? c) && (c <=? "9"))%char.
Definition is_alnum (c : ascii) : bool := is_lower c || is_upper c || is_digit c.
Definition ishex (c : ascii) : bool :=
  is_digit c || (("a" <=? c) && (c <=? "f"))%char || (("A" <=? c) && (c <=? "F"))%char.
Definition one_of (cs : string) (c : ascii) : bool := has_char c cs.

(** [strings.ToLower] on ASCII letters. *)
Definition lower (c : ascii) : ascii :=
  if is_upper c then ascii_of_nat (nat_of_ascii c + 32) else c.
Definition ToLower (str : string) : string := string_of (map lower (bytes_of str)).

(** [stringContainsCTLByte]. *)
Definition stringContainsCTLByte (str : string) : bool :=
  existsb (fun c => (c <? " ")%char || Ascii.eqb c "127"%char) (bytes_of str).

(** The loop of [getScheme] from index [i] on: the scheme and the rest,
    or [None] for the error "missing protocol scheme". *)
Fixpoint getScheme_from (rawURL : string) (i : Z) (rest : list ascii)
  : option (string * string) :=
  match rest with
  | [] => Some ("", rawURL)
  | c :: rest' =>
      if is_lower c || is_upper c then getScheme_from rawURL (i + 1) rest'
      else if is_digit c || one_of "+-." c then
        if i =? 0 then Some ("", rawURL) else getScheme_from rawURL (i + 1) rest'
      else if Ascii.eqb c ":" then
        if i =? 0 then None else Some (sto rawURL i, sfrom rawURL (i + 1))
      else Some ("", rawURL)
  end.

Definition getScheme (rawURL : string) : option (string * string) :=
  getScheme_from rawURL 0 (bytes_of rawURL).

(** The check [unescape] makes of percent escapes in every mode: a [%]
    is followed by two hexadecimal digits. *)
Fixpoint escapes_ok (b : list ascii) : bool :=
  match b with
  | [] => true
  | c :: b' =>
      if Ascii.eqb c "%" then
        match b' with
        | h1 :: h2 :: _ => ishex h1 && ishex h2 && escapes_ok b'
        | _ => false
        end
      else escapes_ok b'
  end.

(** What [shouldEscape] allows unescaped in a host. *)
Definition host_byte_ok (c : ascii) : bool :=
  is_alnum c || one_of "!$&'()*+,;=:[]<>" c || Ascii.eqb c "034"%char
  || one_of "-_.~" c.

(** [unescape] in the mode [encodeHost], as a check: escapes are well
    formed and stand for bytes from [0x80] on (or are [%25]), and the other
    ASCII bytes are those a host may hold. *)
Fixpoint host_ok (b : list ascii) : bool :=
  match b with
  | [] => true
  | c :: b' =>
      if Ascii.eqb c "%" then
        match b' with
        | h1 :: h2 :: _ =>
            ishex h1 && ishex h2
            && (negb (h1 <? "8")%char || (Ascii.eqb h1 "2" && Ascii.eqb h2 "5"))
            && host_ok b'
        | _ => false
        end
      else ((("127" <? c)%char) || host_byte_ok c) && host_ok b'
  end.

(** [validOptionalPort]: empty, or a colon and digits. *)
Definition validOptionalPort (port : string) : bool :=
  match bytes_of port with
  | [] => true
  | c :: ds => Ascii.eqb c ":" && forallb is_digit ds
  end.

(** [validUserinfo]. *)
Definition validUserinfo (str : string) : bool :=
  forallb (fun c => is_alnum c || one_of "-._:~!$&'()*+,;=%@" c) (bytes_of str).

(** [unhex], the value of a hexadecimal digit. *)
Definition unhex (c : ascii) : nat :=
  if is_digit c then nat_of_ascii c - nat_of_ascii "0"
  else if (("a" <=? c) && (c <=? "f"))%char then nat_of_ascii c - nat_of_ascii "a" + 10
  else if (("A" <=? c) && (c <=? "F"))%char then nat_of_ascii c - nat_of_ascii "A" + 10
  else 0%nat.

(** [unescape] in the mode [encodeZone], as a check: an escape stands for
    [%], a space, or a byte a host may hold. *)
Fixpoint zone_ok (b : list ascii) : bool :=
  match b with
  | [] => true
  | c :: b' =>
      if Ascii.eqb c "%" then
        match b' with
        | h1 :: h2 :: _ =>
            let v := ascii_of_nat (unhex h1 * 16 + unhex h2) in
            ishex h1 && ishex h2
            && ((Ascii.eqb h1 "2" && Ascii.eqb h2 "5") || Ascii.eqb v " "
                || host_byte_ok v)
            && zone_ok b'
        | _ => false
        end
      else ((("127" <? c)%char) || host_byte_ok c) && zone_ok b'
  end.

(** [parseHost], as a check: brackets closed, a valid port after the
    host, and a host that unescapes; inside brackets a zone starts at
    [%25]. *)
Definition parseHost_ok (host : string) : bool :=
  if HasPrefix host "[" then
    let i := sLastIndexByte host "]" in
    if i <? 0 then false
    else if negb (validOptionalPort (sfrom host (i + 1))) then false
    else
      let zone := Index (sto host i) "%25" in
      if 0 <=? zone then
        host_ok (bytes_of (sto host zone)) && zone_ok (bytes_of (sslice host zone i))
        && host_ok (bytes_of (sfrom host i))
      else host_ok (bytes_of host)
  else
    let i := sLastIndexByte host ":" in
    if (0 <=? i) && negb (validOptionalPort (sfrom host i)) then false
    else host_ok (bytes_of host).

(** [parseAuthority]: the host with its port, still escaped, or [None]
    for an error. *)
Definition parseAuthority (authority : string) : option string :=
  let i := sLastIndexByte authority "@" in
  let host := if i <? 0 then authority else sfrom authority (i + 1) in
  if negb (parseHost_ok host) then None
  else if i <? 0 then Some host
  else
    let userinfo := sto authority i in
    if negb (validUserinfo userinfo) then None
    else if negb (escapes_ok (bytes_of userinfo)) then None
    else Some host.

(** [parse(rawURL, false)]. *)
Definition parse (rawURL : string) : option URL :=
  if stringContainsCTLByte rawURL then None
  else if String.eqb rawURL "*" then Some (mkURL "" "")
  else
    match getScheme rawURL with
    | None => None
    | Some (scheme, rest) =>
        let scheme := ToLower scheme in
        let rest := fst (fst (Cut rest "?")) in
        if negb (HasPrefix rest "/") && negb (String.eqb scheme "") then
          (* a rootless path is opaque *)
          Some (mkURL scheme "")
        else if negb (HasPrefix rest "/")
                && Contains (fst (fst (Cut rest "/"))) ":" then
          (* first path segment in URL cannot contain colon *)
          None
        else if HasPrefix rest "//"
                && (negb (String.eqb scheme "") || negb (HasPrefix rest "///")) then
          let authority := sfrom rest 2 in
          let i := sIndexByte authority "/" in
          let path := if 0 <=? i then sfrom authority i else "" in
          let authority := if 0 <=? i then sto authority i else authority in
          match parseAuthority authority with
          | None => None
          | Some host =>
              if escapes_ok (bytes_of path) then Some (mkURL scheme host) else None
          end
        else if escapes_ok (bytes_of rest) then Some (mkURL scheme "") else None
    end.

(** [url.Parse]: the fragment is cut off and checked apart.  [Host] is
    kept escaped here: it is empty exactly when the unescaped one is. *)
Definition Parse (rawURL : string) : option URL :=
  let '(u, frag, _) := Cut rawURL "#" in
  match parse u with
  | None => None
  | Some url => if escapes_ok (bytes_of frag) then Some url else None
  end.

End net_url.

(* ===================================================================== *)
(** ** Go's [io] and [net/http]: readers, requests, response writers *)
(* ===================================================================== *)

(** A body to read: [io.ReadAll] returns the bytes [content] it could
    read and the error [failure] that stopped it, if any. *)
Record ReadCloser := mkBody { content : string; failure : option string }.

Definition ReadAll (body : ReadCloser) : string * option string :=
  (content body, failure body).

Module http.

Definition MethodGet : string := "GET".
Definition MethodPost : string := "POST".

Definition StatusOK : Z := 200.
Definition StatusBadRequest : Z := 400.
Definition StatusMethodNotAllowed : Z := 405.
Definition StatusTooManyRequests : Z := 429.
Definition StatusInternalServerError : Z := 500.

Definition StatusText (code : Z) : string :=
  if code =? 200 then "OK"
  else if code =? 400 then "Bad Request"
  else if code =? 405 then "Method Not Allowed"
  else if code =? 429 then "Too Many Requests"
  else if code =? 500 then "Internal Server Error"
  else "".

(** Of an [http.Request] the package reads the method, the peer address
    and the body. *)
Record Request := mkRequest {
  Method : string;
  RemoteAddr : string;
  Body : ReadCloser
}.

(** Of an [http.Response] the handler reads the body. *)
Record Response := mkResponse { StatusCode : Z; RespBody : ReadCloser }.

(** An [http.ResponseWriter], after [httptest.ResponseRecorder]: the
    status [Code] (200 until a header is written), whether the header was
    written, and the body written so far.  [writeErr] is the error every
    [Write] returns on a connection that is gone; a recorder has none. *)
Record ResponseWriter := mkWriter {
  Code : Z;
  wroteHeader : bool;
  Written : string;
  writeErr : option string
}.

(** [httptest.NewRecorder()]. *)
Definition NewRecorder : ResponseWriter :=
  {| Code := 200; wroteHeader := false; Written := ""; writeErr := None |}.

(** [WriteHeader]: only the first call sets the status. *)
Definition WriteHeader (w : ResponseWriter) (code : Z) : ResponseWriter :=
  if wroteHeader w then w
  else {| Code := code; wroteHeader := true; Written := Written w;
          writeErr := writeErr w |}.

(** [Write]: the header goes out with status 200 if none was written. *)
Definition Write (w : ResponseWriter) (buf : string) : ResponseWriter * option string :=
  let w := WriteHeader w StatusOK in
  match writeErr w with
  | Some e => (w, Some e)
  | None => ({| Code := Code w; wroteHeader := wroteHeader w;
                Written := Written w +:+ buf; writeErr := None |}, None)
  end.

(** [http.Error]: the status, then the message and a line feed. *)
Definition Error (w : ResponseWriter) (error : string) (code : Z) : ResponseWriter :=
  fst (Write (WriteHeader w code) (error +:+ nl)).

End http.

(* ===================================================================== *)
(** ** The result collector, [resSizes] *)
(* ===================================================================== *)

(** [resSizes] holds a slice of byte lengths of response bodies.  The mutex
    [mu] makes [Add] one atomic step; it carries no data. *)
Record resSizes := mkResSizes { s : list Z }.

(** The loop of [String]: [i] is the index of [size] in the slice, [sLen]
    the length of the whole slice and [b] the contents of the builder. *)
Fixpoint String_loop (sLen i : Z) (rest : list Z) (b : string) : string :=
  match rest with
  | [] => b
  | size :: rest' =>
      let b1 := b +:+ strconv.Itoa size in
      let b2 := if 1 <? sLen - i then b1 +:+ nl else b1 in
      String_loop sLen (i + 1) rest' b2
  end.

(** The method [String] of [resSizes]. *)
Definition resSizes_String (rs : resSizes) : string :=
  String_loop (Z.of_nat (length (s rs))) 0 (s rs) "".

(** The method [Add] of [resSizes]: [rs.s = append(rs.s, i)], under the lock. *)
Definition resSizes_Add (rs : resSizes) (i : Z) : resSizes :=
  mkResSizes (s rs ++ [i]).

(* ===================================================================== *)
(** ** [middleware.go]: the counter store and the rate limiter *)
(* ===================================================================== *)

(** The scheduler's choices while a handler runs: which of the pending
    goroutines finishes next. *)
Definition Sched := list nat.

(** The interface [http.Handler].  A handler may change its own state. *)
Class Handler (H : Type) :=
  ServeHTTP : H -> Sched -> http.ResponseWriter -> http.Request -> H * http.ResponseWriter.

(** The conversion to [int32]: wrap-around in two's complement. *)
Definition int32 (z : Z) : Z := (z + 2 ^ 31) mod 2 ^ 32 - 2 ^ 31.

Definition MaxInt32 : Z := 2 ^ 31 - 1.

(** The interface [Stat]: [Reset] flushes the statistics, [Increment]
    adds one to the counter of an IP and returns it, an [int32]. *)
Class Stat (S : Type) := {
  Reset : S -> S;
  Increment : S -> string -> Z * S
}.

(** [StatHolder], the default implementation.  The lock [mu] makes each
    method one atomic step (module [Locked] below spells the lock out). *)
Record StatHolder := mkStatHolder { counter : gmap string Z }.

(** Reading a Go map: the zero value for a missing key. *)
Definition index (m : gmap string Z) (id : string) : Z := default 0 (m !! id).

Definition NewStatHolder : StatHolder := mkStatHolder ∅.

Definition StatHolder_Reset (sh : StatHolder) : StatHolder := mkStatHolder ∅.

Definition StatHolder_Increment (sh : StatHolder) (id : string) : Z * StatHolder :=
  let c := <[id := int32 (index (counter sh) id + 1)]> (counter sh) in
  (index c id, mkStatHolder c).

#[global] Instance StatHolder_Stat : Stat StatHolder :=
  {| Reset := StatHolder_Reset; Increment := StatHolder_Increment |}.

(** [requestIP]: the host part of the peer address. *)
Definition requestIP (req : http.Request) : string + string :=
  match net.SplitHostPort (http.RemoteAddr req) with
  | inr err => inr err
  | inl (ip, _) => inl ip
  end.

(** What [RateLimit(limit, window, stat)(next)] returns: a handler that
    holds [limit], [stat] and [next].  The ticker of period [window]
    shows as the event [tick]. *)
Record RateLimiter (S H : Type) := mkRateLimiter {
  limit : Z;
  stat : S;
  next : H
}.
Arguments mkRateLimiter {S H}.
Arguments limit {S H}.
Arguments stat {S H}.
Arguments next {S H}.

Definition RateLimit {S H : Type} (limit : Z) (stat : S) (next : H) : RateLimiter S H :=
  mkRateLimiter limit stat next.

(** One firing of the ticker: [stat.Reset()]. *)
Definition tick {S H : Type} `{Stat S} (rl : RateLimiter S H) : RateLimiter S H :=
  mkRateLimiter (limit rl) (Reset (stat rl)) (next rl).

(** The handler function of the middleware. *)
Definition RateLimiter_ServeHTTP {S H : Type} `{Stat S} `{Handler H}
    (rl : RateLimiter S H) (sched : Sched) (w : http.ResponseWriter) (req : http.Request)
  : RateLimiter S H * http.ResponseWriter :=
  match requestIP req with
  | inr _ =>
      (rl, http.Error w (http.StatusText http.StatusBadRequest) http.StatusBadRequest)
  | inl reqIP =>
      let '(current, stat') := Increment (stat rl) reqIP in
      if limit rl <? current then
        (mkRateLimiter (limit rl) stat' (next rl),
         http.Error w (http.StatusText http.StatusTooManyRequests)
           http.StatusTooManyRequests)
      else
        let '(next', w') := ServeHTTP (next rl) sched w req in
        (mkRateLimiter (limit rl) stat' next', w')
  end.

#[global] Instance RateLimiter_Handler {S H : Type} `{Stat S} `{Handler H}
  : Handler (RateLimiter S H) := RateLimiter_ServeHTTP.

(** What happens to a limiter: the ticker fires, or a request arrives and
    is answered on a recorder of its own. *)
Inductive Event :=
| Tick
| Serve (sched : Sched) (req : http.Request).

(** The limiter after a sequence of events, and the answers given. *)
Fixpoint run {S H : Type} `{Stat S} `{Handler H} (events : list Event)
    (rl : RateLimiter S H) : RateLimiter S H * list http.ResponseWriter :=
  match events with
  | [] => (rl, [])
  | Tick :: events' => run events' (tick rl)
  | Serve sched req :: events' =>
      let '(rl1, w) := ServeHTTP rl sched http.NewRecorder req in
      let '(rl2, ws) := run events' rl1 in
      (rl2, w :: ws)
  end.

(** A downstream handler as the tests mock it: it notes each call and
    writes nothing. *)
Record MockHandler := mkMock { calls : list http.Request }.

#[global] Instance MockHandler_Handler : Handler MockHandler :=
  fun h _ w req => (mkMock (calls h ++ [req]), w).

(* ===================================================================== *)
(** ** [handler.go]: the handler *)
(* ===================================================================== *)

Definition defaultRateLimit : Z := 999.

(** The interface [Getter]: [Get] returns a response or an error. *)
Definition Getter := string -> http.Response + string.

(** [ResponseSizeCounter]. *)
Record ResponseSizeCounter := mkRSC {
  urls : list string;
  sizes : resSizes;
  client : Getter
}.

(** [doGet]: the length of the body read, and the error if any. *)
Definition doGet (h : ResponseSizeCounter) (url : string) : Z * option string :=
  match client h url with
  | inr err => (0, Some ("GET '" +:+ url +:+ "': " +:+ err))
  | inl res =>
      let '(bytes, err) := ReadAll (http.RespBody res) in
      let err := match err with
                 | Some e => Some ("read response body: " +:+ e)
                 | None => None
                 end in
      (slen bytes, err)
  end.

(** What the goroutines of one [getRespSizes] share: the collector, and
    whether [errOnce] has fired.  [singles] is not in the code: it notes
    the last value of each finished goroutine's own variable [single]. *)
Record fanout := mkFanout {
  f_sizes : resSizes;
  f_once : bool;
  f_singles : list (option string)
}.

(** The goroutine started for [url], run to its end; [single] is its
    parameter, a copy of the caller's [err]. *)
Definition task (h : ResponseSizeCounter) (url : string) (single : option string)
    (st : fanout) : fanout :=
  let '(size, err) := doGet h url in
  let '(single, once) :=
    match err with
    | Some e => if f_once st then (single, true) else (Some e, true)
    | None => (single, f_once st)
    end in
  mkFanout (resSizes_Add (f_sizes st) size) once (f_singles st ++ [single]).

(** The goroutines finish one after the other, in the order the scheduler
    chooses: with [n] of them pending, the choice [c] ends number
    [c mod n].  Each is started with the caller's [err]. *)
Fixpoint run_tasks (h : ResponseSizeCounter) (n : nat) (sched : Sched)
    (pending : list string) (err : option string) (st : fanout) : fanout :=
  match n with
  | O => st
  | S n' =>
      let k := (hd 0%nat sched `mod` length pending)%nat in
      match pending !! k with
      | Some url => run_tasks h n' (tl sched) (delete k pending) err (task h url err st)
      | None => st
      end
  end.

(** [getRespSizes], with the final state of the fan-out next to what the
    code returns. *)
Definition getRespSizes_fanout (h : ResponseSizeCounter) (sched : Sched)
  : fanout * option string :=
  let err : option string := None in
  let st := run_tasks h (length (urls h)) sched (urls h) err
              (mkFanout (mkResSizes []) false []) in
  (st, err).

Definition getRespSizes (h : ResponseSizeCounter) (sched : Sched)
  : ResponseSizeCounter * option string :=
  let '(st, err) := getRespSizes_fanout h sched in
  (mkRSC (urls h) (f_sizes st) (client h), err).

(** The loop of [splitToLines], for at most [fuel] calls of [Scan]. *)
Fixpoint splitToLines_for (fuel : nat) (sc : bufio.Scanner) (lines : list string)
  : option (list string * bufio.Scanner) :=
  match fuel with
  | O => None
  | S fuel' =>
      match bufio.Scan sc with
      | None => None
      | Some (true, sc') =>
          let line := bufio.Text sc' in
          let lines := if String.eqb line "" then lines else lines ++ [line] in
          splitToLines_for fuel' sc' lines
      | Some (false, sc') => Some (lines, sc')
      end
  end.

(** [splitToLines]: every [Scan] that finds a token takes at least one
    byte off the input, so this many calls are enough (lemma
    [ScanProofs.splitToLines_for_spec]) and the last case does not arise. *)
Definition splitToLines (input : string) : list string * option bufio.error :=
  match splitToLines_for (S (String.length input)) (bufio.NewScanner input) [] with
  | Some (lines, sc) => (lines, bufio.Err sc)
  | None => ([], Some bufio.ErrNoProgress)
  end.

Section Handler.

(** [url.Parse] of Go's standard library. *)
Variable url_Parse : string -> option net_url.URL.

(** [isUrl]. *)
Definition isUrl (str : string) : bool :=
  match url_Parse str with
  | Some u => negb (String.eqb (net_url.Scheme u) "") && negb (String.eqb (net_url.Host u) "")
  | None => false
  end.

(** The loop of [getUrls] over the lines. *)
Fixpoint getUrls_range (lines : list string) (h : ResponseSizeCounter)
  : ResponseSizeCounter * option string :=
  match lines with
  | [] => (h, None)
  | line :: lines' =>
      if isUrl line then
        getUrls_range lines' (mkRSC (urls h ++ [line]) (sizes h) (client h))
      else (h, Some ("'" +:+ line +:+ "' is not a URL"))
  end.

(** [getUrls]. *)
Definition getUrls (h : ResponseSizeCounter) (req : http.Request)
  : ResponseSizeCounter * option string :=
  let '(bytes, err) := ReadAll (http.Body req) in
  match err with
  | Some e => (h, Some ("read request body: " +:+ e))
  | None =>
      let '(lines, err) := splitToLines bytes in
      match err with
      | Some e => (h, Some ("split request body to lines: " +:+ bufio.error_string e))
      | None => getUrls_range lines (mkRSC [] (sizes h) (client h))
      end
  end.

(** [serve]. *)
Definition serve (h : ResponseSizeCounter) (sched : Sched) (w : http.ResponseWriter)
    (req : http.Request) : ResponseSizeCounter * http.ResponseWriter :=
  match getUrls h req with
  | (h, Some err) =>
      (h, http.Error w ("get urls: " +:+ err) http.StatusInternalServerError)
  | (h, None) =>
      match getRespSizes h sched with
      | (h, Some err) =>
          (h, http.Error w ("get sizes of responses: " +:+ err)
                http.StatusInternalServerError)
      | (h, None) =>
          match http.Write w (resSizes_String (sizes h)) with
          | (w, Some err) =>
              (h, http.Error w ("write response: " +:+ err) http.StatusInternalServerError)
          | (w, None) => (h, w)
          end
      end
  end.

(** [ServeHTTP] of [ResponseSizeCounter]. *)
Definition RSC_ServeHTTP (h : ResponseSizeCounter) (sched : Sched)
    (w : http.ResponseWriter) (req : http.Request)
  : ResponseSizeCounter * http.ResponseWriter :=
  if String.eqb (http.Method req) http.MethodPost then serve h sched w req
  else (h, http.Error w "Only POST method supported." http.StatusMethodNotAllowed).

#[local] Instance RSC_Handler : Handler ResponseSizeCounter := RSC_ServeHTTP.

(** [MakeResponseSizeCounter]; [DefaultClient] is [http.DefaultClient]. *)
Definition MakeResponseSizeCounter (DefaultClient : Getter)
  : RateLimiter StatHolder ResponseSizeCounter :=
  RateLimit defaultRateLimit NewStatHolder (mkRSC [] (mkResSizes []) DefaultClient).

End Handler.

(* ===================================================================== *)
(** ** Concurrent callers of [Increment], the lock spelled out *)
(* ===================================================================== *)

Module Locked.

(** Where a caller of [Increment] stands. *)
Inductive pc :=
| AtLock            (* before [sh.mu.Lock()] *)
| AtLoad            (* in [sh.counter[id]++], before the map is read *)
| AtStore (v : Z)   (* in [sh.counter[id]++], [v] read, before the write *)
| AtReturn          (* before [sh.counter[id]] is read for the result *)
| AtUnlock (r : Z)  (* before the deferred [sh.mu.Unlock()] *)
| Returned (r : Z).

(** A caller: the key it increments and where it stands. *)
Record caller := mkCaller { key : string; at_pc : pc }.

(** The store with its lock, and the callers. *)
Record state := mkState {
  mu : bool;
  counter : gmap string Z;
  callers : list caller
}.

(** One step of caller number [t]; [None] when it cannot move: it waits
    for the lock, has returned, or does not exist. *)
Definition step (t : nat) (st : state) : option state :=
  match callers st !! t with
  | None => None
  | Some c =>
      let goes (p : pc) := <[t := mkCaller (key c) p]> (callers st) in
      match at_pc c with
      | AtLock =>
          if mu st then None else Some (mkState true (counter st) (goes AtLoad))
      | AtLoad =>
          Some (mkState (mu st) (counter st) (goes (AtStore (index (counter st) (key c)))))
      | AtStore v =>
          Some (mkState (mu st) (<[key c := int32 (v + 1)]> (counter st)) (goes AtReturn))
      | AtReturn =>
          Some (mkState (mu st) (counter st) (goes (AtUnlock (index (counter st) (key c)))))
      | AtUnlock r => Some (mkState false (counter st) (goes (Returned r)))
      | Returned _ => None
      end
  end.

(** An interleaving: the callers the scheduler picks, one step each; a
    pick that cannot move leaves the state as it is. *)
Fixpoint exec (sched : list nat) (st : state) : state :=
  match sched with
  | [] => st
  | t :: sched' => exec sched' (default st (step t st))
  end.

Definition has_returned (c : caller) : bool :=
  match at_pc c with
  | Returned _ => true
  | _ => false
  end.

Definition all_returned (st : state) : bool := forallb has_returned (callers st).

(** After a reset: an empty map, the lock free, and one caller for each
    key of [ids], none of which has started. *)
Definition init (ids : list string) : state :=
  mkState false ∅ (map (fun k => mkCaller k AtLock) ids).


(** A caller that holds the lock, and a caller that has written its
    increment. *)
Definition holding (c : caller) : bool :=
  match at_pc c with
  | AtLoad | AtStore _ | AtReturn | AtUnlock _ => true
  | AtLock | Returned _ => false
  end.

Definition stored (c : caller) : bool :=
  match at_pc c with
  | AtReturn | AtUnlock _ | Returned _ => true
  | AtLock | AtLoad | AtStore _ => false
  end.

(** How many callers satisfy a test. *)
Definition count (P : caller -> bool) (cs : list caller) : nat :=
  length (List.filter P cs).

(** The callers of the key [k] that have written their increment. *)
Definition stored_on (k : string) (c : caller) : bool :=
  stored c && String.eqb (key c) k.

(** What the lock keeps true: the lock is taken exactly when one caller
    holds it, no two callers hold it, the counter of each key is the number
    of increments written for it, as an [int32], and a caller about to
    write has read the current counter. *)
Definition Inv (st : state) : Prop :=
  count holding (callers st) = (if mu st then 1 else 0)%nat
  /\ (forall k, index (counter st) k
                = int32 (Z.of_nat (count (stored_on k) (callers st))))
  /\ (forall t c v, callers st !! t = Some c -> at_pc c = AtStore v ->
                    v = index (counter st) (key c)).

End Locked.

(* ===================================================================== *)
(** ** Requests in flight on one [ResponseSizeCounter] *)
(* ===================================================================== *)

(** [net/http] serves each request in a goroutine of its own, and all of
    them call [ServeHTTP] on the one handler [MakeResponseSizeCounter]
    made.  The steps of a request are taken whole here: [getUrls], the
    start of [getRespSizes], the end of one fetch, and the answer. *)

Module InFlight.

(** Where a request stands. *)
Inductive pc :=
| Arrived (req : http.Request)     (* before [getUrls] *)
| Parsed                           (* before [getRespSizes] *)
| Waiting (pending : list string)  (* in [wg.Wait()], these fetches running *)
| Answered (w : http.ResponseWriter).

(** The handler and the requests it is serving. *)
Record state := mkState {
  handler : ResponseSizeCounter;
  requests : list pc
}.

Section Steps.

Variable url_Parse : string -> option net_url.URL.

(** One step of request number [t]; in [Waiting], [choice] picks the
    fetch that ends.  [None] when the request cannot move. *)
Definition step (t choice : nat) (st : state) : option state :=
  let h := handler st in
  match requests st !! t with
  | None => None
  | Some (Arrived req) =>
      if String.eqb (http.Method req) http.MethodPost then
        match getUrls url_Parse h req with
        | (h', Some err) =>
            let w := http.Error http.NewRecorder ("get urls: " +:+ err)
                       http.StatusInternalServerError in
            Some (mkState h' (<[t := Answered w]> (requests st)))
        | (h', None) => Some (mkState h' (<[t := Parsed]> (requests st)))
        end
      else
        let w := http.Error http.NewRecorder "Only POST method supported."
                   http.StatusMethodNotAllowed in
        Some (mkState h (<[t := Answered w]> (requests st)))
  | Some Parsed =>
      (* [h.sizes.s = make([]int, 0)], then one goroutine for each of [h.urls] *)
      Some (mkState (mkRSC (urls h) (mkResSizes []) (client h))
              (<[t := Waiting (urls h)]> (requests st)))
  | Some (Waiting []) =>
      (* [wg.Wait()] returns, [err] is nil, the sizes are written *)
      let w := fst (http.Write http.NewRecorder (resSizes_String (sizes h))) in
      Some (mkState h (<[t := Answered w]> (requests st)))
  | Some (Waiting (u :: us)) =>
      let pending := u :: us in
      let k := (choice `mod` length pending)%nat in
      match pending !! k with
      | Some url =>
          let size := fst (doGet h url) in
          Some (mkState (mkRSC (urls h) (resSizes_Add (sizes h) size) (client h))
                  (<[t := Waiting (delete k pending)]> (requests st)))
      | None => None
      end
  | Some (Answered _) => None
  end.

(** An interleaving: which request moves, with which choice. *)
Fixpoint exec (sched : list (nat * nat)) (st : state) : state :=
  match sched with
  | [] => st
  | (t, choice) :: sched' => exec sched' (default st (step t choice st))
  end.

End Steps.

(** The answer request number [t] got, if it has one. *)
Definition answer (st : state) (t : nat) : option http.ResponseWriter :=
  match requests st !! t with
  | Some (Answered w) => Some w
  | _ => None
  end.

(** The schedule of a request served alone: [getUrls], the start of
    [getRespSizes], the fetches in the order [sched] gives, the answer. *)
Definition alone (t : nat) (sched : Sched) (n : nat) : list (nat * nat) :=
  [(t, 0%nat); (t, 0%nat)]
  ++ map (fun k => (t, nth k sched 0%nat)) (seq 0 n)
  ++ [(t, 0%nat)].

End InFlight.

(* ===================================================================== *)
(** ** The vocabulary of the specification *)
(* ===================================================================== *)

(** The lines joined by single line feeds, nothing after the last one. *)
Fixpoint join_lines (ls : list string) : string :=
  match ls with
  | [] => ""
  | [l] => l
  | l :: ls' => l +:+ nl +:+ join_lines ls'
  end.

(** The pieces of a string between its line feeds: [k] line feeds give
    [k + 1] pieces. *)
Fixpoint split_nl (str : string) : list string :=
  match str with
  | EmptyString => [""]
  | String c rest =>
      if Ascii.eqb c LF then "" :: split_nl rest
      else match split_nl rest with
           | [] => [String c ""]
           | l :: ls => String c l :: ls
           end
  end.

(** The lines of a text as a line scanner sees them: the pieces that end
    at a line feed, and the piece after the last line feed if it is not
    empty. *)
Fixpoint raw_lines (b : list ascii) : list (list ascii) :=
  match b with
  | [] => []
  | c :: b' =>
      if Ascii.eqb c LF then [] :: raw_lines b'
      else match raw_lines b' with
           | [] => [[c]]
           | l :: ls => (c :: l) :: ls
           end
  end.

(** The first line of a text, without its line feed, and the text after
    that line. *)
Definition head_line (p : list ascii) : list ascii :=
  let i := IndexByte p LF in if 0 <=? i then bto p i else p.

Definition after_line (p : list ascii) : list ascii :=
  let i := IndexByte p LF in if 0 <=? i then bfrom p (i + 1) else [].

(** A line without the carriage return that may end it, as a string. *)
Definition line_text (l : list ascii) : string := string_of (bufio.dropCR l).

(** What a scan by lines yields, line by line: a line of
    [MaxScanTokenSize] bytes or more stops the scan with [ErrTooLong],
    empty lines are left out. *)
Fixpoint scan_lines (ls : list (list ascii)) : list string * option bufio.error :=
  match ls with
  | [] => ([], None)
  | l :: ls' =>
      if bufio.MaxScanTokenSize <=? blen l then ([], Some bufio.ErrTooLong)
      else
        let '(lines, e) := scan_lines ls' in
        (if String.eqb (line_text l) "" then lines else line_text l :: lines, e)
  end.

Definition splitToLines_spec (input : string) : list string * option bufio.error :=
  scan_lines (raw_lines (bytes_of input)).

(** Serving requests by a handler directly, each on a recorder of its
    own. *)
Fixpoint feed {H : Type} `{Handler H} (reqs : list (Sched * http.Request)) (h : H)
  : H * list http.ResponseWriter :=
  match reqs with
  | [] => (h, [])
  | (sched, req) :: reqs' =>
      let '(h1, w) := ServeHTTP h sched http.NewRecorder req in
      let '(h2, ws) := feed reqs' h1 in
      (h2, w :: ws)
  end.

(** The lines of a body that are not empty, each without the carriage
    return that may end it. *)
Definition text_lines (body : string) : list string :=
  List.filter (fun t => negb (String.eqb t ""))
    (map line_text (raw_lines (bytes_of body))).

(** A body whose lines are all shorter than the largest token. *)
Definition scannable (body : string) : Prop :=
  Forall (fun l => blen l < bufio.MaxScanTokenSize) (raw_lines (bytes_of body)).

(** Whether the fetch of a URL fails. *)
Definition failed (h : ResponseSizeCounter) (url : string) : bool :=
  match snd (doGet h url) with
  | Some _ => true
  | None => false
  end.

(** What the scanner keeps true, and what a call of [Scan] has to do. *)

Module Scanning.
Import bufio.

(** What holds of a scanner between the rounds of [Scan]: the window sits
    inside the buffer, the buffer is not larger than the largest token,
    and once [io.EOF] was seen the reader is empty and the buffer was not
    full. *)
Definition Inv (sc : Scanner) : Prop :=
  0 <= start sc <= end_ sc
  /\ end_ sc <= bufLen sc <= MaxScanTokenSize
  /\ blen (data sc) = end_ sc - start sc
  /\ (err sc = None \/ (err sc = Some EOF /\ rd sc = [] /\ end_ sc < bufLen sc)).

(** The text a scanner has not made tokens of yet. *)
Definition pending (sc : Scanner) : list ascii := data sc ++ rd sc.

(** What a call of [Scan] has to do with the pending text [p]: at its end
    report no token and no error; on a first line of the largest token
    size or more, stop with [ErrTooLong]; else hand out the first line and
    keep the rest pending. *)
Definition Scan_post (p : list ascii) (res : bool * Scanner) : Prop :=
  match p with
  | [] => fst res = false /\ Err (snd res) = None
  | _ :: _ =>
      if MaxScanTokenSize <=? blen (head_line p)
      then fst res = false /\ Err (snd res) = Some ErrTooLong
      else fst res = true
           /\ token (snd res) = Some (dropCR (head_line p))
           /\ pending (snd res) = after_line p
           /\ Inv (snd res)
  end.

End Scanning.

(** *** The inputs of the examples *)

(** A request with a body, as the tests of the handler make it. *)
Definition post (body : string) : http.Request :=
  http.mkRequest http.MethodPost "" (mkBody body None).

(** The bodies of the tests [happyPath] and [wrongInput]. *)
Definition three_urls : string :=
  "https://test-1.com" +:+ nl +:+ "http://test-2.com" +:+ nl +:+ "https://test-3.com".

Definition no_urls : string :=
  "test-1.xyz" +:+ nl +:+ "test-2.123" +:+ nl +:+ "test-3.abc".

(** A client that cannot reach [test-2.com] and gets ten bytes from every
    other URL. *)
Definition flaky : Getter :=
  fun url =>
    if String.eqb url "http://test-2.com" then inr "connection refused"
    else inl (http.mkResponse 200 (mkBody "0123456789" None)).

(** A client that gets as many bytes as the URL is long. *)
Definition echo : Getter :=
  fun url => inl (http.mkResponse 200 (mkBody url None)).

(** A handler as the tests make it. *)
Definition counter_with (c : Getter) : ResponseSizeCounter :=
  mkRSC [] (mkResSizes []) c.

(** A body of one line of 65537 bytes, and a body with the line [x]
    before a line of 65536 bytes. *)
Definition long_line : string := string_of (repeat "a"%char (Z.to_nat 65537)).

Definition masked_line : string :=
  "x" +:+ nl +:+ string_of (repeat "a"%char (Z.to_nat 65536)).

(** Two requests in flight on one handler, an interleaving in which both
    start their fetches before either fetch ends, and one in which the
    second request starts after the fetch of the first has ended. *)
Definition req_a : http.Request := post "http://a.io".
Definition req_b : http.Request := post "http://bb.io".

Definition both_in_flight : InFlight.state :=
  InFlight.mkState (counter_with echo) [InFlight.Arrived req_a; InFlight.Arrived req_b].

Definition mixed : list (nat * nat) :=
  [(0, 0); (0, 0); (1, 0); (1, 0); (0, 0); (1, 0); (0, 0); (1, 0)]%nat.

Definition dropped : list (nat * nat) :=
  [(0, 0); (0, 0); (0, 0); (1, 0); (1, 0); (0, 0); (1, 0); (1, 0)]%nat.

(** The requests as events of the limiter. *)
Definition serve_events (reqs : list (Sched * http.Request)) : list Event :=
  map (fun sr => Serve (fst sr) (snd sr)) reqs.

(** A request that comes from the key [k]. *)
Definition from_key (k : string) (sr : Sched * http.Request) : Prop :=
  requestIP (snd sr) = inl k.

(** A request without a body from the peer address [addr], as the tests
    of the middleware make it. *)
Definition rq (addr : string) : http.Request :=
  http.mkRequest http.MethodGet addr (mkBody "" None).

(** Whether a string ends with a line feed. *)
Fixpoint ends_with_nl (str : string) : bool :=
  match str with
  | EmptyString => false
  | String c EmptyString => Ascii.eqb c LF
  | String _ rest => ends_with_nl rest
  end.


(** *** More of the vocabulary *)

(** The requests of the key [k] among the events since the ticker last
    fired, counted on from [acc]. *)
Fixpoint window_count (k : string) (events : list Event) (acc : nat) : nat :=
  match events with
  | [] => acc
  | Tick :: events' => window_count k events' 0
  | Serve _ req :: events' =>
      match requestIP req with
      | inl k' => window_count k events' (if String.eqb k' k then S acc else acc)
      | inr _ => window_count k events' acc
      end
  end.

(** The handler [MakeResponseSizeCounter] returns, serving a request. *)
Definition Service_ServeHTTP (url_Parse : string -> option net_url.URL)
    (rl : RateLimiter StatHolder ResponseSizeCounter) (sched : Sched)
    (w : http.ResponseWriter) (req : http.Request)
  : RateLimiter StatHolder ResponseSizeCounter * http.ResponseWriter :=
  @RateLimiter_ServeHTTP StatHolder ResponseSizeCounter StatHolder_Stat
    (RSC_Handler url_Parse) rl sched w req.

(** The bytes read from the body a client fetches for a URL, none when
    the GET fails. *)
Definition bytes_read (c : Getter) (url : string) : Z :=
  match c url with
  | inl res => slen (content (http.RespBody res))
  | inr _ => 0
  end.

(** A client that gets as many bytes as the URL is long, in a response
    with the status 404. *)
Definition echo_not_found : Getter :=
  fun url => inl (http.mkResponse 404 (mkBody url None)).

(** The lines, each followed by the line end [eol]. *)
Fixpoint with_line_ends (eol : string) (ls : list string) : string :=
  match ls with
  | [] => ""
  | l :: ls' => l +:+ eol +:+ with_line_ends eol ls'
  end.

(** A line a scan by lines hands back as it is: not empty, without line
    feed and carriage return, and shorter than the largest token even
    with a carriage return after it. *)
Definition plain_line (l : string) : Prop :=
  l <> "" /\ has_char LF l = false /\ has_char CR l = false
  /\ slen l + 1 < bufio.MaxScanTokenSize.

(** The result a caller of [Increment] for the key [k] has read, once it
    has read it, and the results read so far for [k]. *)
Definition result_on (k : string) (c : Locked.caller) : option Z :=
  if String.eqb (Locked.key c) k then
    match Locked.at_pc c with
    | Locked.AtUnlock r | Locked.Returned r => Some r
    | _ => None
    end
  else None.

Definition results_on (k : string) (cs : list Locked.caller) : list Z :=
  omap (result_on k) cs.

(** A caller for the key [k] that has written and not yet read its result. *)
Definition returning_on (k : string) (c : Locked.caller) : bool :=
  match Locked.at_pc c with
  | Locked.AtReturn => String.eqb (Locked.key c) k
  | _ => false
  end.

(** The numbers 1, 2, ..., [n]. *)
Definition one_to (n : nat) : list Z := map Z.of_nat (seq 1 n).

(** What the lock keeps true of the results for a key: they are the
    numbers from 1 on, each once, and every increment written has been
    read by its caller but the one that may be under way. *)
Definition Ordinals (k : string) (st : Locked.state) : Prop :=
  results_on k (Locked.callers st) ≡ₚ one_to (length (results_on k (Locked.callers st)))
  /\ Locked.count (Locked.stored_on k) (Locked.callers st)
     = (length (results_on k (Locked.callers st))
        + Locked.count (returning_on k) (Locked.callers st))%nat.

(** A text without colon and without square brackets. *)
Definition bare (str : string) : Prop :=
  has_char ":" str = false /\ has_char "[" str = false /\ has_char "]" str = false.

(** A sequence of events on the handler [MakeResponseSizeCounter] returns. *)
Definition Service_run (url_Parse : string -> option net_url.URL)
    (events : list Event) (rl : RateLimiter StatHolder ResponseSizeCounter)
  : RateLimiter StatHolder ResponseSizeCounter * list http.ResponseWriter :=
  @run StatHolder ResponseSizeCounter StatHolder_Stat (RSC_Handler url_Parse) events rl.

(** A scheme of letters, and a host name of letters, digits, dots and
    hyphens; neither is empty. *)
Definition letters (str : string) : Prop :=
  str <> ""
  /\ forallb (fun c => net_url.is_lower c || net_url.is_upper c) (bytes_of str) = true.

Definition host_name_byte (c : ascii) : bool :=
  net_url.is_alnum c || net_url.one_of "-." c.

Definition host_name (str : string) : Prop :=
  str <> "" /\ forallb host_name_byte (bytes_of str) = true.


(* ===================================================================== *)
(** * Part II: the properties *)
(* ===================================================================== *)

(** ** Strings and byte slices *)

Lemma append_cons (x : ascii) (a b : string) : String x a +:+ b = String x (a +:+ b).
Proof. reflexivity. Qed.

Lemma append_empty_l (b : string) : "" +:+ b = b.
Proof. reflexivity. Qed.

Lemma append_assoc (a b c : string) : (a +:+ b) +:+ c = a +:+ b +:+ c.
Proof.
  induction a as [|x a IH]; [reflexivity |].
  rewrite !append_cons. now f_equal.
Qed.

Lemma append_empty_r (a : string) : a +:+ "" = a.
Proof.
  induction a as [|x a IH]; [reflexivity |].
  rewrite append_cons. now f_equal.
Qed.

Lemma has_char_append (c : ascii) (a b : string) :
  has_char c (a +:+ b) = has_char c a || has_char c b.
Proof.
  induction a as [|x a IH]; [reflexivity |].
  rewrite append_cons. simpl. rewrite IH. now rewrite orb_assoc.
Qed.

Lemma string_of_bytes_of (str : string) : string_of (bytes_of str) = str.
Proof. apply string_of_list_ascii_of_string. Qed.

Lemma bytes_of_string_of (b : list ascii) : bytes_of (string_of b) = b.
Proof. apply list_ascii_of_string_of_list_ascii. Qed.

Lemma length_bytes_of (str : string) : length (bytes_of str) = String.length str.
Proof. induction str as [|c str IH]; simpl; [reflexivity | now rewrite IH]. Qed.

Lemma string_of_nil_iff (b : list ascii) : string_of b = "" <-> b = [].
Proof.
  split; [| now intros ->].
  destruct b; [reflexivity | discriminate].
Qed.

(** ** The result collector renders one line for each size (C6) *)

Example String_three :
  resSizes_String (mkResSizes [25000; 0; 7]) = "25000" +:+ nl +:+ "0" +:+ nl +:+ "7".
Proof. reflexivity. Qed.

Example String_negative : resSizes_String (mkResSizes [-12]) = "-12".
Proof. reflexivity. Qed.

Lemma join_lines_cons (l l' : string) (ls : list string) :
  join_lines (l :: l' :: ls) = l +:+ nl +:+ join_lines (l' :: ls).
Proof. reflexivity. Qed.

(** The loop of [String] appends the lines joined by line feeds. *)
Lemma String_loop_join (rest : list Z) :
  forall (sLen i : Z) (b : string),
    sLen - i = Z.of_nat (length rest) ->
    String_loop sLen i rest b = b +:+ join_lines (map strconv.Itoa rest).
Proof.
  induction rest as [|size rest IH]; intros sLen i b Hlen.
  - simpl. now rewrite append_empty_r.
  - cbn [String_loop]. rewrite IH by (simpl length in Hlen; lia).
    destruct rest as [|size' rest].
    + assert (Hi : (1 <? sLen - i) = false) by (apply Z.ltb_ge; simpl in Hlen; lia).
      rewrite Hi. simpl. now rewrite !append_empty_r.
    + assert (Hi : (1 <? sLen - i) = true) by (apply Z.ltb_lt; simpl length in Hlen; lia).
      rewrite Hi. cbn [map]. rewrite join_lines_cons. now rewrite !append_assoc.
Qed.

Lemma resSizes_String_join (rs : resSizes) :
  resSizes_String rs = join_lines (map strconv.Itoa (s rs)).
Proof. unfold resSizes_String. rewrite String_loop_join by lia. reflexivity. Qed.

(** A decimal number holds no line feed. *)
Lemma string_of_uint_no_LF (d : Decimal.uint) :
  has_char LF (NilEmpty.string_of_uint d) = false.
Proof. induction d; simpl; auto. Qed.

Lemma Itoa_no_LF (i : Z) : has_char LF (strconv.Itoa i) = false.
Proof.
  unfold strconv.Itoa, NilZero.string_of_int, NilZero.string_of_uint.
  destruct (Z.to_int i) as [d|d]; destruct d; simpl; auto using string_of_uint_no_LF.
Qed.

Lemma Itoa_nonempty (i : Z) : strconv.Itoa i <> "".
Proof.
  unfold strconv.Itoa, NilZero.string_of_int, NilZero.string_of_uint.
  destruct (Z.to_int i) as [d|d]; destruct d; simpl; discriminate.
Qed.

(** [Itoa] writes the number that [Atoi] reads back. *)
Lemma Atoi_Itoa (i : Z) : strconv.Atoi (strconv.Itoa i) = Some i.
Proof.
  unfold strconv.Atoi, strconv.Itoa.
  rewrite NilZero.isi.
  - now rewrite DecimalZ.of_to.
  - destruct i as [|p|p]; simpl; try discriminate.
    intros [= H]. now apply (DecimalPos.Unsigned.to_uint_nonnil p).
  - destruct i as [|p|p]; simpl; try discriminate.
    intros [= H]. now apply (DecimalPos.Unsigned.to_uint_nonnil p).
Qed.

(** Splitting at the line feeds undoes the joining of lines that hold
    none. *)
Lemma split_nl_no_LF (l : string) : has_char LF l = false -> split_nl l = [l].
Proof.
  induction l as [|c l IH]; simpl; [reflexivity |].
  intros H. apply orb_false_elim in H as [Hc Hl].
  rewrite Hc, IH by assumption. reflexivity.
Qed.

Lemma split_nl_append (l rest : string) :
  has_char LF l = false ->
  split_nl (l +:+ nl +:+ rest) = l :: split_nl rest.
Proof.
  induction l as [|c l IH]; [reflexivity |].
  rewrite append_cons. simpl.
  intros H. apply orb_false_elim in H as [Hc Hl].
  rewrite Hc, IH by assumption. reflexivity.
Qed.

Lemma split_nl_join (ls : list string) :
  ls <> [] -> Forall (fun l => has_char LF l = false) ls ->
  split_nl (join_lines ls) = ls.
Proof.
  induction ls as [|l ls IH]; [congruence |].
  intros _ Hall. apply Forall_cons_1 in Hall as [Hl Hls].
  destruct ls as [|l' ls].
  - simpl. now apply split_nl_no_LF.
  - rewrite join_lines_cons, split_nl_append by assumption.
    now rewrite IH.
Qed.

Lemma ends_with_nl_no_LF (l : string) : has_char LF l = false -> ends_with_nl l = false.
Proof.
  induction l as [|c l IH]; simpl; [reflexivity |].
  intros H. apply orb_false_elim in H as [Hc Hl].
  destruct l; [assumption | now apply IH].
Qed.

Lemma ends_with_nl_append (a b : string) :
  b <> "" -> ends_with_nl (a +:+ b) = ends_with_nl b.
Proof.
  intros Hb. induction a as [|c a IH]; [reflexivity |].
  rewrite append_cons. simpl. destruct (a +:+ b) eqn:E; [| assumption].
  destruct a; [rewrite append_empty_l in E; congruence | discriminate].
Qed.

Lemma join_lines_nonempty (l : string) (ls : list string) :
  l <> "" -> join_lines (l :: ls) <> "".
Proof.
  intros Hl. destruct l; [congruence |].
  destruct ls; cbn [join_lines]; rewrite ?append_cons; discriminate.
Qed.

Lemma ends_with_nl_join (ls : list string) :
  Forall (fun l => has_char LF l = false /\ l <> "") ls ->
  ends_with_nl (join_lines ls) = false.
Proof.
  induction ls as [|l ls IH]; [reflexivity |].
  intros Hall. apply Forall_cons_1 in Hall as [[Hl Hne] Hls].
  destruct ls as [|l' ls].
  - simpl. now apply ends_with_nl_no_LF.
  - rewrite join_lines_cons.
    apply Forall_cons_1 in Hls as Hls'. destruct Hls' as [[_ Hne'] _].
    rewrite ends_with_nl_append.
    + rewrite (ends_with_nl_append nl) by now apply join_lines_nonempty.
      now apply IH.
    + unfold nl. rewrite append_cons. discriminate.
Qed.

(** C6.  [String] renders exactly one decimal integer for each recorded
    size, in insertion order: the rendering is the decimal numbers joined
    by single line feeds, so splitting it at the line feeds gives the
    numbers back, each reads back as its size, no line feed ends it, and
    the empty collector renders as the empty string. *)
Theorem render_one_line_per_size (rs : resSizes) :
  resSizes_String rs = join_lines (map strconv.Itoa (s rs))
  /\ split_nl (resSizes_String rs)
     = match s rs with [] => [""] | _ => map strconv.Itoa (s rs) end
  /\ map strconv.Atoi (map strconv.Itoa (s rs)) = map Some (s rs)
  /\ ends_with_nl (resSizes_String rs) = false
  /\ resSizes_String (mkResSizes []) = "".
Proof.
  rewrite resSizes_String_join. repeat split.
  - destruct (s rs) as [|x xs] eqn:E; [reflexivity |].
    apply split_nl_join; [discriminate |].
    apply List.Forall_forall. intros l Hl. apply in_map_iff in Hl as [z [<- _]].
    apply Itoa_no_LF.
  - induction (s rs) as [|x xs IH]; [reflexivity |].
    cbn [map]. now rewrite Atoi_Itoa, IH.
  - apply ends_with_nl_join. apply List.Forall_forall. intros l Hl.
    apply in_map_iff in Hl as [z [<- _]].
    split; [apply Itoa_no_LF | apply Itoa_nonempty].
Qed.

(** ** The rate limiter (C4, C7) *)

Example requestIP_ok : requestIP (rq "127.0.0.1:80") = inl "127.0.0.1".
Proof. reflexivity. Qed.

Example requestIP_no_port :
  requestIP (rq "0.0.0.0") = inr "address 0.0.0.0: missing port in address".
Proof. reflexivity. Qed.

Example requestIP_empty_host : requestIP (rq ":80") = inl "".
Proof. reflexivity. Qed.

Example requestIP_empty_address : requestIP (rq "") = inr "missing port in address".
Proof. reflexivity. Qed.

(** The test [TestRateLimit_tooManyRequests]: limit 3, four requests. *)
Example tooManyRequests :
  map http.Code
    (snd (run (repeat (Serve [] (rq "127.0.0.1:80")) 4)
            (RateLimit 3 NewStatHolder (mkMock []))))
  = [200; 200; 200; 429].
Proof. reflexivity. Qed.

Lemma int32_id (z : Z) : - 2 ^ 31 <= z <= MaxInt32 -> int32 z = z.
Proof.
  unfold int32, MaxInt32. intros Hz.
  rewrite Z.mod_small by lia. lia.
Qed.

Lemma int32_overflow : int32 (MaxInt32 + 1) = - 2 ^ 31.
Proof. reflexivity. Qed.

Lemma index_insert (m : gmap string Z) (k : string) (v : Z) :
  index (<[k := v]> m) k = v.
Proof. unfold index. now rewrite lookup_insert_eq. Qed.

Lemma index_insert_ne (m : gmap string Z) (k k' : string) (v : Z) :
  k <> k' -> index (<[k := v]> m) k' = index m k'.
Proof. intros Hk. unfold index. now rewrite lookup_insert_ne. Qed.

Lemma index_empty (k : string) : index ∅ k = 0.
Proof. unfold index. now rewrite lookup_empty. Qed.

(** [Increment] returns the wrapped successor and stores it. *)
Lemma Increment_eq (sh : StatHolder) (k : string) :
  Increment sh k
  = (int32 (index (counter sh) k + 1),
     mkStatHolder (<[k := int32 (index (counter sh) k + 1)]> (counter sh))).
Proof. cbn. unfold StatHolder_Increment. now rewrite index_insert. Qed.

Section Limiter.

Context {H : Type} `{Handler H}.

(** While the count of a key stays within the limit, and within
    [int32], its requests all reach the next handler. *)
Lemma run_within_limit (k : string) (reqs : list (Sched * http.Request)) :
  forall (rl : RateLimiter StatHolder H),
    Forall (from_key k) reqs ->
    0 <= index (counter (stat rl)) k ->
    index (counter (stat rl)) k + Z.of_nat (length reqs) <= limit rl ->
    index (counter (stat rl)) k + Z.of_nat (length reqs) <= MaxInt32 ->
    exists sh,
      run (serve_events reqs) rl
      = (mkRateLimiter (limit rl) sh (fst (feed reqs (next rl))),
         snd (feed reqs (next rl)))
      /\ index (counter sh) k
         = index (counter (stat rl)) k + Z.of_nat (length reqs).
Proof.
  induction reqs as [|[sched req] reqs IH]; intros rl Hall Hpos Hlim Hmax.
  - exists (stat rl). destruct rl. simpl. split; [reflexivity | lia].
  - apply Forall_cons_1 in Hall as [Hreq Hall]. unfold from_key in Hreq.
    simpl in Hreq. cbn [length] in Hlim, Hmax.
    cbn [serve_events map run feed fst snd].
    unfold ServeHTTP at 1, RateLimiter_Handler, RateLimiter_ServeHTTP.
    rewrite Hreq, Increment_eq.
    rewrite int32_id by (unfold MaxInt32 in *; lia).
    assert (Hlt : (limit rl <? index (counter (stat rl)) k + 1) = false)
      by (apply Z.ltb_ge; lia).
    rewrite Hlt.
    destruct (ServeHTTP (next rl) sched http.NewRecorder req) as [next1 w1] eqn:E1.
    set (sh1 := mkStatHolder (<[k := index (counter (stat rl)) k + 1]> (counter (stat rl)))).
    destruct (IH (mkRateLimiter (limit rl) sh1 next1)) as [sh [Hrun Hidx]].
    + assumption.
    + cbn. rewrite index_insert. lia.
    + cbn. rewrite index_insert. lia.
    + cbn. rewrite index_insert. lia.
    + exists sh. fold (serve_events reqs). rewrite Hrun. cbn [limit next stat].
      destruct (feed reqs next1) as [next2 ws]. cbn [fst snd].
      split; [reflexivity |].
      rewrite Hidx. cbn. rewrite index_insert. lia.
Qed.

End Limiter.

Lemma from_key_repeat (k : string) (sr : Sched * http.Request) (n : nat) :
  from_key k sr -> Forall (from_key k) (repeat sr n).
Proof.
  intros Hsr. apply List.Forall_forall. intros x Hx.
  apply repeat_spec in Hx. now subst.
Qed.

(** The answer of the limiter to a request of a key that has reached the
    limit. *)
Lemma over_limit {H : Type} `{Handler H} (rl : RateLimiter StatHolder H)
    (k : string) (sched : Sched) (w : http.ResponseWriter) (req : http.Request) :
  requestIP req = inl k ->
  0 <= index (counter (stat rl)) k ->
  limit rl <= index (counter (stat rl)) k < MaxInt32 ->
  ServeHTTP rl sched w req
  = (mkRateLimiter (limit rl)
       (mkStatHolder (<[k := index (counter (stat rl)) k + 1]> (counter (stat rl))))
       (next rl),
     http.Error w (http.StatusText http.StatusTooManyRequests)
       http.StatusTooManyRequests).
Proof.
  intros Hreq Hpos Hc.
  unfold ServeHTTP at 1, RateLimiter_Handler, RateLimiter_ServeHTTP.
  rewrite Hreq, Increment_eq.
  rewrite int32_id by (unfold MaxInt32 in *; lia).
  assert (Hlt : (limit rl <? index (counter (stat rl)) k + 1) = true)
    by (apply Z.ltb_lt; lia).
  now rewrite Hlt.
Qed.

(** The answer of the limiter to a request of a key below the limit. *)
Lemma under_limit {H : Type} `{Handler H} (rl : RateLimiter StatHolder H)
    (k : string) (sched : Sched) (w : http.ResponseWriter) (req : http.Request) :
  requestIP req = inl k ->
  int32 (index (counter (stat rl)) k + 1) <= limit rl ->
  ServeHTTP rl sched w req
  = (mkRateLimiter (limit rl)
       (mkStatHolder
          (<[k := int32 (index (counter (stat rl)) k + 1)]> (counter (stat rl))))
       (fst (ServeHTTP (next rl) sched w req)),
     snd (ServeHTTP (next rl) sched w req)).
Proof.
  intros Hreq Hc.
  unfold ServeHTTP at 1, RateLimiter_Handler, RateLimiter_ServeHTTP.
  rewrite Hreq, Increment_eq.
  assert (Hlt : (limit rl <? int32 (index (counter (stat rl)) k + 1)) = false)
    by (apply Z.ltb_ge; lia).
  rewrite Hlt. now destruct (ServeHTTP (next rl) sched w req).
Qed.

(** C4, as amended.  For a limit [0 < L < MaxInt32] and one key: the
    first [L] requests of a window all reach the downstream handler, the
    next one is answered 429, and after a reset a request of the key is
    counted as the first and reaches the downstream handler again. *)
Theorem rate_limit_window {H : Type} `{Handler H} (L : Z) (downstream : H)
    (k : string) (reqs : list (Sched * http.Request))
    (sched : Sched) (req : http.Request) :
  0 < L < MaxInt32 ->
  Z.of_nat (length reqs) = L ->
  Forall (from_key k) reqs ->
  requestIP req = inl k ->
  let full := fst (run (serve_events reqs) (RateLimit L NewStatHolder downstream)) in
  let over := ServeHTTP full sched http.NewRecorder req in
  let fresh := tick (fst over) in
  (next full, snd (run (serve_events reqs) (RateLimit L NewStatHolder downstream)))
  = feed reqs downstream
  /\ index (counter (stat full)) k = L
  /\ snd over = http.Error http.NewRecorder "Too Many Requests" 429
  /\ http.Code (snd over) = http.StatusTooManyRequests
  /\ next (fst over) = next full
  /\ fst (Increment (stat fresh) k) = 1
  /\ (next (fst (ServeHTTP fresh sched http.NewRecorder req)),
      snd (ServeHTTP fresh sched http.NewRecorder req))
     = ServeHTTP (next full) sched http.NewRecorder req.
Proof.
  intros HL Hlen Hall Hreq full over fresh.
  destruct (run_within_limit k reqs (RateLimit L NewStatHolder downstream))
    as [sh [Hrun Hidx]]; cbn [RateLimit stat limit counter NewStatHolder];
    rewrite ?index_empty; try lia; [assumption |].
  cbn [RateLimit stat limit next counter NewStatHolder] in Hrun, Hidx.
  rewrite index_empty in Hidx.
  assert (Hfull : full = mkRateLimiter L sh (fst (feed reqs downstream)))
    by (unfold full; now rewrite Hrun).
  assert (Hover : over
            = (mkRateLimiter L (mkStatHolder (<[k := L + 1]> (counter sh)))
                 (fst (feed reqs downstream)),
               http.Error http.NewRecorder "Too Many Requests" 429)).
  { unfold over. rewrite Hfull, (over_limit _ k) by (cbn; (assumption || lia)).
    cbn [limit stat next]. now replace (index (counter sh) k) with L by lia. }
  assert (Hfresh : fresh = mkRateLimiter L (mkStatHolder ∅) (fst (feed reqs downstream)))
    by (unfold fresh; now rewrite Hover).
  rewrite Hrun, Hfull, Hover, Hfresh. cbn [fst snd next stat counter].
  repeat split.
  - symmetry. apply surjective_pairing.
  - lia.
  - rewrite Increment_eq. cbn [counter fst]. now rewrite index_empty.
  - rewrite (under_limit _ k); [| assumption |].
    + cbn [fst snd next]. symmetry. apply surjective_pairing.
    + cbn [stat counter limit]. rewrite index_empty.
      change (int32 (0 + 1)) with 1. lia.
Qed.

(** The amended C4 at limit 3, as in the test of the middleware. *)
Lemma rate_limit_window_witness :
  let reqs := repeat ([] : Sched, rq "127.0.0.1:80") 3 in
  let full := fst (run (serve_events reqs) (RateLimit 3 NewStatHolder (mkMock []))) in
  calls (next full) = map snd reqs
  /\ http.Code (snd (ServeHTTP full [] http.NewRecorder (rq "127.0.0.1:80"))) = 429.
Proof.
  pose proof (rate_limit_window (H := MockHandler) 3 (mkMock []) "127.0.0.1"
                (repeat ([] : Sched, rq "127.0.0.1:80") 3) [] (rq "127.0.0.1:80")
                ltac:(unfold MaxInt32; lia) eq_refl
                ltac:(apply from_key_repeat; reflexivity) eq_refl)
    as (Hfeed & _ & _ & Hcode & _).
  split; [| exact Hcode].
  exact (f_equal (fun p => calls (fst p)) Hfeed).
Defined.

(** With the limit [MaxInt32], the request that follows [MaxInt32] requests
    of its key is counted as [-2^31] and reaches the downstream handler. *)
Lemma limit_MaxInt32_overflow (n : nat) :
  Z.of_nat n = MaxInt32 ->
  http.Code
    (snd (ServeHTTP
            (fst (run (serve_events (repeat ([] : Sched, rq "127.0.0.1:80") n))
                    (RateLimit 2147483647 NewStatHolder (mkMock []))))
            [] http.NewRecorder (rq "127.0.0.1:80")))
  = http.StatusOK.
Proof.
  intros Hn.
  destruct (run_within_limit "127.0.0.1" (repeat ([] : Sched, rq "127.0.0.1:80") n)
              (RateLimit 2147483647 NewStatHolder (mkMock [])))
    as [sh [Hrun Hidx]]; cbn [RateLimit stat limit counter NewStatHolder];
    rewrite ?index_empty, ?repeat_length; try (unfold MaxInt32 in *; lia).
  { apply from_key_repeat. reflexivity. }
  rewrite Hrun. cbn [fst].
  cbn [RateLimit stat limit counter NewStatHolder] in Hidx.
  rewrite index_empty, repeat_length, Hn in Hidx.
  rewrite (under_limit _ "127.0.0.1").
  - reflexivity.
  - reflexivity.
  - cbn [stat limit]. rewrite Hidx, Z.add_0_l, int32_overflow.
    apply Z.leb_le. reflexivity.
Qed.

(** C4 as stated fails at the limit [MaxInt32]: the counter is an
    [int32], so request number [MaxInt32 + 1] of the window is counted as
    [-2^31], which is not over the limit; it is answered by the
    downstream handler, not with 429. *)
Lemma rate_limit_MaxInt32_never_rejects :
  http.Code
    (snd (ServeHTTP
            (fst (run (serve_events (repeat ([] : Sched, rq "127.0.0.1:80")
                                       (Z.to_nat 2147483647)))
                    (RateLimit 2147483647 NewStatHolder (mkMock []))))
            [] http.NewRecorder (rq "127.0.0.1:80")))
  = http.StatusOK
  /\ http.Code
       (snd (ServeHTTP
               (fst (run (serve_events (repeat ([] : Sched, rq "127.0.0.1:80")
                                          (Z.to_nat 2147483647)))
                       (RateLimit 2147483647 NewStatHolder (mkMock []))))
               [] http.NewRecorder (rq "127.0.0.1:80")))
     <> http.StatusTooManyRequests.
Proof.
  rewrite limit_MaxInt32_overflow by (rewrite Z2Nat.id; [reflexivity | lia]).
  split; [reflexivity |].
  unfold http.StatusOK, http.StatusTooManyRequests. discriminate.
Qed.

(** C7.  A request whose peer address does not split into host and port
    is answered 400 before the counter store is touched: the limiter, and
    with it the store, is left as it was, and the answer is not 429. *)
Theorem bad_peer_address {S H : Type} `{Stat S} `{Handler H}
    (rl : RateLimiter S H) (sched : Sched) (w : http.ResponseWriter)
    (req : http.Request) (e : string) :
  requestIP req = inr e ->
  http.wroteHeader w = false ->
  fst (ServeHTTP rl sched w req) = rl
  /\ snd (ServeHTTP rl sched w req) = http.Error w "Bad Request" 400
  /\ http.Code (snd (ServeHTTP rl sched w req)) = http.StatusBadRequest
  /\ http.Code (snd (ServeHTTP rl sched w req)) <> http.StatusTooManyRequests.
Proof.
  intros Hreq Hw.
  unfold ServeHTTP at 1 2 3 4, RateLimiter_Handler, RateLimiter_ServeHTTP.
  rewrite Hreq. cbn [fst snd].
  assert (Hcode : http.Code (http.Error w "Bad Request" 400) = 400).
  { unfold http.Error, http.Write, http.WriteHeader. rewrite Hw. cbn.
    now destruct (http.writeErr w). }
  repeat split; try assumption.
  change (http.StatusText http.StatusBadRequest) with "Bad Request".
  change http.StatusBadRequest with 400. rewrite Hcode. discriminate.
Qed.

(** C7 at the address of the test [TestRateLimit_wrongRequestIP]. *)
Lemma bad_peer_address_witness :
  let rl := RateLimit 3 NewStatHolder (mkMock []) in
  fst (ServeHTTP rl [] http.NewRecorder (rq "0.0.0.0")) = rl
  /\ http.Code (snd (ServeHTTP rl [] http.NewRecorder (rq "0.0.0.0"))) = 400.
Proof.
  pose proof (bad_peer_address (RateLimit 3 NewStatHolder (mkMock [])) []
                http.NewRecorder (rq "0.0.0.0") _ eq_refl eq_refl)
    as (Hrl & _ & Hcode & _).
  split; [exact Hrl | exact Hcode].
Defined.

(** ** The line scanner *)

Lemma blen_nonneg (b : list ascii) : 0 <= blen b.
Proof. unfold blen. lia. Qed.

Lemma blen_app (a b : list ascii) : blen (a ++ b) = blen a + blen b.
Proof. unfold blen. rewrite length_app. lia. Qed.

Lemma blen_bto (b : list ascii) (n : Z) : 0 <= n <= blen b -> blen (bto b n) = n.
Proof. unfold blen, bto. intros Hn. rewrite length_take. lia. Qed.

Lemma blen_bfrom (b : list ascii) (n : Z) : 0 <= n <= blen b -> blen (bfrom b n) = blen b - n.
Proof. unfold blen, bfrom. intros Hn. rewrite length_drop. lia. Qed.

Lemma bto_bfrom (b : list ascii) (n : Z) : bto b n ++ bfrom b n = b.
Proof. apply take_drop. Qed.

Lemma bfrom_0 (b : list ascii) : bfrom b 0 = b.
Proof. reflexivity. Qed.

Lemma blen_nil_iff (b : list ascii) : blen b = 0 <-> b = [].
Proof. unfold blen. destruct b; simpl; split; (congruence || lia). Qed.

(** [IndexByte] finds the first occurrence. *)
Lemma IndexByte_range (b : list ascii) (c : ascii) :
  IndexByte b c = -1 \/ 0 <= IndexByte b c < blen b.
Proof.
  unfold blen. induction b as [|x b IH]; simpl; [now left |].
  destruct (Ascii.eqb x c); [right; lia |].
  destruct IH as [-> | IH]; [now left |].
  destruct (Z.ltb_spec (IndexByte b c) 0); [lia | right; lia].
Qed.

Lemma IndexByte_app_found (d r : list ascii) (c : ascii) :
  0 <= IndexByte d c -> IndexByte (d ++ r) c = IndexByte d c.
Proof.
  induction d as [|x d IH]; simpl; [lia |].
  destruct (Ascii.eqb x c); [reflexivity |].
  destruct (Z.ltb_spec (IndexByte d c) 0) as [Hlt|Hge]; [lia |].
  intros _. rewrite IH by assumption.
  destruct (Z.ltb_spec (IndexByte d c) 0); [lia | reflexivity].
Qed.

Lemma IndexByte_app_absent (d r : list ascii) (c : ascii) :
  IndexByte d c < 0 ->
  IndexByte (d ++ r) c = -1 \/ blen d <= IndexByte (d ++ r) c.
Proof.
  unfold blen. induction d as [|x d IH]; simpl.
  - intros _. destruct (IndexByte_range r c); [now left | right; lia].
  - destruct (Ascii.eqb x c); [lia |].
    destruct (Z.ltb_spec (IndexByte d c) 0) as [Hlt|Hge]; [| lia].
    intros _. destruct (IH Hlt) as [-> | IH']; [now left |].
    destruct (Z.ltb_spec (IndexByte (d ++ r) c) 0); [lia | right; lia].
Qed.

Lemma bto_app_l (d r : list ascii) (i : Z) : i <= blen d -> bto (d ++ r) i = bto d i.
Proof. unfold bto, blen. intros Hi. apply take_app_le. lia. Qed.

Lemma bfrom_app_l (d r : list ascii) (i : Z) :
  0 <= i <= blen d -> bfrom (d ++ r) i = bfrom d i ++ r.
Proof. unfold bfrom, blen. intros Hi. apply drop_app_le. lia. Qed.

(** The lines of a text: its first line, then the lines of the rest. *)
Lemma raw_lines_head (p : list ascii) :
  p <> [] -> raw_lines p = head_line p :: raw_lines (after_line p).
Proof.
  induction p as [|c p IH]; [congruence |]. intros _.
  unfold head_line, after_line. simpl.
  destruct (Ascii.eqb c LF) eqn:Ec; [reflexivity |].
  destruct p as [|c' p].
  - reflexivity.
  - rewrite IH by discriminate. unfold head_line, after_line.
    destruct (IndexByte_range (c' :: p) LF) as [E | E].
    + rewrite E. reflexivity.
    + destruct (Z.ltb_spec (IndexByte (c' :: p) LF) 0); [lia |].
      destruct (Z.leb_spec 0 (IndexByte (c' :: p) LF)); [| lia].
      destruct (Z.leb_spec 0 (IndexByte (c' :: p) LF + 1)); [| lia].
      unfold bto, bfrom.
      rewrite !Z2Nat.inj_add by lia. change (Z.to_nat 1) with 1%nat.
      rewrite !Nat.add_1_r. reflexivity.
Qed.

Lemma after_line_shorter (p : list ascii) :
  p <> [] -> (length (after_line p) < length p)%nat.
Proof.
  intros Hp. unfold after_line.
  destruct (IndexByte_range p LF) as [E | E].
  - rewrite E. simpl. destruct p; [congruence | simpl; lia].
  - destruct (Z.leb_spec 0 (IndexByte p LF)); [| lia].
    unfold bfrom, blen in *. rewrite length_drop. lia.
Qed.

Module ScanProofs.
Import bufio Scanning.


Lemma Inv_NewScanner (input : string) : Inv (NewScanner input).
Proof. unfold Inv, MaxScanTokenSize. cbn. repeat split; try lia. now left. Qed.

(** Reading into a buffer that has room: the bytes read move from the
    reader to the window, or the reader is empty and [io.EOF] is noted. *)
Lemma fill_spec (sc : Scanner) :
  0 <= start sc <= end_ sc -> end_ sc < bufLen sc <= MaxScanTokenSize ->
  blen (data sc) = end_ sc - start sc -> err sc = None ->
  Inv (fill sc)
  /\ data (fill sc) ++ rd (fill sc) = data sc ++ rd sc
  /\ ((err (fill sc) = None /\ (length (rd (fill sc)) < length (rd sc))%nat)
      \/ err (fill sc) = Some EOF).
Proof.
  destruct sc as [r bl st en d tk e]. cbn [start end_ bufLen data err rd].
  intros Hse Hbuf Hd ->. unfold fill. cbn [start end_ bufLen data err rd].
  destruct r as [|c r].
  - unfold setErr, Inv. cbn. rewrite app_nil_r.
    repeat split; try lia; auto.
    right. repeat split; lia.
  - set (n := Z.min (bl - en) (blen (c :: r))).
    assert (Hn : 1 <= n <= blen (c :: r)) by (unfold n, blen; simpl length; lia).
    assert (Hn' : n <= bl - en) by (unfold n; lia).
    destruct (Z.leb_spec n 0) as [Hle|_]; [lia |].
    unfold Inv. cbn [start end_ bufLen data err rd].
    rewrite blen_app, blen_bto by lia.
    repeat split; try lia.
    + now left.
    + rewrite <- app_assoc. now rewrite bto_bfrom.
    + left. split; [reflexivity |].
      unfold bfrom, blen in *. rewrite length_drop. lia.
Qed.

(** The second half of a round, before [io.EOF]: the buffer is full of
    one unfinished token of the largest size, or more is read. *)
Lemma more_spec (sc : Scanner) :
  Inv sc -> err sc = None ->
  (exists sc', more sc = Return false sc' /\ err sc' = Some ErrTooLong
               /\ blen (data sc) = MaxScanTokenSize)
  \/ (exists sc', more sc = Again sc' /\ Inv sc'
                  /\ data sc' ++ rd sc' = data sc ++ rd sc
                  /\ ((err sc' = None /\ (length (rd sc') < length (rd sc))%nat)
                      \/ err sc' = Some EOF)).
Proof.
  destruct sc as [r bl st en d tk e]. unfold Inv.
  cbn [start end_ bufLen data err rd].
  intros (Hse & Hbuf & Hd & _) ->. unfold more. cbn [err].
  set (sc1 := shift (mkScanner r bl st en d tk None)).
  assert (H1 : exists st1 en1,
             sc1 = mkScanner r bl st1 en1 d tk None
             /\ 0 <= st1 <= en1 /\ en1 <= bl /\ blen d = en1 - st1
             /\ (en1 = bl -> st1 = 0)).
  { unfold sc1, shift. cbn [start end_ bufLen data err rd token].
    destruct ((0 <? st) && ((en =? bl) || (bl / 2 <? st))) eqn:E.
    - exists 0, (en - st). repeat split; lia.
    - exists st, en. repeat split; lia. }
  destruct H1 as (st1 & en1 & -> & Hse1 & Hen1 & Hd1 & Hfull).
  cbn [start end_ bufLen data err rd token].
  destruct (Z.eqb_spec en1 bl) as [-> | Hne].
  - specialize (Hfull eq_refl). subst st1.
    destruct (Z.leb_spec MaxScanTokenSize bl) as [Hmax | Hlt].
    + left. eexists. split; [reflexivity |]. cbn. split; [reflexivity | lia].
    + right. eexists. split; [reflexivity |].
      apply fill_spec; cbn [start end_ bufLen data err rd]; try lia; try reflexivity.
      unfold MaxScanTokenSize, startBufSize in *.
      destruct (Z.eqb_spec (bl * 2) 0); lia.
  - right. eexists. split; [reflexivity |].
    apply fill_spec; cbn [start end_ bufLen data err rd]; try lia; reflexivity.
Qed.



Lemma head_line_found (d r : list ascii) :
  0 <= IndexByte d LF ->
  head_line (d ++ r) = bto d (IndexByte d LF)
  /\ after_line (d ++ r) = bfrom d (IndexByte d LF + 1) ++ r.
Proof.
  intros Hi. unfold head_line, after_line.
  rewrite IndexByte_app_found by assumption.
  destruct (IndexByte_range d LF) as [E | E]; [lia |].
  destruct (Z.leb_spec 0 (IndexByte d LF)); [| lia].
  rewrite bto_app_l, bfrom_app_l by lia. now split.
Qed.

Lemma head_line_absent (d r : list ascii) :
  IndexByte d LF < 0 -> blen d <= blen (head_line (d ++ r)).
Proof.
  intros Hi. unfold head_line.
  destruct (IndexByte_app_absent d r LF Hi) as [E | E].
  - rewrite E. cbn. rewrite blen_app. pose proof (blen_nonneg r). lia.
  - destruct (IndexByte_range (d ++ r) LF) as [E' | E']; [pose proof (blen_nonneg d); lia |].
    destruct (Z.leb_spec 0 (IndexByte (d ++ r) LF)); [| lia].
    rewrite blen_bto; lia.
Qed.

Lemma ScanLines_found (d : list ascii) (atEOF : bool) :
  0 <= IndexByte d LF ->
  ScanLines d atEOF = (IndexByte d LF + 1, Some (dropCR (bto d (IndexByte d LF)))).
Proof.
  intros Hi. unfold ScanLines.
  destruct (IndexByte_range d LF) as [E | E]; [lia |].
  destruct (Z.eqb_spec (blen d) 0); [lia |]. rewrite andb_false_r.
  now destruct (Z.leb_spec 0 (IndexByte d LF)); [| lia].
Qed.

Lemma ScanLines_absent (d : list ascii) :
  IndexByte d LF < 0 -> ScanLines d false = (0, None).
Proof.
  intros Hi. unfold ScanLines. cbn [andb].
  now destruct (Z.leb_spec 0 (IndexByte d LF)); [lia |].
Qed.

Lemma ScanLines_last (d : list ascii) :
  d <> [] -> IndexByte d LF < 0 -> ScanLines d true = (blen d, Some (dropCR d)).
Proof.
  intros Hd Hi. unfold ScanLines.
  destruct (Z.eqb_spec (blen d) 0) as [E | _]; [now apply blen_nil_iff in E |].
  cbn [andb].
  now destruct (Z.leb_spec 0 (IndexByte d LF)); [lia |].
Qed.

Lemma advance_ok (sc : Scanner) (n : Z) :
  0 <= n <= end_ sc - start sc ->
  advance sc n
  = (mkScanner (rd sc) (bufLen sc) (start sc + n) (end_ sc) (bfrom (data sc) n)
       (token sc) (err sc), true).
Proof.
  intros Hn. unfold advance.
  destruct (Z.ltb_spec n 0); [lia |].
  now destruct (Z.ltb_spec (end_ sc - start sc) n); [lia |].
Qed.

Lemma Scan_post_nonempty (p : list ascii) (res : bool * Scanner) :
  p <> [] ->
  (if MaxScanTokenSize <=? blen (head_line p)
   then fst res = false /\ Err (snd res) = Some ErrTooLong
   else fst res = true
        /\ token (snd res) = Some (dropCR (head_line p))
        /\ pending (snd res) = after_line p
        /\ Inv (snd res)) ->
  Scan_post p res.
Proof. destruct p; [congruence | auto]. Qed.

(** A round at the end of the input returns. *)
Lemma Scan_round_eof (sc : Scanner) :
  Inv sc -> err sc = Some EOF ->
  exists res, Scan_round sc = Return (fst res) (snd res) /\ Scan_post (pending sc) res.
Proof.
  destruct sc as [r bl st en d tk e]. unfold Inv, pending.
  cbn [start end_ bufLen data err rd].
  intros (Hse & Hbuf & Hd & [He | (_ & -> & Hroom)]) ->; [discriminate |].
  rewrite app_nil_r. unfold Scan_round.
  cbn [start end_ bufLen data err rd].
  rewrite bool_decide_eq_true_2 by discriminate. rewrite orb_true_r.
  destruct (IndexByte_range d LF) as [E | E].
  - destruct (decide (d = [])) as [-> | Hne].
    + (* nothing left: no token, no error *)
      change (ScanLines [] true) with (0, @None (list ascii)).
      cbv beta iota. rewrite advance_ok by (cbn; lia).
      cbv beta iota. cbn [negb]. unfold more. cbn [err].
      eexists (false, _). split; [reflexivity |]. now cbn.
    + (* a last line without line feed *)
      rewrite ScanLines_last by (assumption || lia).
      cbv beta iota. rewrite advance_ok by (cbn; pose proof (blen_nonneg d); lia).
      cbv beta iota. cbn [negb start end_ bufLen data err rd token].
      eexists (true, _). split; [reflexivity |].
      apply Scan_post_nonempty; [assumption |].
      assert (Hh : head_line d = d) by (unfold head_line; now rewrite E).
      assert (Ha : after_line d = []) by (unfold after_line; now rewrite E).
      rewrite Hh, Ha.
      destruct (Z.leb_spec MaxScanTokenSize (blen d)); [lia |].
      cbn [fst snd token pending data rd].
      assert (Hnil : bfrom d (blen d) = [])
        by (unfold bfrom, blen; rewrite Nat2Z.id; apply drop_all).
      rewrite Hnil. unfold Inv. cbn [start end_ bufLen data err rd].
      change (blen []) with 0.
      repeat split; try lia. right. repeat split; lia.
  - (* a line that ends with a line feed *)
    rewrite ScanLines_found by lia.
    cbv beta iota. rewrite advance_ok by (cbn; lia).
    cbv beta iota. cbn [negb start end_ bufLen data err rd token].
    eexists (true, _). split; [reflexivity |].
    apply Scan_post_nonempty; [intros ->; cbn in E; lia |].
    destruct (head_line_found d [] ltac:(lia)) as [Hh Ha].
    rewrite app_nil_r in Hh, Ha. rewrite Hh, Ha, blen_bto by lia.
    destruct (Z.leb_spec MaxScanTokenSize (IndexByte d LF)); [lia |].
    cbn [fst snd token pending data rd]. unfold Inv.
    cbn [start end_ bufLen data err rd]. rewrite blen_bfrom by lia.
    repeat split; try lia. right. repeat split; lia.
Qed.

(** A round before the end of the input returns, or has read more. *)
Lemma Scan_round_none (sc : Scanner) :
  Inv sc -> err sc = None ->
  (exists res, Scan_round sc = Return (fst res) (snd res) /\ Scan_post (pending sc) res)
  \/ (exists sc', Scan_round sc = Again sc' /\ Inv sc'
                  /\ pending sc' = pending sc
                  /\ ((err sc' = None /\ (length (rd sc') < length (rd sc))%nat)
                      \/ err sc' = Some EOF)).
Proof.
  intros HInv Herr. pose proof HInv as (Hse & Hbuf & Hd & _).
  unfold Scan_round. rewrite Herr.
  rewrite bool_decide_eq_false_2 by (intros Hn; now apply Hn). rewrite orb_false_r.
  destruct (Z.ltb_spec (start sc) (end_ sc)) as [Hlt | Hge].
  - destruct (IndexByte_range (data sc) LF) as [E | E].
    + (* no line feed in the window: more is needed *)
      rewrite ScanLines_absent by lia.
      cbv beta iota. rewrite advance_ok by lia.
      cbv beta iota. cbn [negb start end_ bufLen data err rd token].
      rewrite Z.add_0_r, bfrom_0.
      set (sc2 := mkScanner _ _ _ _ _ _ _).
      assert (HInv2 : Inv sc2).
      { destruct sc. cbn in Herr. subst. exact HInv. }
      destruct (more_spec sc2 HInv2 Herr)
        as [(sc' & Hm & He & Hfull) | (sc' & Hm & HI & Hp & Hr)].
      * left. exists (false, sc'). split; [exact Hm |].
        apply Scan_post_nonempty.
        { unfold pending. intros Hnil. apply app_eq_nil in Hnil as [Hnil _].
          apply blen_nil_iff in Hnil. lia. }
        pose proof (head_line_absent (data sc) (rd sc) ltac:(lia)) as Hh.
        unfold pending. cbn [data sc2] in Hfull.
        destruct (Z.leb_spec MaxScanTokenSize (blen (head_line (data sc ++ rd sc))));
          [| lia].
        cbn [fst snd]. unfold Err. now rewrite He.
      * right. exists sc'. split; [exact Hm |]. auto.
    + (* a line that ends with a line feed *)
      left. rewrite ScanLines_found by lia.
      cbv beta iota. rewrite advance_ok by lia.
      cbv beta iota. cbn [negb start end_ bufLen data err rd token].
      eexists (true, _). split; [reflexivity |].
      apply Scan_post_nonempty.
      { unfold pending. intros Hnil. apply app_eq_nil in Hnil as [Hnil _].
        apply blen_nil_iff in Hnil. lia. }
      destruct (head_line_found (data sc) (rd sc) ltac:(lia)) as [Hh Ha].
      change (pending sc) with (data sc ++ rd sc). rewrite Hh, Ha, blen_bto by lia.
      destruct (Z.leb_spec MaxScanTokenSize (IndexByte (data sc) LF)); [lia |].
      cbn [fst snd token pending data rd]. unfold Inv.
      cbn [start end_ bufLen data err rd]. rewrite blen_bfrom by lia.
      repeat split; try lia. now left.
  - (* an empty window *)
    destruct (more_spec sc HInv Herr)
      as [(sc' & Hm & He & Hfull) | (sc' & Hm & HI & Hp & Hr)].
    + unfold MaxScanTokenSize in *. lia.
    + right. exists sc'. split; [exact Hm |]. auto.
Qed.

(** At the end of the input one round is enough. *)
Lemma Scan_loop_eof (sc : Scanner) (fuel : nat) :
  Inv sc -> err sc = Some EOF -> (1 <= fuel)%nat ->
  exists res, Scan_loop fuel sc = Some res /\ Scan_post (pending sc) res.
Proof.
  intros HInv Herr Hfuel.
  destruct fuel as [|fuel]; [lia |].
  destruct (Scan_round_eof sc HInv Herr) as ([found sc'] & Hr & Hpost).
  exists (found, sc'). cbn [Scan_loop]. now rewrite Hr.
Qed.

(** Before the end of the input, two rounds more than there are bytes to
    read are enough. *)
Lemma Scan_loop_none (m : nat) :
  forall (sc : Scanner) (fuel : nat),
    (length (rd sc) <= m)%nat -> Inv sc -> err sc = None -> (m + 2 <= fuel)%nat ->
    exists res, Scan_loop fuel sc = Some res /\ Scan_post (pending sc) res.
Proof.
  induction m as [|m IH]; intros sc fuel Hm HInv Herr Hfuel.
  - destruct fuel as [|fuel]; [lia |].
    destruct (Scan_round_none sc HInv Herr)
      as [([found sc'] & Hr & Hpost) | (sc' & Hr & HI & Hp & [[_ Hlt] | He])].
    + exists (found, sc'). cbn [Scan_loop]. now rewrite Hr.
    + lia.
    + cbn [Scan_loop]. rewrite Hr, <- Hp. apply Scan_loop_eof; (assumption || lia).
  - destruct fuel as [|fuel]; [lia |].
    destruct (Scan_round_none sc HInv Herr)
      as [([found sc'] & Hr & Hpost) | (sc' & Hr & HI & Hp & [[He Hlt] | He])].
    + exists (found, sc'). cbn [Scan_loop]. now rewrite Hr.
    + cbn [Scan_loop]. rewrite Hr, <- Hp. apply IH; (assumption || lia).
    + cbn [Scan_loop]. rewrite Hr, <- Hp. apply Scan_loop_eof; (assumption || lia).
Qed.

(** [Scan] returns, and does what a scan by lines has to do. *)
Lemma Scan_spec (sc : Scanner) :
  Inv sc -> exists res, Scan sc = Some res /\ Scan_post (pending sc) res.
Proof.
  intros HInv. unfold Scan.
  destruct (err sc) as [e|] eqn:Herr.
  - pose proof HInv as (_ & _ & _ & [He | (He & _)]); [congruence |].
    apply Scan_loop_eof; (assumption || lia).
  - apply (Scan_loop_none (length (rd sc))); (assumption || lia).
Qed.

(** The loop of [splitToLines] collects the lines of the pending text as
    a scan by lines yields them, with one call of [Scan] more than there
    are bytes pending at most. *)
Lemma splitToLines_for_spec (n : nat) :
  forall (sc : Scanner) (fuel : nat) (lines : list string),
    (length (pending sc) <= n)%nat -> Inv sc -> (n + 1 <= fuel)%nat ->
    exists sc',
      splitToLines_for fuel sc lines
      = Some (lines ++ fst (scan_lines (raw_lines (pending sc))), sc')
      /\ Err sc' = snd (scan_lines (raw_lines (pending sc))).
Proof.
  induction n as [|n IH]; intros sc fuel lines Hn HInv Hfuel;
    (destruct fuel as [|fuel]; [lia |]);
    destruct (Scan_spec sc HInv) as ([found sc'] & HScan & Hpost);
    cbn [splitToLines_for]; rewrite HScan;
    (destruct (decide (pending sc = [])) as [Hp | Hne];
     [ rewrite Hp in *; cbn [Scan_post fst snd] in Hpost;
       destruct Hpost as [-> HErr]; exists sc'; cbn; now rewrite app_nil_r |]).
  - destruct (pending sc); [congruence | cbn in Hn; lia].
  - rewrite raw_lines_head by assumption. cbn [scan_lines].
    assert (Hpost' :
              if MaxScanTokenSize <=? blen (head_line (pending sc))
              then found = false /\ Err sc' = Some ErrTooLong
              else found = true
                   /\ token sc' = Some (dropCR (head_line (pending sc)))
                   /\ pending sc' = after_line (pending sc)
                   /\ Inv sc')
      by (destruct (pending sc); [congruence | exact Hpost]).
    clear Hpost.
    destruct (MaxScanTokenSize <=? blen (head_line (pending sc))).
    + destruct Hpost' as [-> HErr].
      exists sc'. cbn [fst snd]. now rewrite app_nil_r.
    + destruct Hpost' as (-> & Htok & Hpend & HInv').
      assert (HText : Text sc' = line_text (head_line (pending sc)))
        by (unfold Text, line_text; now rewrite Htok).
      rewrite HText.
      pose proof (after_line_shorter (pending sc) Hne) as Hshort.
      destruct (IH sc' fuel
                  (if String.eqb (line_text (head_line (pending sc))) ""
                   then lines else lines ++ [line_text (head_line (pending sc))]))
        as (sc'' & Hfor & HErr); [rewrite Hpend; lia | assumption | lia |].
      exists sc''. rewrite Hfor, HErr, Hpend.
      destruct (scan_lines (raw_lines (after_line (pending sc)))) as [ls e].
      cbn [fst snd]. split; [| reflexivity].
      destruct (String.eqb (line_text (head_line (pending sc))) "");
        [reflexivity | now rewrite <- app_assoc].
Qed.

End ScanProofs.

(** The loop of [splitToLines] ends within the calls of [Scan] it is given. *)
Lemma splitToLines_total (input : string) :
  exists lines sc,
    splitToLines_for (S (String.length input)) (bufio.NewScanner input) []
    = Some (lines, sc).
Proof.
  destruct (ScanProofs.splitToLines_for_spec (String.length input)
              (bufio.NewScanner input) (S (String.length input)) [])
    as (sc' & Hfor & _).
  - unfold Scanning.pending. cbn [bufio.NewScanner bufio.data bufio.rd app].
    rewrite length_bytes_of. lia.
  - apply ScanProofs.Inv_NewScanner.
  - lia.
  - eauto.
Qed.

(** [splitToLines] is a scan by lines: it returns, with the lines that are
    not empty, in order, up to the first line of [MaxScanTokenSize] bytes
    or more, where it stops with [ErrTooLong]. *)
Lemma splitToLines_refines (input : string) :
  splitToLines input = splitToLines_spec input.
Proof.
  unfold splitToLines, splitToLines_spec.
  destruct (ScanProofs.splitToLines_for_spec (String.length input)
              (bufio.NewScanner input) (S (String.length input)) [])
    as (sc' & Hfor & HErr).
  - unfold Scanning.pending. cbn [bufio.NewScanner bufio.data bufio.rd app].
    rewrite length_bytes_of. lia.
  - apply ScanProofs.Inv_NewScanner.
  - lia.
  - rewrite Hfor, HErr. unfold Scanning.pending. cbn [bufio.NewScanner bufio.data bufio.rd].
    cbn [app]. now destruct (scan_lines (raw_lines (bytes_of input))).
Qed.

(** ** A scan by lines, line by line *)

Lemma scan_lines_error (ls : list (list ascii)) :
  snd (scan_lines ls) = None \/ snd (scan_lines ls) = Some bufio.ErrTooLong.
Proof.
  induction ls as [|l ls IH]; [now left |].
  cbn [scan_lines]. destruct (bufio.MaxScanTokenSize <=? blen l); [now right |].
  now destruct (scan_lines ls).
Qed.

Lemma scan_lines_ok (ls : list (list ascii)) :
  Forall (fun l => blen l < bufio.MaxScanTokenSize) ls ->
  scan_lines ls
  = (List.filter (fun t => negb (String.eqb t "")) (map line_text ls), None).
Proof.
  induction ls as [|l ls IH]; [reflexivity |].
  intros Hall. apply Forall_cons_1 in Hall as [Hl Hls].
  cbn [scan_lines map List.filter]. rewrite IH by assumption.
  destruct (Z.leb_spec bufio.MaxScanTokenSize (blen l)); [lia |].
  now destruct (String.eqb (line_text l) "").
Qed.

Lemma scan_lines_long (ls : list (list ascii)) :
  Exists (fun l => bufio.MaxScanTokenSize <= blen l) ls ->
  snd (scan_lines ls) = Some bufio.ErrTooLong.
Proof.
  induction ls as [|l ls IH]; intros Hex; [now apply Exists_nil in Hex |].
  cbn [scan_lines].
  destruct (Z.leb_spec bufio.MaxScanTokenSize (blen l)); [reflexivity |].
  apply Exists_cons in Hex as [Hl | Hls]; [lia |].
  specialize (IH Hls). now destruct (scan_lines ls).
Qed.

Lemma scan_lines_all (ls : list (list ascii)) :
  snd (scan_lines ls) = None ->
  fst (scan_lines ls) = List.filter (fun t => negb (String.eqb t "")) (map line_text ls).
Proof.
  induction ls as [|l ls IH]; [reflexivity |].
  cbn [scan_lines map List.filter].
  destruct (bufio.MaxScanTokenSize <=? blen l); [discriminate |].
  destruct (scan_lines ls) as [lines e]. cbn [fst snd] in *.
  intros He. rewrite <- (IH He).
  now destruct (String.eqb (line_text l) "").
Qed.

(** ** Answers *)

Lemma Error_Code (w : http.ResponseWriter) (msg : string) (code : Z) :
  http.wroteHeader w = false -> http.Code (http.Error w msg code) = code.
Proof.
  intros Hw. unfold http.Error, http.Write, http.WriteHeader. rewrite Hw. cbn.
  now destruct (http.writeErr w).
Qed.

Lemma Write_Code (w : http.ResponseWriter) (buf : string) :
  http.wroteHeader w = false -> http.Code (fst (http.Write w buf)) = http.StatusOK.
Proof.
  intros Hw. unfold http.Write, http.WriteHeader. rewrite Hw. cbn.
  now destruct (http.writeErr w).
Qed.

Lemma Write_ok (w : http.ResponseWriter) (buf : string) :
  http.wroteHeader w = false -> http.writeErr w = None ->
  http.Write w buf = (http.mkWriter http.StatusOK true (http.Written w +:+ buf) None, None).
Proof.
  intros Hw He. unfold http.Write, http.WriteHeader. rewrite Hw. cbn. now rewrite He.
Qed.

(** After a first [Write] the status stays: a later [http.Error] cannot
    change it. *)
Lemma Error_after_Write (w : http.ResponseWriter) (buf msg : string) (code : Z) :
  http.Code (http.Error (fst (http.Write w buf)) msg code)
  = http.Code (fst (http.Write w buf)).
Proof.
  unfold http.Error, http.Write, http.WriteHeader.
  destruct (http.wroteHeader w) eqn:Hw; cbn; rewrite ?Hw;
    destruct (http.writeErr w) eqn:He; cbn; rewrite ?Hw, ?He; reflexivity.
Qed.

(** ** The fan-out of [getRespSizes] *)

Section Fanout.

Variable h : ResponseSizeCounter.

Lemma task_sizes (url : string) (single : option string) (st : fanout) :
  f_sizes (task h url single st) = resSizes_Add (f_sizes st) (fst (doGet h url)).
Proof.
  unfold task. destruct (doGet h url) as [size [e|]]; [| reflexivity].
  now destruct (f_once st).
Qed.

(** The scheduler picks a pending goroutine. *)
Lemma pick_pending (sched : Sched) (pending : list string) :
  pending <> [] ->
  exists url, pending !! (hd 0%nat sched `mod` length pending)%nat = Some url.
Proof.
  intros Hne. apply lookup_lt_is_Some_2. apply Nat.mod_upper_bound.
  destruct pending; [congruence | discriminate].
Qed.

(** The sizes are added in some order of the URLs, one for each. *)
Lemma run_tasks_sizes (n : nat) :
  forall (sched : Sched) (pending : list string) (err : option string) (st : fanout),
    length pending = n ->
    exists order,
      order ≡ₚ pending
      /\ s (f_sizes (run_tasks h n sched pending err st))
         = s (f_sizes st) ++ map (fun u => fst (doGet h u)) order.
Proof.
  induction n as [|n IH]; intros sched pending err st Hlen.
  - exists []. destruct pending; [| discriminate].
    split; [reflexivity |]. cbn. now rewrite app_nil_r.
  - cbn [run_tasks].
    destruct (pick_pending sched pending) as [url Hurl];
      [destruct pending; [discriminate | congruence] |].
    rewrite Hurl.
    destruct (IH (tl sched) (delete (hd 0%nat sched `mod` length pending)%nat pending)
                err (task h url err st)) as (order & Hperm & Hs).
    { rewrite length_delete by eauto. lia. }
    exists (url :: order). split.
    + rewrite Hperm. symmetry. now apply delete_Permutation.
    + rewrite Hs, task_sizes. cbn. now rewrite <- app_assoc.
Qed.

(** What a goroutine noted in its own [single] stays noted. *)
Lemma run_tasks_singles (n : nat) :
  forall (sched : Sched) (pending : list string) (err : option string) (st : fanout)
         (x : option string),
    In x (f_singles st) -> In x (f_singles (run_tasks h n sched pending err st)).
Proof.
  induction n as [|n IH]; intros sched pending err st x Hx; [exact Hx |].
  cbn [run_tasks].
  destruct (pending !! _) as [url|]; [| exact Hx].
  apply IH. unfold task. destruct (doGet h url) as [size [e|]].
  - destruct (f_once st); cbn; apply in_or_app; now left.
  - cbn. apply in_or_app. now left.
Qed.

(** The first goroutine whose fetch fails notes the error in its own
    [single]. *)
Lemma run_tasks_captures (n : nat) :
  forall (sched : Sched) (pending : list string) (st : fanout),
    length pending = n ->
    f_once st = false ->
    Exists (fun u => snd (doGet h u) <> None) pending ->
    exists e, In (Some e) (f_singles (run_tasks h n sched pending None st)).
Proof.
  induction n as [|n IH]; intros sched pending st Hlen Honce Hex.
  - destruct pending; [now apply Exists_nil in Hex | discriminate].
  - cbn [run_tasks].
    destruct (pick_pending sched pending) as [url Hurl];
      [destruct pending; [discriminate | congruence] |].
    rewrite Hurl.
    destruct (snd (doGet h url)) as [e|] eqn:Hget.
    + exists e. apply run_tasks_singles. unfold task.
      destruct (doGet h url) as [size e']. cbn in Hget. subst e'.
      rewrite Honce. cbn. apply in_or_app. right. now left.
    + apply IH.
      * rewrite length_delete by eauto. lia.
      * unfold task. destruct (doGet h url) as [size e']. cbn in Hget. now subst e'.
      * apply (delete_Permutation _ _ _) in Hurl as Hperm.
        rewrite Hperm in Hex. apply Exists_cons in Hex as [Hbad | Hrest]; [| exact Hrest].
        congruence.
Qed.

(** [getRespSizes] returns nil, whatever the fetches did. *)
Lemma getRespSizes_nil (sched : Sched) : snd (getRespSizes h sched) = None.
Proof. reflexivity. Qed.

Lemma getRespSizes_urls (sched : Sched) :
  urls (fst (getRespSizes h sched)) = urls h
  /\ client (fst (getRespSizes h sched)) = client h.
Proof. now split. Qed.

Lemma getRespSizes_sizes (sched : Sched) :
  exists order,
    order ≡ₚ urls h
    /\ s (sizes (fst (getRespSizes h sched))) = map (fun u => fst (doGet h u)) order.
Proof.
  unfold getRespSizes, getRespSizes_fanout. cbn [fst sizes].
  destruct (run_tasks_sizes (length (urls h)) sched (urls h) None
              (mkFanout (mkResSizes []) false []) eq_refl) as (order & Hperm & Hs).
  exists order. split; [exact Hperm | exact Hs].
Qed.

End Fanout.

(** ** [getUrls] and [serve] *)

Section HandlerProofs.

Variable url_Parse : string -> option net_url.URL.

#[local] Abbreviation isUrl' := (isUrl url_Parse).
#[local] Abbreviation getUrls' := (getUrls url_Parse).
#[local] Abbreviation serve' := (serve url_Parse).

Lemma isUrl_iff (line : string) :
  isUrl' line = true
  <-> exists u, url_Parse line = Some u
                /\ net_url.Scheme u <> "" /\ net_url.Host u <> "".
Proof.
  unfold isUrl. destruct (url_Parse line) as [u|].
  - rewrite andb_true_iff, !negb_true_iff, !String.eqb_neq. split.
    + intros [Hs Hh]. now exists u.
    + intros (u' & [= <-] & Hs & Hh). now split.
  - split; [discriminate | now intros (u & Hu & _)].
Qed.

(** The loop of [getUrls] stops at the first line that is no URL. *)
Lemma getUrls_range_ok (lines : list string) :
  forall h : ResponseSizeCounter,
    Forall (fun l => isUrl' l = true) lines ->
    getUrls_range url_Parse lines h = (mkRSC (urls h ++ lines) (sizes h) (client h), None).
Proof.
  induction lines as [|line lines IH]; intros h Hall.
  - cbn. rewrite app_nil_r. now destruct h.
  - apply Forall_cons_1 in Hall as [Hl Hls]. cbn [getUrls_range].
    rewrite Hl, IH by assumption. cbn [urls sizes client].
    now rewrite <- app_assoc.
Qed.

Lemma getUrls_range_bad (pre : list string) (line : string) (post : list string) :
  forall h : ResponseSizeCounter,
    Forall (fun l => isUrl' l = true) pre -> isUrl' line = false ->
    getUrls_range url_Parse (pre ++ line :: post) h
    = (mkRSC (urls h ++ pre) (sizes h) (client h),
       Some ("'" +:+ line +:+ "' is not a URL")).
Proof.
  induction pre as [|l pre IH]; intros h Hall Hbad.
  - cbn [app getUrls_range]. rewrite Hbad, app_nil_r. now destruct h.
  - apply Forall_cons_1 in Hall as [Hl Hls]. cbn [app getUrls_range].
    rewrite Hl, IH by assumption. cbn [urls sizes client].
    now rewrite <- app_assoc.
Qed.

(** A list with a line that is no URL has a first such line. *)
Lemma first_bad_line (lines : list string) (line : string) :
  In line lines -> isUrl' line = false ->
  exists pre bad post,
    lines = pre ++ bad :: post
    /\ Forall (fun l => isUrl' l = true) pre /\ isUrl' bad = false.
Proof.
  induction lines as [|l lines IH]; intros Hin Hbad; [destruct Hin |].
  destruct (isUrl' l) eqn:Hl.
  - destruct Hin as [-> | Hin]; [congruence |].
    destruct (IH Hin Hbad) as (pre & bad & post & -> & Hpre & Hb).
    exists (l :: pre), bad, post. repeat split; auto.
  - exists [], l, lines. repeat split; auto.
Qed.

(** What [getUrls] returns for a body that was read. *)
Lemma getUrls_read (h : ResponseSizeCounter) (req : http.Request) :
  failure (http.Body req) = None ->
  getUrls' h req
  = match splitToLines_spec (content (http.Body req)) with
    | (_, Some e) =>
        (h, Some ("split request body to lines: " +:+ bufio.error_string e))
    | (lines, None) => getUrls_range url_Parse lines (mkRSC [] (sizes h) (client h))
    end.
Proof.
  intros Hread. unfold getUrls, ReadAll. rewrite Hread.
  now rewrite splitToLines_refines.
Qed.

(** [serve] after a failure of [getUrls]: the error is the answer, and
    no fetch is started. *)
Lemma serve_getUrls_error (h h1 : ResponseSizeCounter) (sched : Sched)
    (w : http.ResponseWriter) (req : http.Request) (e : string) :
  getUrls' h req = (h1, Some e) ->
  serve' h sched w req
  = (h1, http.Error w ("get urls: " +:+ e) http.StatusInternalServerError).
Proof. intros Hget. unfold serve. now rewrite Hget. Qed.

(** [serve] after [getUrls]: the sizes are written, with status 200. *)
Lemma serve_getUrls_ok (h h1 : ResponseSizeCounter) (sched : Sched)
    (w : http.ResponseWriter) (req : http.Request) :
  getUrls' h req = (h1, None) ->
  fst (serve' h sched w req) = fst (getRespSizes h1 sched)
  /\ (http.wroteHeader w = false ->
      http.Code (snd (serve' h sched w req)) = http.StatusOK)
  /\ (http.wroteHeader w = false -> http.writeErr w = None ->
      snd (serve' h sched w req)
      = http.mkWriter http.StatusOK true
          (http.Written w +:+ resSizes_String (sizes (fst (getRespSizes h1 sched))))
          None).
Proof.
  intros Hget. unfold serve. rewrite Hget.
  destruct (getRespSizes h1 sched) as [h2 e] eqn:Hsizes.
  assert (He : e = None) by (now rewrite <- (getRespSizes_nil h1 sched), Hsizes).
  subst e. cbn [fst].
  destruct (http.Write w (resSizes_String (sizes h2))) as [w' [e|]] eqn:Hw.
  - cbn [fst snd]. split; [reflexivity |]. split.
    + intros Hfresh. replace w' with (fst (http.Write w (resSizes_String (sizes h2))))
        by now rewrite Hw.
      rewrite Error_after_Write. now apply Write_Code.
    + intros Hfresh Hnone. rewrite Write_ok in Hw by assumption. discriminate.
  - cbn [fst snd]. split; [reflexivity |]. split.
    + intros Hfresh. replace w' with (fst (http.Write w (resSizes_String (sizes h2))))
        by now rewrite Hw.
      now apply Write_Code.
    + intros Hfresh Hnone. rewrite Write_ok in Hw by assumption. congruence.
Qed.

(** [getUrls] fails on a body with a line that is no URL, whatever else
    the body holds. *)
Lemma getUrls_bad_line (h : ResponseSizeCounter) (req : http.Request) (line : string) :
  In line (text_lines (content (http.Body req))) -> isUrl' line = false ->
  exists e, snd (getUrls' h req) = Some e.
Proof.
  intros Hin Hbad.
  destruct (failure (http.Body req)) as [e|] eqn:Hread.
  - unfold getUrls, ReadAll. rewrite Hread. now eexists.
  - rewrite getUrls_read by assumption. unfold splitToLines_spec.
    pose proof (scan_lines_all (raw_lines (bytes_of (content (http.Body req))))) as Hall.
    destruct (scan_lines _) as [lines [e|]]; [now eexists |].
    cbn [fst snd] in Hall. rewrite (Hall eq_refl). fold (text_lines (content (http.Body req))).
    destruct (first_bad_line _ _ Hin Hbad) as (pre & bad & post & -> & Hpre & Hb).
    rewrite getUrls_range_bad by assumption. now eexists.
Qed.

(** C1.  A fetch that fails notes its error in the goroutine's own copy
    [single] only: [getRespSizes] returns nil all the same, and the
    handler writes the rendered sizes with status 200. *)
Theorem fetch_error_not_surfaced (h h1 : ResponseSizeCounter) (sched : Sched)
    (w : http.ResponseWriter) (req : http.Request) :
  getUrls' h req = (h1, None) ->
  urls h1 <> [] ->
  Exists (fun u => snd (doGet h1 u) <> None) (urls h1) ->
  http.wroteHeader w = false ->
  snd (getRespSizes h1 sched) = None
  /\ (exists e, In (Some e) (f_singles (fst (getRespSizes_fanout h1 sched))))
  /\ http.Code (snd (serve' h sched w req)) = http.StatusOK
  /\ (http.writeErr w = None ->
      http.Written (snd (serve' h sched w req))
      = http.Written w +:+ resSizes_String (sizes (fst (getRespSizes h1 sched)))).
Proof.
  intros Hget Hne Hfail Hfresh.
  destruct (serve_getUrls_ok h h1 sched w req Hget) as (_ & Hcode & Hbody).
  repeat split.
  - unfold getRespSizes_fanout. cbn [fst].
    now apply run_tasks_captures.
  - now apply Hcode.
  - intros Hnone. now rewrite Hbody.
Qed.

(** C2, as amended.  Every URL of the request adds one size, whether its
    fetch succeeded or not (0 when the request itself failed), so the
    response has one line for each URL. *)
Theorem one_size_per_url (h h1 : ResponseSizeCounter) (sched : Sched)
    (w : http.ResponseWriter) (req : http.Request) :
  getUrls' h req = (h1, None) ->
  http.wroteHeader w = false ->
  http.writeErr w = None ->
  exists order,
    order ≡ₚ urls h1
    /\ s (sizes (fst (serve' h sched w req))) = map (fun u => fst (doGet h1 u)) order
    /\ http.Written (snd (serve' h sched w req))
       = http.Written w
         +:+ join_lines (map strconv.Itoa (map (fun u => fst (doGet h1 u)) order))
    /\ length (map strconv.Itoa (map (fun u => fst (doGet h1 u)) order))
       = length (urls h1)
    /\ (forall u e, client h1 u = inr e -> fst (doGet h1 u) = 0).
Proof.
  intros Hget Hfresh Hnone.
  destruct (serve_getUrls_ok h h1 sched w req Hget) as (Hh & _ & Hbody).
  destruct (getRespSizes_sizes h1 sched) as (order & Hperm & Hs).
  exists order. rewrite Hh, Hbody, resSizes_String_join, Hs by assumption.
  repeat split; try assumption.
  - rewrite !length_map. now rewrite Hperm.
  - intros u e Hu. unfold doGet. now rewrite Hu.
Qed.

(** On a writer whose header is not out yet the handler answers 200, 405
    or 500. *)
Lemma RSC_ServeHTTP_Code (h : ResponseSizeCounter) (sched : Sched)
    (w : http.ResponseWriter) (req : http.Request) :
  http.wroteHeader w = false ->
  http.Code (snd (RSC_ServeHTTP url_Parse h sched w req)) = http.StatusOK
  \/ http.Code (snd (RSC_ServeHTTP url_Parse h sched w req)) = http.StatusMethodNotAllowed
  \/ http.Code (snd (RSC_ServeHTTP url_Parse h sched w req))
     = http.StatusInternalServerError.
Proof.
  intros Hfresh. unfold RSC_ServeHTTP.
  destruct (String.eqb (http.Method req) http.MethodPost).
  - destruct (getUrls' h req) as [h1 [e|]] eqn:Hget.
    + right. right. rewrite (serve_getUrls_error _ _ _ _ _ _ Hget). cbn [snd].
      now apply Error_Code.
    + left. destruct (serve_getUrls_ok h h1 sched w req Hget) as (_ & Hcode & _).
      now apply Hcode.
  - right. left. cbn [snd]. now apply Error_Code.
Qed.

(** Behind the limiter the status is 400 exactly when the peer address
    gives no key. *)
Lemma Service_400_iff (rl : RateLimiter StatHolder ResponseSizeCounter)
    (sched : Sched) (w : http.ResponseWriter) (req : http.Request) :
  http.wroteHeader w = false ->
  http.Code (snd (Service_ServeHTTP url_Parse rl sched w req)) = http.StatusBadRequest
  <-> exists e, requestIP req = inr e.
Proof.
  intros Hfresh. unfold Service_ServeHTTP, RateLimiter_ServeHTTP.
  destruct (requestIP req) as [k|e].
  - rewrite Increment_eq.
    assert (Hno : ~ exists e : string, @inl string string k = inr e)
      by (intros [e He]; discriminate).
    destruct (limit rl <? _).
    + cbn [snd]. rewrite Error_Code by exact Hfresh.
      split; [discriminate | tauto].
    + unfold ServeHTTP, RSC_Handler.
      pose proof (RSC_ServeHTTP_Code (next rl) sched w req Hfresh) as Hcode.
      destruct (RSC_ServeHTTP url_Parse (next rl) sched w req) as [h1 w1].
      cbn [snd] in *.
      split; [| tauto].
      intros H400. rewrite H400 in Hcode.
      destruct Hcode as [Hc | [Hc | Hc]]; discriminate.
  - cbn [snd]. rewrite Error_Code by exact Hfresh.
    split; [intros _; now exists e | reflexivity].
Qed.

(** C3, as amended.  A POST whose body has a line that is no URL is
    answered 500 by the handler, the status it gives to every failure of
    [getUrls], and not 400; behind the limiter the answer is the same 500
    when the limiter lets the request pass.  The status 400 comes from
    the middleware alone, and exactly for a peer address that gives no
    key: whatever the request, the handler [MakeResponseSizeCounter]
    makes answers 400 if and only if [requestIP] fails. *)
Theorem invalid_url_answered_500 (h : ResponseSizeCounter) (sched : Sched)
    (w : http.ResponseWriter) (req : http.Request) (line : string) :
  http.Method req = http.MethodPost ->
  http.wroteHeader w = false ->
  In line (text_lines (content (http.Body req))) ->
  isUrl' line = false ->
  http.Code (snd (RSC_ServeHTTP url_Parse h sched w req))
  = http.StatusInternalServerError
  /\ http.Code (snd (RSC_ServeHTTP url_Parse h sched w req)) <> http.StatusBadRequest
  /\ (forall (rl : RateLimiter StatHolder ResponseSizeCounter) (k : string),
        requestIP req = inl k ->
        int32 (index (counter (stat rl)) k + 1) <= limit rl ->
        http.Code (snd (Service_ServeHTTP url_Parse rl sched w req))
        = http.StatusInternalServerError)
  /\ (forall (rl : RateLimiter StatHolder ResponseSizeCounter) (sched' : Sched)
             (w' : http.ResponseWriter) (req' : http.Request),
        http.wroteHeader w' = false ->
        (http.Code (snd (Service_ServeHTTP url_Parse rl sched' w' req'))
         = http.StatusBadRequest
         <-> exists e, requestIP req' = inr e)).
Proof.
  intros Hpost Hfresh Hin Hbad.
  assert (H500 : forall h0 : ResponseSizeCounter,
             http.Code (snd (RSC_ServeHTTP url_Parse h0 sched w req))
             = http.StatusInternalServerError).
  { intros h0. unfold RSC_ServeHTTP. rewrite Hpost. cbn [String.eqb].
    change (http.MethodPost =? http.MethodPost)%string with true. cbv iota.
    destruct (getUrls_bad_line h0 req line Hin Hbad) as [e He].
    destruct (getUrls' h0 req) as [h1 e'] eqn:Hget. cbn [snd] in He. subst e'.
    rewrite (serve_getUrls_error _ _ _ _ _ _ Hget). cbn [snd].
    now apply Error_Code. }
  split; [apply H500 |]. split; [rewrite H500; discriminate |]. split.
  - intros rl k Hk Hlim. unfold Service_ServeHTTP.
    change (@RateLimiter_ServeHTTP StatHolder ResponseSizeCounter StatHolder_Stat
              (RSC_Handler url_Parse) rl sched w req)
      with (@ServeHTTP _ (@RateLimiter_Handler _ _ StatHolder_Stat (RSC_Handler url_Parse))
              rl sched w req).
    rewrite (@under_limit _ (RSC_Handler url_Parse) rl k sched w req Hk Hlim).
    cbn [snd]. apply (H500 (next rl)).
  - intros rl sched' w' req' Hfresh'. now apply Service_400_iff.
Qed.

(** C5, as amended.  For a body that was read and whose lines are all
    shorter than [MaxScanTokenSize]: [splitToLines] yields the lines that
    are not empty, a line is accepted exactly when it parses with a scheme
    and a host, and [getUrls] takes all lines or none: at the first line
    that is no URL it fails with an error that quotes the line, and
    [serve] answers with that error without a fetch. *)
Theorem getUrls_all_or_nothing (h : ResponseSizeCounter) (req : http.Request)
    (body : string) :
  http.Body req = mkBody body None ->
  scannable body ->
  splitToLines body = (text_lines body, None)
  /\ (forall line,
        isUrl' line = true
        <-> exists u, url_Parse line = Some u
                      /\ net_url.Scheme u <> "" /\ net_url.Host u <> "")
  /\ (Forall (fun l => isUrl' l = true) (text_lines body) ->
      getUrls' h req = (mkRSC (text_lines body) (sizes h) (client h), None))
  /\ (forall pre line post,
        text_lines body = pre ++ line :: post ->
        Forall (fun l => isUrl' l = true) pre ->
        isUrl' line = false ->
        snd (getUrls' h req) = Some ("'" +:+ line +:+ "' is not a URL")
        /\ forall sched w,
             sizes (fst (serve' h sched w req)) = sizes h
             /\ snd (serve' h sched w req)
                = http.Error w ("get urls: " +:+ "'" +:+ line +:+ "' is not a URL")
                    http.StatusInternalServerError).
Proof.
  intros Hbody Hscan.
  assert (Hsplit : splitToLines_spec body = (text_lines body, None))
    by (unfold splitToLines_spec; now rewrite scan_lines_ok).
  assert (Hget : getUrls' h req
                 = getUrls_range url_Parse (text_lines body) (mkRSC [] (sizes h) (client h))).
  { rewrite getUrls_read by now rewrite Hbody. rewrite Hbody. cbn [content].
    now rewrite Hsplit. }
  split; [now rewrite splitToLines_refines |].
  split; [intros line; apply isUrl_iff |].
  split; [intros Hall; rewrite Hget; now rewrite getUrls_range_ok |].
  intros pre line post Hlines Hpre Hbad.
  assert (Hfail : getUrls' h req
                  = (mkRSC pre (sizes h) (client h),
                     Some ("'" +:+ line +:+ "' is not a URL")))
    by (rewrite Hget, Hlines; now rewrite getUrls_range_bad).
  split; [now rewrite Hfail |].
  intros sched w. now rewrite (serve_getUrls_error _ _ _ _ _ _ Hfail).
Qed.

(** C10.  A body with a line longer than [MaxScanTokenSize] bytes makes
    [splitToLines] return [ErrTooLong], and the request is answered 500. *)
Theorem long_line_rejected (h : ResponseSizeCounter) (sched : Sched)
    (w : http.ResponseWriter) (req : http.Request) :
  http.Method req = http.MethodPost ->
  http.wroteHeader w = false ->
  Exists (fun l => bufio.MaxScanTokenSize < blen l)
    (raw_lines (bytes_of (content (http.Body req)))) ->
  snd (splitToLines (content (http.Body req))) = Some bufio.ErrTooLong
  /\ http.Code (snd (RSC_ServeHTTP url_Parse h sched w req))
     = http.StatusInternalServerError.
Proof.
  intros Hpost Hfresh Hlong.
  assert (Herr : snd (splitToLines_spec (content (http.Body req)))
                 = Some bufio.ErrTooLong).
  { apply scan_lines_long. eapply Exists_impl; [exact Hlong |]. cbn. intros l Hl. lia. }
  split; [now rewrite splitToLines_refines |].
  unfold RSC_ServeHTTP. rewrite Hpost.
  change (http.MethodPost =? http.MethodPost)%string with true. cbv iota.
  assert (Hget : exists h1 e, getUrls' h req = (h1, Some e)).
  { destruct (failure (http.Body req)) as [e|] eqn:Hread.
    - unfold getUrls, ReadAll. rewrite Hread. now eexists _, _.
    - rewrite getUrls_read by assumption.
      destruct (splitToLines_spec _) as [lines e]. cbn [snd] in Herr. subst e.
      now eexists _, _. }
  destruct Hget as (h1 & e & Hget).
  rewrite (serve_getUrls_error _ _ _ _ _ _ Hget). cbn [snd].
  now apply Error_Code.
Qed.

End HandlerProofs.

(** ** The properties on the inputs of the tests *)

Example isUrl_samples :
  map (isUrl net_url.Parse)
    ["https://test-1.com"; "http://test-2.com"; "test-1.xyz"; "mailto:a@b.c";
     "//host/path"; "http:///path"; "http://[::1]:8080/"; "http://host:port/"]
  = [true; true; false; false; false; false; true; false].
Proof. vm_compute. reflexivity. Qed.

(** The test [happyPath], against a client that gets ten bytes. *)
Example happyPath :
  snd (RSC_ServeHTTP net_url.Parse (counter_with flaky) [] http.NewRecorder
         (post ("https://test-1.com" +:+ nl +:+ "https://test-3.com")))
  = http.mkWriter 200 true ("10" +:+ nl +:+ "10") None.
Proof. vm_compute. reflexivity. Qed.

(** The test [wrongMethod]. *)
Example wrongMethod :
  http.Code (snd (RSC_ServeHTTP net_url.Parse (counter_with flaky) [] http.NewRecorder
                    (rq "127.0.0.1:80")))
  = http.StatusMethodNotAllowed.
Proof. vm_compute. reflexivity. Qed.

Lemma getUrls_three_urls :
  getUrls net_url.Parse (counter_with flaky) (post three_urls)
  = (mkRSC ["https://test-1.com"; "http://test-2.com"; "https://test-3.com"]
       (mkResSizes []) flaky, None).
Proof. vm_compute. reflexivity. Qed.

(** C1 on the three URLs of the test, the second of which cannot be
    fetched. *)
Lemma fetch_error_not_surfaced_witness :
  snd (getRespSizes
         (mkRSC ["https://test-1.com"; "http://test-2.com"; "https://test-3.com"]
            (mkResSizes []) flaky) [])
  = None
  /\ http.Code (snd (serve net_url.Parse (counter_with flaky) [] http.NewRecorder
                       (post three_urls)))
     = http.StatusOK.
Proof.
  pose proof (fetch_error_not_surfaced net_url.Parse (counter_with flaky) _ []
                http.NewRecorder (post three_urls) getUrls_three_urls
                ltac:(discriminate)
                ltac:(apply Exists_cons_tl, Exists_cons_hd; vm_compute; discriminate)
                eq_refl)
    as (Hnil & _ & Hcode & _).
  split; [exact Hnil | exact Hcode].
Defined.

(** C2 as stated fails on the three URLs of the test when the second
    cannot be fetched: N = 3, F = 1, and the response has three lines, the
    failed fetch showing as 0. *)
Lemma failed_fetch_adds_a_line :
  length (urls (fst (serve net_url.Parse (counter_with flaky) [] http.NewRecorder
                       (post three_urls)))) = 3%nat
  /\ length (List.filter (failed (counter_with flaky))
               ["https://test-1.com"; "http://test-2.com"; "https://test-3.com"]) = 1%nat
  /\ split_nl (http.Written (snd (serve net_url.Parse (counter_with flaky) []
                                    http.NewRecorder (post three_urls))))
     = ["10"; "0"; "10"]
  /\ length (split_nl (http.Written (snd (serve net_url.Parse (counter_with flaky) []
                                            http.NewRecorder (post three_urls)))))
     <> (3 - 1)%nat.
Proof. vm_compute. repeat split; discriminate. Qed.

(** The amended C2 on the same request. *)
Lemma one_size_per_url_witness :
  exists order,
    order ≡ₚ ["https://test-1.com"; "http://test-2.com"; "https://test-3.com"]
    /\ http.Written (snd (serve net_url.Parse (counter_with flaky) [] http.NewRecorder
                            (post three_urls)))
       = join_lines (map strconv.Itoa
                       (map (fun u => fst (doGet (counter_with flaky) u)) order)).
Proof.
  destruct (one_size_per_url net_url.Parse (counter_with flaky) _ []
              http.NewRecorder (post three_urls) getUrls_three_urls eq_refl eq_refl)
    as (order & Hperm & _ & Hbody & _).
  exists order. split; [exact Hperm | exact Hbody].
Defined.

(** C3 as stated fails on the body of the test [wrongInput]: its first
    line is no URL, and the answer is 500, as the test demands, not 400. *)
Lemma invalid_url_not_400 :
  In "test-1.xyz" (text_lines no_urls)
  /\ isUrl net_url.Parse "test-1.xyz" = false
  /\ http.Code (snd (RSC_ServeHTTP net_url.Parse (counter_with flaky) [] http.NewRecorder
                       (post no_urls)))
     = http.StatusInternalServerError
  /\ http.Code (snd (RSC_ServeHTTP net_url.Parse (counter_with flaky) [] http.NewRecorder
                       (post no_urls)))
     <> http.StatusBadRequest.
Proof. vm_compute. repeat split; (discriminate || (left; reflexivity)). Qed.

(** The amended C3 on the same request. *)
Lemma invalid_url_answered_500_witness :
  http.Code (snd (RSC_ServeHTTP net_url.Parse (counter_with flaky) [] http.NewRecorder
                    (post no_urls)))
  = http.StatusInternalServerError.
Proof.
  refine (proj1 (invalid_url_answered_500 net_url.Parse (counter_with flaky) []
                   http.NewRecorder (post no_urls) "test-1.xyz" eq_refl eq_refl _ _)).
  - vm_compute. left. reflexivity.
  - vm_compute. reflexivity.
Defined.

(** C5 as stated fails on a body with the line [x], which is no URL,
    before a line of 65536 bytes: the request fails, but with the error of
    the scanner, which does not quote [x]. *)
Lemma long_line_hides_invalid_line :
  hd_error (text_lines masked_line) = Some "x"
  /\ isUrl net_url.Parse "x" = false
  /\ snd (getUrls net_url.Parse (counter_with flaky) (post masked_line))
     = Some "split request body to lines: bufio.Scanner: token too long".
Proof.
  split; [vm_compute; reflexivity |].
  split; vm_compute; reflexivity.
Qed.

Lemma text_lines_three_urls :
  text_lines three_urls = ["https://test-1.com"; "http://test-2.com"; "https://test-3.com"].
Proof. vm_compute. reflexivity. Qed.

Lemma text_lines_no_urls :
  text_lines no_urls = ["test-1.xyz"; "test-2.123"; "test-3.abc"].
Proof. vm_compute. reflexivity. Qed.

(** A body is scannable when the test of its lines computes to true. *)
Lemma scannable_by_computation (body : string) :
  forallb (fun l => blen l <? bufio.MaxScanTokenSize) (raw_lines (bytes_of body)) = true ->
  scannable body.
Proof.
  intros Hall. apply List.Forall_forall. intros l Hl.
  apply Z.ltb_lt. revert l Hl. now apply forallb_forall.
Qed.

(** The amended C5 on the bodies of the tests. *)
Lemma getUrls_all_or_nothing_witness :
  getUrls net_url.Parse (counter_with flaky) (post three_urls)
  = (mkRSC (text_lines three_urls) (mkResSizes []) flaky, None)
  /\ snd (getUrls net_url.Parse (counter_with flaky) (post no_urls))
     = Some "'test-1.xyz' is not a URL".
Proof.
  split.
  - destruct (getUrls_all_or_nothing net_url.Parse (counter_with flaky)
                (post three_urls) three_urls eq_refl) as (_ & _ & Hall & _).
    + apply scannable_by_computation. vm_compute. reflexivity.
    + apply Hall. rewrite text_lines_three_urls.
      repeat (apply List.Forall_cons; [vm_compute; reflexivity |]). apply List.Forall_nil.
  - destruct (getUrls_all_or_nothing net_url.Parse (counter_with flaky)
                (post no_urls) no_urls eq_refl) as (_ & _ & _ & Hbad).
    + apply scannable_by_computation. vm_compute. reflexivity.
    + apply (Hbad [] "test-1.xyz" ["test-2.123"; "test-3.abc"]).
      * exact text_lines_no_urls.
      * apply List.Forall_nil.
      * vm_compute. reflexivity.
Defined.

(** C10 on a body of one line of 65537 bytes. *)
Lemma long_line_rejected_witness :
  snd (splitToLines (content (http.Body (post long_line)))) = Some bufio.ErrTooLong
  /\ http.Code (snd (RSC_ServeHTTP net_url.Parse (counter_with flaky) [] http.NewRecorder
                       (post long_line)))
     = http.StatusInternalServerError.
Proof.
  assert (Hex : existsb (fun l => bufio.MaxScanTokenSize <? blen l)
                  (raw_lines (bytes_of (content (http.Body (post long_line))))) = true)
    by (vm_compute; reflexivity).
  apply (long_line_rejected net_url.Parse (counter_with flaky) [] http.NewRecorder
           (post long_line) eq_refl eq_refl).
  apply List.Exists_exists.
  apply List.existsb_exists in Hex as (l & Hin & Hl).
  exists l. split; [exact Hin | apply Z.ltb_lt; exact Hl].
Defined.

(** On the same body the scanner itself, run round by round, stops with
    [ErrTooLong]. *)
Example long_line_scanned :
  splitToLines long_line = ([], Some bufio.ErrTooLong).
Proof. vm_compute. reflexivity. Qed.

(** ** Concurrent increments under the lock (C8) *)

Module LockedProofs.
Import Locked.

Lemma int32_succ (a : Z) : int32 (int32 a + 1) = int32 (a + 1).
Proof.
  unfold int32.
  replace ((a + 2 ^ 31) mod 2 ^ 32 - 2 ^ 31 + 1 + 2 ^ 31)
    with ((a + 2 ^ 31) mod 2 ^ 32 + 1) by lia.
  rewrite Zplus_mod_idemp_l. f_equal. f_equal. lia.
Qed.

Lemma count_app (P : caller -> bool) (l1 l2 : list caller) :
  count P (l1 ++ l2) = (count P l1 + count P l2)%nat.
Proof. unfold count. now rewrite List.filter_app, length_app. Qed.

Lemma count_cons (P : caller -> bool) (c : caller) (l : list caller) :
  count P (c :: l) = ((if P c then 1 else 0) + count P l)%nat.
Proof. unfold count. cbn. now destruct (P c). Qed.

(** A caller moves: the count changes by what the move changes. *)
Lemma count_insert (P : caller -> bool) (cs : list caller) (t : nat) (c c' : caller) :
  cs !! t = Some c ->
  (count P (<[t := c']> cs) + (if P c then 1 else 0)
   = count P cs + (if P c' then 1 else 0))%nat.
Proof.
  intros Ht. apply list_elem_of_split_length in Ht as (l1 & l2 & -> & ->).
  replace (length l1) with (length l1 + 0)%nat by lia.
  rewrite insert_app_r. cbn [list_insert insert].
  rewrite !count_app, !count_cons. lia.
Qed.

Lemma count_pos (P : caller -> bool) (cs : list caller) (t : nat) (c : caller) :
  cs !! t = Some c -> P c = true -> (1 <= count P cs)%nat.
Proof.
  intros Ht Hc. apply list_elem_of_split_length in Ht as (l1 & l2 & -> & ->).
  rewrite count_app, count_cons, Hc. lia.
Qed.


(** With one caller holding the lock, no other caller holds it. *)
Lemma one_holder (cs : list caller) (t t' : nat) (c c' : caller) :
  count holding cs = 1%nat ->
  cs !! t = Some c -> holding c = true ->
  cs !! t' = Some c' -> t' <> t -> holding c' = false.
Proof.
  intros Hone Ht Hc Ht' Hne.
  destruct (holding c') eqn:Hc'; [| reflexivity].
  pose proof (count_insert holding cs t c (mkCaller (key c) AtLock) Ht) as Hins.
  rewrite Hc in Hins. cbn in Hins.
  assert (Hpos : (1 <= count holding (<[t := mkCaller (key c) AtLock]> cs))%nat).
  { apply (count_pos _ _ t' c'); [| assumption].
    rewrite list_lookup_insert_ne by congruence. assumption. }
  lia.
Qed.

(** Each kind of move and what it does to the two tests. *)
Ltac count_move P Ht :=
  match goal with
  | |- context [count P (<[?t := ?c']> ?cs)] =>
      let Hc := fresh "Hcount" in
      let n := fresh "n" in
      let n' := fresh "n'" in
      pose proof (count_insert P cs t _ c' Ht) as Hc;
      set (n' := count P (<[t := c']> cs)) in *;
      set (n := count P cs) in *;
      clearbody n n';
      unfold stored_on, holding, stored in Hc; cbn [at_pc key] in Hc
  end.

(** A step keeps the invariant. *)
Lemma step_Inv (t : nat) (st st' : state) :
  Inv st -> step t st = Some st' -> Inv st'.
Proof.
  intros (Hmu & Hcnt & Hread). unfold step.
  destruct (callers st !! t) as [c|] eqn:Ht; [| discriminate].
  assert (Hholder : holding c = true -> mu st = true /\ count holding (callers st) = 1%nat).
  { intros Hc. pose proof (count_pos holding _ _ _ Ht Hc).
    destruct (mu st); [split; [reflexivity | assumption] | lia]. }
  assert (Hothers : forall t1 c1 c' v,
             holding c = true ->
             <[t := c']> (callers st) !! t1 = Some c1 -> at_pc c1 = AtStore v ->
             t1 = t /\ c1 = c').
  { intros t1 c1 c' v Hc Ht1 Hv.
    apply list_lookup_insert_Some in Ht1 as [(-> & -> & _) | [Hne Ht1]]; [now split |].
    destruct (Hholder Hc) as [_ Hone].
    pose proof (one_holder _ _ _ _ _ Hone Ht Hc Ht1 ltac:(congruence)) as Hfree.
    unfold holding in Hfree. now rewrite Hv in Hfree. }
  destruct (at_pc c) eqn:Hpc.
  - (* [Lock] *)
    destruct (mu st) eqn:Hm; [discriminate |]. intros [= <-].
    unfold Inv. cbn [mu counter callers]. split; [| split].
    + count_move holding Ht. rewrite Hpc in *. lia.
    + intros k. rewrite Hcnt. do 2 f_equal.
      count_move (stored_on k) Ht. rewrite Hpc in *. cbn in *. lia.
    + intros t1 c1 v Ht1 Hv.
      apply list_lookup_insert_Some in Ht1 as [(-> & <- & _) | [Hne Ht1]];
        [discriminate | eauto].
  - (* the read of [sh.counter[id]++] *)
    intros [= <-]. unfold Inv. cbn [mu counter callers].
    assert (Hc : holding c = true) by (unfold holding; now rewrite Hpc).
    split; [| split].
    + count_move holding Ht. rewrite Hpc in *. lia.
    + intros k. rewrite Hcnt. do 2 f_equal.
      count_move (stored_on k) Ht. rewrite Hpc in *. cbn in *. lia.
    + intros t1 c1 v' Ht1 Hv'.
      destruct (Hothers _ _ _ _ Hc Ht1 Hv') as [-> ->].
      cbn in Hv'. now injection Hv' as <-.
  - (* the write of [sh.counter[id]++] *)
    intros [= <-]. unfold Inv. cbn [mu counter callers].
    assert (Hc : holding c = true) by (unfold holding; now rewrite Hpc).
    split; [| split].
    + count_move holding Ht. rewrite Hpc in *. lia.
    + intros k. destruct (String.eqb_spec (key c) k) as [<- | Hne].
      * rewrite index_insert, (Hread _ _ _ Ht Hpc), Hcnt, int32_succ. f_equal.
        count_move (stored_on (key c)) Ht.
        rewrite Hpc, String.eqb_refl in Hcount. cbn in Hcount. lia.
      * rewrite index_insert_ne, Hcnt by assumption. do 2 f_equal.
        count_move (stored_on k) Ht.
        apply String.eqb_neq in Hne. rewrite Hpc, Hne in Hcount. cbn in Hcount. lia.
    + intros t1 c1 v' Ht1 Hv'.
      destruct (Hothers _ _ _ _ Hc Ht1 Hv') as [-> ->]. discriminate.
  - (* the read of the result *)
    intros [= <-]. unfold Inv. cbn [mu counter callers].
    assert (Hc : holding c = true) by (unfold holding; now rewrite Hpc).
    split; [| split].
    + count_move holding Ht. rewrite Hpc in *. lia.
    + intros k. rewrite Hcnt. do 2 f_equal.
      count_move (stored_on k) Ht. rewrite Hpc in *. cbn in *. lia.
    + intros t1 c1 v' Ht1 Hv'.
      destruct (Hothers _ _ _ _ Hc Ht1 Hv') as [-> ->]. discriminate.
  - (* [Unlock] *)
    intros [= <-]. unfold Inv. cbn [mu counter callers].
    assert (Hc : holding c = true) by (unfold holding; now rewrite Hpc).
    destruct (Hholder Hc) as [_ Hone].
    split; [| split].
    + count_move holding Ht. rewrite Hpc in *. lia.
    + intros k. rewrite Hcnt. do 2 f_equal.
      count_move (stored_on k) Ht. rewrite Hpc in *. cbn in *. lia.
    + intros t1 c1 v' Ht1 Hv'.
      destruct (Hothers _ _ _ _ Hc Ht1 Hv') as [-> ->]. discriminate.
  - discriminate.
Qed.

Lemma count_init (P : caller -> bool) (ids : list string) :
  (forall k, P (mkCaller k AtLock) = false) ->
  count P (map (fun k => mkCaller k AtLock) ids) = 0%nat.
Proof.
  intros HP. induction ids as [|k ids IH]; [reflexivity |].
  cbn [map]. rewrite count_cons, HP, IH. reflexivity.
Qed.

Lemma Inv_init (ids : list string) : Inv (init ids).
Proof.
  unfold Inv, init. cbn [mu counter callers]. split; [| split].
  - now apply count_init.
  - intros k. rewrite index_empty, count_init; [reflexivity | reflexivity].
  - intros t c v Ht Hv. apply list_lookup_fmap_Some in Ht as (k & -> & _).
    discriminate.
Qed.

Lemma exec_Inv (sched : list nat) :
  forall st, Inv st -> Inv (exec sched st).
Proof.
  induction sched as [|t sched IH]; intros st HInv; [exact HInv |].
  cbn [exec]. apply IH.
  destruct (step t st) as [st'|] eqn:Hstep; [| exact HInv].
  exact (step_Inv t st st' HInv Hstep).
Qed.

(** The callers keep their keys. *)
Lemma step_keys (t : nat) (st st' : state) :
  step t st = Some st' -> map key (callers st') = map key (callers st).
Proof.
  unfold step. destruct (callers st !! t) as [c|] eqn:Ht; [| discriminate].
  assert (Hk : forall p, map key (<[t := mkCaller (key c) p]> (callers st))
                         = map key (callers st)).
  { intros p. apply list_elem_of_split_length in Ht as (l1 & l2 & -> & ->).
    replace (length l1) with (length l1 + 0)%nat by lia.
    rewrite insert_app_r. cbn [list_insert insert].
    now rewrite !map_app. }
  destruct (at_pc c); try destruct (mu st); intros [= <-]; cbn [callers]; apply Hk.
Qed.

Lemma exec_keys (sched : list nat) :
  forall st, map key (callers (exec sched st)) = map key (callers st).
Proof.
  induction sched as [|t sched IH]; intros st; [reflexivity |].
  cbn [exec]. rewrite IH.
  destruct (step t st) as [st'|] eqn:Hstep; [| reflexivity].
  exact (step_keys t st st' Hstep).
Qed.

(** When all callers have returned, the increments written for a key are
    as many as its callers. *)
Lemma count_all_returned (k : string) (cs : list caller) :
  forallb has_returned cs = true ->
  count (stored_on k) cs = count_occ string_dec (map key cs) k.
Proof.
  induction cs as [|c cs IH]; [reflexivity |].
  cbn [forallb map count_occ]. intros Hall.
  apply andb_true_iff in Hall as [Hc Hcs].
  rewrite count_cons, IH by assumption.
  unfold stored_on, stored. unfold has_returned in Hc.
  destruct (at_pc c); try discriminate. cbn [andb].
  destruct (string_dec (key c) k) as [-> | Hne].
  - now rewrite String.eqb_refl.
  - apply String.eqb_neq in Hne. now rewrite Hne.
Qed.

Lemma map_key_init (ids : list string) : map key (callers (init ids)) = ids.
Proof.
  unfold init. cbn [callers]. rewrite map_map. cbn [key]. apply map_id.
Qed.



Lemma exec_step (t : nat) (sched : list nat) (st st' : state) :
  step t st = Some st' -> exec (t :: sched) st = exec sched st'.
Proof. intros Hstep. cbn [exec]. now rewrite Hstep. Qed.

(** A caller that finds the lock free runs through [Increment] in five
    steps. *)
Lemma five_steps (t : nat) (st : state) (k : string) (rest : list nat) :
  callers st !! t = Some (mkCaller k AtLock) -> mu st = false ->
  exec (repeat t 5 ++ rest) st
  = exec rest
      (mkState false (<[k := int32 (index (counter st) k + 1)]> (counter st))
         (<[t := mkCaller k
                   (Returned
                      (index (<[k := int32 (index (counter st) k + 1)]> (counter st)) k))]>
            (callers st))).
Proof.
  intros Ht Hmu. pose proof (lookup_lt_Some _ _ _ Ht) as Hlt.
  assert (Hat : forall p, <[t := mkCaller k p]> (callers st) !! t = Some (mkCaller k p))
    by (intros p; now apply list_lookup_insert_eq).
  set (c1 := <[k := int32 (index (counter st) k + 1)]> (counter st)).
  change (repeat t 5 ++ rest) with (t :: t :: t :: t :: t :: rest).
  rewrite (exec_step t _ st
             (mkState true (counter st) (<[t := mkCaller k AtLoad]> (callers st))))
    by (unfold step; rewrite Ht; cbn [at_pc key]; now rewrite Hmu).
  rewrite (exec_step t _ _
             (mkState true (counter st)
                (<[t := mkCaller k (AtStore (index (counter st) k))]> (callers st))))
    by (unfold step; cbn [callers mu counter]; rewrite Hat; cbn [at_pc key];
        now rewrite list_insert_insert_eq).
  rewrite (exec_step t _ _
             (mkState true c1 (<[t := mkCaller k AtReturn]> (callers st))))
    by (unfold step; cbn [callers mu counter]; rewrite Hat; cbn [at_pc key];
        now rewrite list_insert_insert_eq).
  rewrite (exec_step t _ _
             (mkState true c1 (<[t := mkCaller k (AtUnlock (index c1 k))]> (callers st))))
    by (unfold step; cbn [callers mu counter]; rewrite Hat; cbn [at_pc key];
        now rewrite list_insert_insert_eq).
  rewrite (exec_step t _ _
             (mkState false c1 (<[t := mkCaller k (Returned (index c1 k))]> (callers st))))
    by (unfold step; cbn [callers mu counter]; rewrite Hat; cbn [at_pc key];
        now rewrite list_insert_insert_eq).
  reflexivity.
Qed.



End LockedProofs.

(** A caller that runs alone through its five steps does what [Increment]
    does in one: the same map, the same result. *)
Lemma alone_is_Increment (t : nat) (st : Locked.state) (k : string) :
  Locked.callers st !! t = Some (Locked.mkCaller k Locked.AtLock) ->
  Locked.mu st = false ->
  Locked.exec (repeat t 5) st
  = Locked.mkState false
      (counter (snd (StatHolder_Increment (mkStatHolder (Locked.counter st)) k)))
      (<[t := Locked.mkCaller k
                (Locked.Returned
                   (fst (StatHolder_Increment (mkStatHolder (Locked.counter st)) k)))]>
         (Locked.callers st)).
Proof.
  intros Ht Hmu.
  rewrite <- (app_nil_r (repeat t 5)).
  now rewrite (LockedProofs.five_steps t st k [] Ht Hmu).
Qed.





(** ** Requests in flight on one handler (C9) *)

Module InFlightProofs.
Import InFlight.

Section Alone.

Variable url_Parse : string -> option net_url.URL.

Lemma doGet_client (h h' : ResponseSizeCounter) (url : string) :
  client h = client h' -> doGet h url = doGet h' url.
Proof. intros Hc. unfold doGet. now rewrite Hc. Qed.

Lemma exec_app (s1 s2 : list (nat * nat)) (st : state) :
  exec url_Parse (s1 ++ s2) st = exec url_Parse s2 (exec url_Parse s1 st).
Proof.
  revert st. induction s1 as [|[t c] s1 IH]; intros st; [reflexivity |].
  cbn [app exec]. apply IH.
Qed.

(** A request that was answered does not move. *)
Lemma exec_answered (sched : list (nat * nat)) (h : ResponseSizeCounter)
    (w : http.ResponseWriter) :
  Forall (fun tc => fst tc = 0%nat) sched ->
  exec url_Parse sched (mkState h [Answered w]) = mkState h [Answered w].
Proof.
  induction sched as [|[t c] sched IH]; intros Hall; [reflexivity |].
  apply Forall_cons_1 in Hall as [Ht Hall]. cbn in Ht. subst t.
  cbn [exec]. now apply IH.
Qed.

(** The choices of the scheduler, one for each fetch. *)
Lemma choices_cons (sched : Sched) (n : nat) :
  map (fun k => (0%nat, nth k sched 0%nat)) (seq 0 (S n))
  = (0%nat, hd 0%nat sched) :: map (fun k => (0%nat, nth k (tl sched) 0%nat)) (seq 0 n).
Proof.
  cbn [seq map]. f_equal; [now destruct sched |].
  rewrite <- seq_shift, map_map. apply map_ext. intros k.
  now destruct sched; [destruct k |].
Qed.

(** The sizes a fan-out collects depend on the client and on the sizes
    collected before, not on the rest of the handler. *)
Lemma run_tasks_f_sizes (n : nat) :
  forall (h h' : ResponseSizeCounter) (sched : Sched) (pending : list string)
         (err err' : option string) (st st' : fanout),
    client h = client h' -> f_sizes st = f_sizes st' ->
    f_sizes (run_tasks h n sched pending err st)
    = f_sizes (run_tasks h' n sched pending err' st').
Proof.
  induction n as [|n IH]; intros h h' sched pending err err' st st' Hc Hs;
    [exact Hs |].
  cbn [run_tasks]. destruct (pending !! _) as [url|]; [| exact Hs].
  apply IH; [exact Hc |].
  now rewrite !task_sizes, Hs, (doGet_client h h' url Hc).
Qed.

(** The fetches of a request served alone end as [run_tasks] has it. *)
Lemma exec_fetches (n : nat) :
  forall (sched : Sched) (pending : list string) (h : ResponseSizeCounter)
         (st : fanout),
    length pending = n -> f_sizes st = sizes h ->
    exec url_Parse (map (fun k => (0%nat, nth k sched 0%nat)) (seq 0 n))
      (mkState h [Waiting pending])
    = mkState
        (mkRSC (urls h) (f_sizes (run_tasks h n sched pending None st)) (client h))
        [Waiting []].
Proof.
  induction n as [|n IH]; intros sched pending h st Hlen Hs.
  - destruct pending; [| discriminate]. cbn. rewrite Hs. now destruct h.
  - rewrite choices_cons. cbn [exec run_tasks].
    destruct pending as [|u us]; [discriminate |].
    unfold step at 1. cbn [requests handler lookup list_lookup].
    destruct (pick_pending sched (u :: us) ltac:(discriminate)) as [url Hurl].
    rewrite Hurl. cbn [default from_option id list_insert insert].
    rewrite (IH (tl sched) _ _ (task h url None st));
      [| rewrite length_delete by eauto; cbn in *; lia
       | now rewrite task_sizes, Hs].
    cbn [urls client]. do 2 f_equal.
    now apply run_tasks_f_sizes.
Qed.

Lemma exec_request_step (t c : nat) (sched : list (nat * nat)) (st st' : state) :
  step url_Parse t c st = Some st' ->
  exec url_Parse ((t, c) :: sched) st = exec url_Parse sched st'.
Proof. intros Hstep. cbn [exec]. now rewrite Hstep. Qed.

(** A request served alone by the steps is served as [ServeHTTP] serves
    it on a recorder. *)
Lemma exec_alone (h : ResponseSizeCounter) (sched : Sched) (req : http.Request) :
  exec url_Parse
    (alone 0 sched (length (urls (fst (getUrls url_Parse h req)))))
    (mkState h [Arrived req])
  = mkState (fst (RSC_ServeHTTP url_Parse h sched http.NewRecorder req))
      [Answered (snd (RSC_ServeHTTP url_Parse h sched http.NewRecorder req))].
Proof.
  assert (Hmine : forall n,
             Forall (fun tc => fst tc = 0%nat)
               ((0%nat, 0%nat)
                :: map (fun k => (0%nat, nth k sched 0%nat)) (seq 0 n)
                   ++ [(0%nat, 0%nat)])).
  { intros n. apply List.Forall_cons; [reflexivity |].
    apply List.Forall_app. split; [| now repeat constructor].
    apply List.Forall_forall. intros tc Htc.
    apply in_map_iff in Htc as (k & <- & _). reflexivity. }
  unfold alone, RSC_ServeHTTP. cbn [app].
  destruct (String.eqb (http.Method req) http.MethodPost) eqn:Hpost.
  - unfold serve. destruct (getUrls url_Parse h req) as [h1 [e|]] eqn:Hget.
    + rewrite (exec_request_step 0 0 _ _
                 (mkState h1
                    [Answered (http.Error http.NewRecorder ("get urls: " +:+ e)
                                 http.StatusInternalServerError)]))
        by (unfold step; cbn [requests handler lookup list_lookup];
            now rewrite Hpost, Hget).
      cbn [fst snd]. now apply exec_answered.
    + rewrite (exec_request_step 0 0 _ _ (mkState h1 [Parsed]))
        by (unfold step; cbn [requests handler lookup list_lookup];
            now rewrite Hpost, Hget).
      rewrite (exec_request_step 0 0 _ _
                 (mkState (mkRSC (urls h1) (mkResSizes []) (client h1))
                    [Waiting (urls h1)]))
        by reflexivity.
      cbn [fst]. rewrite exec_app.
      rewrite (exec_fetches _ sched (urls h1) _ (mkFanout (mkResSizes []) false []))
        by reflexivity.
      cbn [urls client].
      rewrite (run_tasks_f_sizes _ _ h1 _ _ None None
                 (mkFanout (mkResSizes []) false []) (mkFanout (mkResSizes []) false []))
        by reflexivity.
      rewrite (exec_request_step 0 0 [] _
                 (mkState
                    (mkRSC (urls h1)
                       (f_sizes (run_tasks h1 (length (urls h1)) sched (urls h1) None
                                   (mkFanout (mkResSizes []) false [])))
                       (client h1))
                    [Answered
                       (fst (http.Write http.NewRecorder
                               (resSizes_String
                                  (f_sizes (run_tasks h1 (length (urls h1)) sched
                                              (urls h1) None
                                              (mkFanout (mkResSizes []) false []))))))]))
        by reflexivity.
      reflexivity.
  - rewrite (exec_request_step 0 0 _ _
               (mkState h
                  [Answered (http.Error http.NewRecorder "Only POST method supported."
                               http.StatusMethodNotAllowed)]))
      by (unfold step; cbn [requests handler lookup list_lookup]; now rewrite Hpost).
    cbn [fst snd]. now apply exec_answered.
Qed.

End Alone.

End InFlightProofs.

Example served_alone :
  snd (RSC_ServeHTTP net_url.Parse (counter_with echo) [] http.NewRecorder req_a)
  = http.mkWriter 200 true "11" None
  /\ snd (RSC_ServeHTTP net_url.Parse (counter_with echo) [] http.NewRecorder req_b)
     = http.mkWriter 200 true "12" None.
Proof. vm_compute. split; reflexivity. Qed.

(** C9 fails on two requests in flight on the handler that
    [MakeResponseSizeCounter] makes: both use its one collector.  When
    both have started their fetches before either ends, the answer to the
    first holds the size fetched for the second; when the second starts
    after the fetch of the first has ended, the size fetched for the first
    is gone from its answer.  Served alone, the first is answered [11]. *)
Theorem collector_shared_between_requests :
  InFlight.answer (InFlight.exec net_url.Parse mixed both_in_flight) 0
  = Some (http.mkWriter 200 true ("11" +:+ nl +:+ "12") None)
  /\ InFlight.answer (InFlight.exec net_url.Parse dropped both_in_flight) 0
     = Some (http.mkWriter 200 true "" None)
  /\ InFlight.answer
       (InFlight.exec net_url.Parse (InFlight.alone 0 [] 1)
          (InFlight.mkState (counter_with echo) [InFlight.Arrived req_a])) 0
     = Some (http.mkWriter 200 true "11" None).
Proof. vm_compute. repeat split; reflexivity. Qed.


(* ===================================================================== *)
(** * Part III: more of the package *)

(** ** The limiter counts every request that has a key *)

Section Counting.

Context {H : Type} `{Handler H}.

(** What one request does to the counter of a key: one more for the key
    of the request, whatever the answer, and nothing for the others. *)
Lemma ServeHTTP_counter (rl : RateLimiter StatHolder H) (sched : Sched)
    (w : http.ResponseWriter) (req : http.Request) (k : string) :
  index (counter (stat (fst (ServeHTTP rl sched w req)))) k
  = match requestIP req with
    | inl k' =>
        if String.eqb k' k then int32 (index (counter (stat rl)) k + 1)
        else index (counter (stat rl)) k
    | inr _ => index (counter (stat rl)) k
    end
  /\ limit (fst (ServeHTTP rl sched w req)) = limit rl.
Proof.
  unfold ServeHTTP at 1 2, RateLimiter_Handler, RateLimiter_ServeHTTP.
  destruct (requestIP req) as [k'|e]; [| now split].
  rewrite Increment_eq.
  assert (Hidx : index (<[k' := int32 (index (counter (stat rl)) k' + 1)]>
                          (counter (stat rl))) k
                 = if String.eqb k' k then int32 (index (counter (stat rl)) k + 1)
                   else index (counter (stat rl)) k).
  { destruct (String.eqb_spec k' k) as [-> | Hne];
      [apply index_insert | now apply index_insert_ne]. }
  destruct (limit rl <? _); [now split |].
  destruct (ServeHTTP (next rl) sched w req). now split.
Qed.

Lemma run_counter (k : string) (events : list Event) :
  forall (rl : RateLimiter StatHolder H) (acc : nat),
    index (counter (stat rl)) k = int32 (Z.of_nat acc) ->
    index (counter (stat (fst (run events rl)))) k
    = int32 (Z.of_nat (window_count k events acc))
    /\ limit (fst (run events rl)) = limit rl.
Proof.
  induction events as [|[|sched req] events IH]; intros rl acc Hacc.
  - now split.
  - cbn [run window_count]. destruct (IH (tick rl) 0%nat) as [Hc Hl].
    + cbn. apply index_empty.
    + split; [exact Hc | exact Hl].
  - cbn [run window_count].
    destruct (ServeHTTP_counter rl sched http.NewRecorder req k) as [Hc Hl].
    destruct (ServeHTTP rl sched http.NewRecorder req) as [rl1 w1].
    cbn [fst] in Hc, Hl.
    assert (Hnext : index (counter (stat rl1)) k
                    = int32 (Z.of_nat
                               match requestIP req with
                               | inl k' => if String.eqb k' k then S acc else acc
                               | inr _ => acc
                               end)).
    { rewrite Hc. destruct (requestIP req) as [k'|e]; [| exact Hacc].
      destruct (String.eqb k' k); [| exact Hacc].
      rewrite Hacc, LockedProofs.int32_succ. f_equal. lia. }
    destruct (requestIP req) as [k'|e];
      (destruct (IH rl1 _ Hnext) as [Hc' Hl'];
       destruct (run events rl1) as [rl2 ws]; cbn [fst] in *;
       split; [exact Hc' | congruence]).
Qed.

End Counting.

(** X1.  Whatever the requests, their keys, their answers and the ticks:
    after a sequence of events on a new limiter the counter of a key is
    the number of requests of that key since the ticker last fired, as an
    [int32].  Requests of other keys, and requests without a key, change
    nothing of it. *)
Theorem limiter_counts_window {H : Type} `{Handler H} (L : Z) (downstream : H)
    (events : list Event) (k : string) :
  index (counter (stat (fst (run events (RateLimit L NewStatHolder downstream))))) k
  = int32 (Z.of_nat (window_count k events 0)).
Proof.
  apply (run_counter k events (RateLimit L NewStatHolder downstream) 0%nat).
  apply index_empty.
Qed.

Example window_count_sample :
  window_count "1.2.3.4"
    [Serve [] (rq "1.2.3.4:1"); Tick; Serve [] (rq "1.2.3.4:80"); Serve [] (rq "5.6.7.8:80");
     Serve [] (rq "1.2.3.4"); Serve [] (rq "1.2.3.4:81")] 0
  = 2%nat.
Proof. reflexivity. Qed.

(** ** Over the limit, and under it *)

(** X2.  A key that has reached the limit stays rejected: the rejected
    requests are counted too, so every further request of the key is
    answered 429 and the handler behind the limiter sees none of them,
    as long as the counter stays in the range of [int32].  A limit of
    zero or less rejects from the first request on. *)
Theorem over_limit_stays_rejected {H : Type} `{Handler H} (k : string)
    (reqs : list (Sched * http.Request)) :
  forall rl : RateLimiter StatHolder H,
    Forall (from_key k) reqs ->
    0 <= index (counter (stat rl)) k ->
    limit rl <= index (counter (stat rl)) k ->
    index (counter (stat rl)) k + Z.of_nat (length reqs) <= MaxInt32 ->
    snd (run (serve_events reqs) rl)
    = repeat (http.Error http.NewRecorder "Too Many Requests" 429) (length reqs)
    /\ next (fst (run (serve_events reqs) rl)) = next rl
    /\ index (counter (stat (fst (run (serve_events reqs) rl)))) k
       = index (counter (stat rl)) k + Z.of_nat (length reqs).
Proof.
  induction reqs as [|[sched req] reqs IH]; intros rl Hkeys Hpos Hlim Hmax.
  - cbn. repeat split. lia.
  - apply List.Forall_cons_iff in Hkeys as [Hk Hkeys].
    cbn [length] in Hmax.
    cbn [serve_events map run fst snd].
    rewrite (over_limit rl k sched http.NewRecorder req Hk Hpos) by lia.
    set (rl1 := mkRateLimiter _ _ _).
    assert (Hidx : index (counter (stat rl1)) k = index (counter (stat rl)) k + 1)
      by apply index_insert.
    destruct (IH rl1 Hkeys) as (Hws & Hnext & Hc);
      [rewrite Hidx; lia | rewrite Hidx; cbn; lia | rewrite Hidx; lia |].
    fold (serve_events reqs).
    destruct (run (serve_events reqs) rl1) as [rl2 ws]. cbn [fst snd] in *.
    repeat split.
    + cbn [length repeat]. now rewrite Hws.
    + exact Hnext.
    + rewrite Hc, Hidx. cbn [length]. lia.
Qed.

Lemma over_limit_stays_rejected_witness :
  snd (run (serve_events (repeat ([] : Sched, rq "127.0.0.1:80") 3))
         (RateLimit 0 NewStatHolder (mkMock [])))
  = repeat (http.Error http.NewRecorder "Too Many Requests" 429) 3
  /\ calls (next (fst (run (serve_events (repeat ([] : Sched, rq "127.0.0.1:80") 3))
                         (RateLimit 0 NewStatHolder (mkMock []))))) = [].
Proof.
  destruct (over_limit_stays_rejected "127.0.0.1"
              (repeat ([] : Sched, rq "127.0.0.1:80") 3)
              (RateLimit 0 NewStatHolder (mkMock []))) as (Hws & Hnext & _).
  - apply from_key_repeat. reflexivity.
  - vm_compute. discriminate.
  - vm_compute. discriminate.
  - vm_compute. discriminate.
  - split; [exact Hws | now rewrite Hnext].
Defined.

(** ** The two handlers together *)

Section Service.

Variable url_Parse : string -> option net_url.URL.

Lemma Error_fresh (msg : string) (code : Z) :
  http.Error http.NewRecorder msg code = http.mkWriter code true (msg +:+ nl) None.
Proof. reflexivity. Qed.

Lemma serve_Code (h : ResponseSizeCounter) (sched : Sched) (req : http.Request) :
  http.Code (snd (serve url_Parse h sched http.NewRecorder req)) = 200
  \/ http.Code (snd (serve url_Parse h sched http.NewRecorder req)) = 500.
Proof.
  destruct (getUrls url_Parse h req) as [h1 [e|]] eqn:Hget.
  - right. rewrite (serve_getUrls_error url_Parse h h1 sched _ req e Hget).
    reflexivity.
  - left. destruct (serve_getUrls_ok url_Parse h h1 sched http.NewRecorder req Hget)
      as (_ & Hcode & _).
    now apply Hcode.
Qed.

(** X3.  The handler made by [MakeResponseSizeCounter] answers a request
    on a new recorder with one of five statuses, and each goes with its
    cause: 400 exactly when the peer address has no key, 405 only for a
    method other than POST. *)
Theorem service_statuses (rl : RateLimiter StatHolder ResponseSizeCounter)
    (sched : Sched) (req : http.Request) :
  let code := http.Code (snd (Service_ServeHTTP url_Parse rl sched http.NewRecorder req)) in
  In code [200; 400; 405; 429; 500]
  /\ (code = 400 <-> exists e, requestIP req = inr e)
  /\ (code = 405 -> http.Method req <> http.MethodPost)
  /\ (code = 200 -> http.Method req = http.MethodPost).
Proof.
  cbv zeta. unfold Service_ServeHTTP, RateLimiter_ServeHTTP.
  destruct (requestIP req) as [k|e].
  - rewrite Increment_eq.
    assert (Hno : ~ exists e : string, @inl string string k = inr e)
      by (intros [e He]; discriminate).
    destruct (limit rl <? _).
    + rewrite Error_fresh. cbn [snd http.Code].
      repeat split; try (intros; discriminate || tauto); cbn; tauto.
    + unfold ServeHTTP, RSC_Handler, RSC_ServeHTTP.
      destruct (String.eqb_spec (http.Method req) http.MethodPost) as [Hm|Hm].
      * destruct (serve_Code (next rl) sched req) as [Hc|Hc];
          destruct (serve url_Parse (next rl) sched http.NewRecorder req) as [h1 w1];
          cbn [snd] in *; rewrite Hc;
          repeat split; try (intros; discriminate || tauto); cbn; tauto.
      * rewrite Error_fresh. cbn [snd http.Code].
        repeat split; try (intros; discriminate || tauto); cbn; tauto.
  - rewrite Error_fresh. cbn [snd http.Code].
    repeat split; try (intros; discriminate); eauto; cbn; tauto.
Qed.

(** X4.  The limiter counts a request before the handler looks at it: a
    request with a method other than POST is answered 405 with the one
    line of text, fetches nothing and leaves the handler as it was, and
    still takes one of the requests its key may make in the window. *)
Theorem wrong_method_counted (rl : RateLimiter StatHolder ResponseSizeCounter)
    (sched : Sched) (req : http.Request) (k : string) :
  requestIP req = inl k ->
  http.Method req <> http.MethodPost ->
  int32 (index (counter (stat rl)) k + 1) <= limit rl ->
  snd (Service_ServeHTTP url_Parse rl sched http.NewRecorder req)
  = http.mkWriter 405 true ("Only POST method supported." +:+ nl) None
  /\ next (fst (Service_ServeHTTP url_Parse rl sched http.NewRecorder req)) = next rl
  /\ index (counter (stat (fst (Service_ServeHTTP url_Parse rl sched http.NewRecorder req)))) k
     = int32 (index (counter (stat rl)) k + 1).
Proof.
  intros Hk Hm Hlim. unfold Service_ServeHTTP.
  change (@RateLimiter_ServeHTTP StatHolder ResponseSizeCounter StatHolder_Stat
            (RSC_Handler url_Parse) rl sched http.NewRecorder req)
    with (@ServeHTTP _ (@RateLimiter_Handler _ _ StatHolder_Stat (RSC_Handler url_Parse))
            rl sched http.NewRecorder req).
  rewrite (@under_limit _ (RSC_Handler url_Parse) rl k sched _ req Hk Hlim).
  cbn [fst snd next stat counter].
  unfold ServeHTTP, RSC_Handler, RSC_ServeHTTP.
  destruct (String.eqb_spec (http.Method req) http.MethodPost) as [Hm'|_];
    [contradiction |].
  cbn [fst snd]. repeat split. apply index_insert.
Qed.

End Service.

Lemma wrong_method_counted_witness :
  snd (Service_ServeHTTP net_url.Parse (MakeResponseSizeCounter flaky) []
         http.NewRecorder (rq "127.0.0.1:80"))
  = http.mkWriter 405 true ("Only POST method supported." +:+ nl) None
  /\ index (counter (stat (fst (Service_ServeHTTP net_url.Parse
                                  (MakeResponseSizeCounter flaky) []
                                  http.NewRecorder (rq "127.0.0.1:80")))))
       "127.0.0.1"
     = 1.
Proof.
  destruct (wrong_method_counted net_url.Parse (MakeResponseSizeCounter flaky) []
              (rq "127.0.0.1:80") "127.0.0.1") as (Hw & _ & Hc).
  - reflexivity.
  - discriminate.
  - vm_compute. discriminate.
  - split; [exact Hw | exact Hc].
Defined.

(** ** What an answer depends on *)

Lemma doGet_bytes_read (h : ResponseSizeCounter) (url : string) :
  fst (doGet h url) = bytes_read (client h) url.
Proof.
  unfold doGet, bytes_read. destruct (client h url) as [res | e]; reflexivity.
Qed.

Lemma run_tasks_bytes_read (n : nat) :
  forall (h h' : ResponseSizeCounter) (sched : Sched) (pending : list string)
         (err err' : option string) (st st' : fanout),
    (forall u, bytes_read (client h) u = bytes_read (client h') u) ->
    f_sizes st = f_sizes st' ->
    f_sizes (run_tasks h n sched pending err st)
    = f_sizes (run_tasks h' n sched pending err' st').
Proof.
  induction n as [|n IH]; intros h h' sched pending err err' st st' Hb Hst;
    [exact Hst |].
  cbn [run_tasks]. destruct (pending !! _) as [url|]; [| exact Hst].
  apply IH; [exact Hb |].
  now rewrite !task_sizes, !doGet_bytes_read, Hb, Hst.
Qed.

Section Sequential.

Variable url_Parse : string -> option net_url.URL.

Lemma getUrls_range_state (lines : list string) :
  forall h h' : ResponseSizeCounter,
    urls h = urls h' ->
    snd (getUrls_range url_Parse lines h) = snd (getUrls_range url_Parse lines h')
    /\ client (fst (getUrls_range url_Parse lines h)) = client h
    /\ (snd (getUrls_range url_Parse lines h) = None ->
        urls (fst (getUrls_range url_Parse lines h))
        = urls (fst (getUrls_range url_Parse lines h'))).
Proof.
  induction lines as [|line lines IH]; intros h h' Hu; cbn [getUrls_range].
  - now repeat split.
  - destruct (isUrl url_Parse line).
    + destruct (IH (mkRSC (urls h ++ [line]) (sizes h) (client h))
                  (mkRSC (urls h' ++ [line]) (sizes h') (client h')))
        as (He & Hcl & Hus); cbn; [now rewrite Hu |].
      repeat split; [exact He | exact Hcl | exact Hus].
    + cbn. repeat split. discriminate.
Qed.

(** [getUrls] starts from an empty list of URLs: what it finds in a
    request does not depend on the handler. *)
Lemma getUrls_state (h h' : ResponseSizeCounter) (req : http.Request) :
  snd (getUrls url_Parse h req) = snd (getUrls url_Parse h' req)
  /\ client (fst (getUrls url_Parse h req)) = client h
  /\ (snd (getUrls url_Parse h req) = None ->
      urls (fst (getUrls url_Parse h req)) = urls (fst (getUrls url_Parse h' req))).
Proof.
  unfold getUrls.
  destruct (ReadAll (http.Body req)) as [bytes [e|]].
  - cbn. repeat split. discriminate.
  - destruct (splitToLines bytes) as [lines [e|]].
    + cbn. repeat split. discriminate.
    + destruct (getUrls_range_state lines (mkRSC [] (sizes h) (client h))
                  (mkRSC [] (sizes h') (client h')) eq_refl) as (He & Hcl & Hus).
      repeat split; [exact He | exact Hcl | exact Hus].
Qed.

(** The answer depends on the handler through the bytes its client
    reads, and on nothing else of its state. *)
Lemma ServeHTTP_bytes_read (h h' : ResponseSizeCounter) (sched : Sched)
    (w : http.ResponseWriter) (req : http.Request) :
  (forall u, bytes_read (client h) u = bytes_read (client h') u) ->
  snd (RSC_ServeHTTP url_Parse h sched w req) = snd (RSC_ServeHTTP url_Parse h' sched w req).
Proof.
  intros Hb. unfold RSC_ServeHTTP.
  destruct (String.eqb (http.Method req) http.MethodPost); [| reflexivity].
  unfold serve.
  destruct (getUrls_state h h' req) as (He & Hcl & Hus).
  destruct (getUrls_state h' h' req) as (_ & Hcl2 & _).
  destruct (getUrls url_Parse h req) as [h1 e1].
  destruct (getUrls url_Parse h' req) as [h1' e1'].
  cbn [fst snd] in He, Hcl, Hcl2, Hus. subst e1'.
  destruct e1 as [e|]; [reflexivity |].
  specialize (Hus eq_refl).
  unfold getRespSizes, getRespSizes_fanout. cbn [fst snd sizes].
  rewrite <- Hus.
  rewrite (run_tasks_bytes_read (length (urls h1)) h1 h1' sched (urls h1)
             None None _ _ ltac:(now rewrite Hcl, Hcl2) eq_refl).
  now destruct (http.Write w _) as [w1 [e|]].
Qed.

Lemma ServeHTTP_keeps_client (h : ResponseSizeCounter) (sched : Sched)
    (w : http.ResponseWriter) (req : http.Request) :
  client (fst (RSC_ServeHTTP url_Parse h sched w req)) = client h.
Proof.
  unfold RSC_ServeHTTP.
  destruct (String.eqb (http.Method req) http.MethodPost); [| reflexivity].
  unfold serve.
  destruct (getUrls_state h h req) as (_ & Hcl & _).
  destruct (getUrls url_Parse h req) as [h1 [e|]]; [exact Hcl |].
  unfold getRespSizes, getRespSizes_fanout. cbn [fst snd] in *.
  now destruct (http.Write w _) as [w1 [e|]].
Qed.

End Sequential.

(** X5.  Requests served one after the other do not see each other: each
    gets the answer a new handler with the same client would give it,
    whatever URLs and sizes the requests before it left in the handler. *)
Theorem sequential_requests_isolated (url_Parse : string -> option net_url.URL)
    (reqs : list (Sched * http.Request)) :
  forall h : ResponseSizeCounter,
    snd (@feed _ (RSC_Handler url_Parse) reqs h)
    = map (fun sr => snd (RSC_ServeHTTP url_Parse (counter_with (client h)) (fst sr)
                            http.NewRecorder (snd sr)))
          reqs.
Proof.
  induction reqs as [|[sched req] reqs IH]; intros h; [reflexivity |].
  cbn [feed map fst snd].
  unfold ServeHTTP at 1, RSC_Handler at 1.
  pose proof (ServeHTTP_bytes_read url_Parse h (counter_with (client h)) sched
                http.NewRecorder req (fun u => eq_refl)) as Hw.
  pose proof (ServeHTTP_keeps_client url_Parse h sched http.NewRecorder req) as Hc.
  destruct (RSC_ServeHTTP url_Parse h sched http.NewRecorder req) as [h1 w1].
  cbn [fst snd] in Hw, Hc.
  specialize (IH h1). rewrite Hc in IH.
  destruct (feed reqs h1) as [h2 ws]. cbn [snd] in *.
  now rewrite Hw, IH.
Qed.

(** X15.  The answer shows of the fetches the number of bytes read from
    each body and nothing else: two clients that read as many bytes from
    every URL get the same answer, whatever the statuses of the responses
    they fetch and whatever errors the fetches end with. *)
Theorem answer_shows_bytes_read (url_Parse : string -> option net_url.URL)
    (c1 c2 : Getter) (us : list string) (ss : resSizes) (sched : Sched)
    (w : http.ResponseWriter) (req : http.Request) :
  (forall u, bytes_read c1 u = bytes_read c2 u) ->
  snd (RSC_ServeHTTP url_Parse (mkRSC us ss c1) sched w req)
  = snd (RSC_ServeHTTP url_Parse (mkRSC us ss c2) sched w req).
Proof.
  intros Hb. now apply ServeHTTP_bytes_read.
Qed.

Lemma answer_shows_bytes_read_witness :
  snd (RSC_ServeHTTP net_url.Parse (mkRSC [] (mkResSizes []) echo) [] http.NewRecorder
         (post three_urls))
  = snd (RSC_ServeHTTP net_url.Parse (mkRSC [] (mkResSizes []) echo_not_found) []
           http.NewRecorder (post three_urls)).
Proof.
  apply (answer_shows_bytes_read net_url.Parse echo echo_not_found [] (mkResSizes []) []
           http.NewRecorder (post three_urls)).
  intros u. reflexivity.
Defined.

(** ** A body without lines *)

Lemma dropCR_nil (l : list ascii) : bufio.dropCR l = [] -> blen l <= 1.
Proof.
  unfold bufio.dropCR.
  destruct (_ && _).
  - intros Hnil. apply (f_equal blen) in Hnil.
    pose proof (blen_nonneg l).
    destruct (Z.eq_dec (blen l) 0) as [Hz | Hz]; [lia |].
    rewrite blen_bto in Hnil by lia. change (blen []) with 0 in Hnil. lia.
  - intros ->. change (blen []) with 0. lia.
Qed.

Lemma text_lines_nil_scannable (body : string) :
  text_lines body = [] -> scannable body.
Proof.
  unfold text_lines, scannable. intros Hnil.
  apply List.Forall_forall. intros l Hin.
  assert (Htext : line_text l = "").
  { destruct (String.eqb_spec (line_text l) "") as [He | Hne]; [exact He |].
    exfalso.
    assert (Hin' : In (line_text l)
                     (List.filter (fun t => negb (String.eqb t ""))
                        (map line_text (raw_lines (bytes_of body))))).
    { apply List.filter_In. split; [now apply in_map |].
      apply negb_true_iff. now apply String.eqb_neq. }
    rewrite Hnil in Hin'. exact Hin'. }
  unfold line_text in Htext. apply string_of_nil_iff in Htext.
  apply dropCR_nil in Htext. unfold bufio.MaxScanTokenSize. lia.
Qed.

(** X6.  A POST whose body has no line of text, an empty body or one of
    line ends only, is answered 200 with an empty body: no URL is kept,
    nothing is fetched and no size is recorded. *)
Theorem body_without_lines (url_Parse : string -> option net_url.URL)
    (h : ResponseSizeCounter) (sched : Sched) (req : http.Request) :
  http.Method req = http.MethodPost ->
  failure (http.Body req) = None ->
  text_lines (content (http.Body req)) = [] ->
  RSC_ServeHTTP url_Parse h sched http.NewRecorder req
  = (mkRSC [] (mkResSizes []) (client h), http.mkWriter 200 true "" None).
Proof.
  intros Hm Hread Hnil. unfold RSC_ServeHTTP. rewrite Hm. cbn [String.eqb].
  replace (String.eqb http.MethodPost http.MethodPost) with true by reflexivity.
  unfold serve.
  rewrite (getUrls_read url_Parse h req Hread).
  unfold splitToLines_spec.
  rewrite scan_lines_ok by now apply text_lines_nil_scannable.
  fold (text_lines (content (http.Body req))). rewrite Hnil.
  reflexivity.
Qed.

Lemma body_without_lines_witness :
  RSC_ServeHTTP net_url.Parse (counter_with flaky) [] http.NewRecorder
    (post (nl +:+ String CR nl))
  = (mkRSC [] (mkResSizes []) flaky, http.mkWriter 200 true "" None).
Proof.
  apply (body_without_lines net_url.Parse (counter_with flaky) []
           (post (nl +:+ String CR nl))); reflexivity.
Defined.

(** ** The sizes recorded *)

Lemma doGet_nonneg (h : ResponseSizeCounter) (url : string) : 0 <= fst (doGet h url).
Proof.
  unfold doGet. destruct (client h url) as [res | e]; [| cbn; lia].
  destruct (ReadAll (http.RespBody res)) as [bytes e]. cbn [fst].
  unfold slen. apply blen_nonneg.
Qed.

Lemma string_of_uint_digits (c : ascii) (d : Decimal.uint) :
  has_char c (NilEmpty.string_of_uint d) = true ->
  In c ["0"; "1"; "2"; "3"; "4"; "5"; "6"; "7"; "8"; "9"]%char.
Proof.
  induction d; cbn [NilEmpty.string_of_uint has_char]; [discriminate | ..];
    (intros Hc; apply orb_true_iff in Hc as [Hc | Hc];
     [apply Ascii.eqb_eq in Hc; subst c; cbn; tauto | now apply IHd]).
Qed.

Lemma Itoa_digits (c : ascii) (z : Z) :
  0 <= z -> has_char c (strconv.Itoa z) = true ->
  In c ["0"; "1"; "2"; "3"; "4"; "5"; "6"; "7"; "8"; "9"]%char.
Proof.
  intros Hz. unfold strconv.Itoa.
  destruct z as [|p|p]; [| | lia].
  - change (has_char c "0" = true -> In c ["0"; "1"; "2"; "3"; "4"; "5"; "6"; "7"; "8"; "9"]%char).
    cbn [has_char]. intros Hc. apply orb_true_iff in Hc as [Hc | Hc]; [| discriminate].
    apply Ascii.eqb_eq in Hc. subst c. cbn. tauto.
  - cbn [Z.to_int NilZero.string_of_int NilZero.string_of_uint].
    destruct (Pos.to_uint p) eqn:Hp; try apply string_of_uint_digits.
    cbn [has_char]. intros Hc. apply orb_true_iff in Hc as [Hc | Hc]; [| discriminate].
    apply Ascii.eqb_eq in Hc. subst c. cbn. tauto.
Qed.

Lemma join_lines_chars (c : ascii) (ls : list string) :
  has_char c (join_lines ls) = true ->
  c = LF \/ exists l, In l ls /\ has_char c l = true.
Proof.
  induction ls as [|l [|l' ls] IH].
  - discriminate.
  - cbn [join_lines]. intros Hc. right. exists l. split; [now left | exact Hc].
  - rewrite join_lines_cons, !has_char_append. intros Hc.
    apply orb_true_iff in Hc as [Hc | Hc];
      [right; exists l; split; [now left | exact Hc] |].
    apply orb_true_iff in Hc as [Hc | Hc].
    + left. unfold nl in Hc. cbn [has_char] in Hc.
      apply orb_true_iff in Hc as [Hc | Hc]; [| discriminate].
      apply Ascii.eqb_eq in Hc. now symmetry.
    + destruct (IH Hc) as [-> | (x & Hin & Hx)]; [now left |].
      right. exists x. split; [now right | exact Hx].
Qed.

(** X7.  No size recorded is negative, for any client and any order of
    completion, so the rendering of the sizes has decimal digits and line
    feeds and nothing else: no sign, no space, no carriage return. *)
Theorem sizes_are_natural (h : ResponseSizeCounter) (sched : Sched) (c : ascii) :
  Forall (fun z => 0 <= z) (s (sizes (fst (getRespSizes h sched))))
  /\ (has_char c (resSizes_String (sizes (fst (getRespSizes h sched)))) = true ->
      In c [LF; "0"; "1"; "2"; "3"; "4"; "5"; "6"; "7"; "8"; "9"]%char).
Proof.
  destruct (getRespSizes_sizes h sched) as (order & _ & Hs).
  assert (Hpos : Forall (fun z => 0 <= z) (s (sizes (fst (getRespSizes h sched))))).
  { rewrite Hs. apply List.Forall_forall. intros z Hin.
    apply in_map_iff in Hin as (u & <- & _). apply doGet_nonneg. }
  split; [exact Hpos |].
  rewrite resSizes_String_join. intros Hc.
  destruct (join_lines_chars c _ Hc) as [-> | (l & Hin & Hl)]; [now left |].
  right. apply in_map_iff in Hin as (z & <- & Hz).
  apply (Itoa_digits c z); [| exact Hl].
  exact (proj1 (List.Forall_forall _ _) Hpos z Hz).
Qed.

(** ** The order of the sizes *)

Section Orders.

Variable h : ResponseSizeCounter.

Lemma run_tasks_in_order (order : list string) :
  forall (pending : list string) (err : option string) (st : fanout),
    order ≡ₚ pending ->
    exists sched,
      s (f_sizes (run_tasks h (length pending) sched pending err st))
      = s (f_sizes st) ++ map (fun u => fst (doGet h u)) order.
Proof.
  induction order as [|u order IH]; intros pending err st Hperm.
  - apply Permutation_nil_l in Hperm. subst pending.
    exists []. cbn. now rewrite app_nil_r.
  - assert (Hin : u ∈ pending) by (rewrite <- Hperm; left).
    apply list_elem_of_lookup_1 in Hin as [k Hk].
    pose proof (lookup_lt_Some _ _ _ Hk) as Hlt.
    assert (Hrest : order ≡ₚ delete k pending).
    { apply (Permutation_cons_inv (a := u)).
      rewrite Hperm. now apply delete_Permutation. }
    destruct (IH (delete k pending) err (task h u err st) Hrest) as [sched' Hs].
    exists (k :: sched').
    destruct (length pending) as [|n] eqn:Hlen; [lia |].
    cbn [run_tasks hd tl]. rewrite Hlen.
    rewrite Nat.mod_small by exact Hlt. rewrite Hk.
    assert (Hn : length (delete k pending) = n).
    { rewrite length_delete by (now exists u). lia. }
    rewrite Hn in Hs. rewrite Hs, task_sizes. cbn [resSizes_Add s map].
    now rewrite <- app_assoc.
Qed.

Lemma run_tasks_first (pending : list string) :
  forall (err : option string) (st : fanout),
    s (f_sizes (run_tasks h (length pending) [] pending err st))
    = s (f_sizes st) ++ map (fun u => fst (doGet h u)) pending.
Proof.
  induction pending as [|u pending IH]; intros err st.
  - cbn. now rewrite app_nil_r.
  - cbn [length run_tasks hd tl]. rewrite Nat.Div0.mod_0_l.
    cbn [lookup list_lookup delete list_delete].
    rewrite IH, task_sizes. cbn [resSizes_Add s map].
    now rewrite <- app_assoc.
Qed.

End Orders.

(** X8.  The sizes come in the order in which the fetches end, and every
    order can occur: for each arrangement of the URLs some schedule of
    the goroutines records the sizes in that arrangement.  When each
    fetch ends before the next one does, in the order of the URLs, the
    sizes are in the order of the URLs. *)
Theorem sizes_in_any_order (h : ResponseSizeCounter) (order : list string) :
  order ≡ₚ urls h ->
  (exists sched,
     s (sizes (fst (getRespSizes h sched))) = map (fun u => fst (doGet h u)) order)
  /\ s (sizes (fst (getRespSizes h []))) = map (fun u => fst (doGet h u)) (urls h).
Proof.
  intros Hperm. split.
  - destruct (run_tasks_in_order h order (urls h) None
                (mkFanout (mkResSizes []) false []) Hperm) as [sched Hs].
    exists sched. exact Hs.
  - apply (run_tasks_first h (urls h) None (mkFanout (mkResSizes []) false [])).
Qed.

Lemma sizes_in_any_order_witness :
  exists sched,
    s (sizes (fst (getRespSizes (mkRSC ["http://a.io"; "http://bb.io"] (mkResSizes []) echo)
                     sched)))
    = [12; 11].
Proof.
  destruct (sizes_in_any_order (mkRSC ["http://a.io"; "http://bb.io"] (mkResSizes []) echo)
              ["http://bb.io"; "http://a.io"]) as [[sched Hs] _].
  - apply Permutation_swap.
  - exists sched. exact Hs.
Defined.

(** ** What [splitToLines] returns *)

Lemma bytes_of_append (a b : string) : bytes_of (a +:+ b) = bytes_of a ++ bytes_of b.
Proof.
  unfold bytes_of. induction a as [|x a IH]; [reflexivity |].
  rewrite append_cons. cbn [list_ascii_of_string app]. now f_equal.
Qed.

Lemma has_char_In (c : ascii) (b : list ascii) :
  has_char c (string_of b) = true <-> In c b.
Proof.
  unfold string_of. induction b as [|x b IH]; cbn [string_of_list_ascii has_char In].
  - split; [discriminate | tauto].
  - rewrite orb_true_iff, IH, Ascii.eqb_eq. tauto.
Qed.

Lemma has_char_bytes (c : ascii) (l : string) :
  has_char c l = false <-> ~ In c (bytes_of l).
Proof.
  rewrite <- has_char_In, string_of_bytes_of. now destruct (has_char c l).
Qed.

Lemma raw_lines_no_LF (b : list ascii) : Forall (fun l => ~ In LF l) (raw_lines b).
Proof.
  induction b as [|c b IH]; cbn [raw_lines]; [apply List.Forall_nil |].
  destruct (Ascii.eqb_spec c LF) as [-> | Hc].
  - apply List.Forall_cons; [tauto | exact IH].
  - destruct (raw_lines b) as [|l ls].
    + apply List.Forall_cons; [| apply List.Forall_nil].
      intros [Hin | []]. now apply Hc.
    + apply List.Forall_cons_iff in IH as [Hl Hls].
      apply List.Forall_cons; [| exact Hls].
      intros [Hin | Hin]; [now apply Hc | now apply Hl].
Qed.

Lemma raw_lines_line (l rest : list ascii) :
  ~ In LF l -> raw_lines (l ++ LF :: rest) = l :: raw_lines rest.
Proof.
  induction l as [|c l IH]; intros Hno.
  - reflexivity.
  - cbn [app raw_lines].
    destruct (Ascii.eqb_spec c LF) as [-> | Hc]; [exfalso; apply Hno; now left |].
    rewrite IH; [reflexivity |]. intros Hin. apply Hno. now right.
Qed.

Lemma raw_lines_last (l : list ascii) : l <> [] -> ~ In LF l -> raw_lines l = [l].
Proof.
  induction l as [|c l IH]; intros Hne Hno; [congruence |].
  cbn [raw_lines].
  destruct (Ascii.eqb_spec c LF) as [-> | Hc]; [exfalso; apply Hno; now left |].
  destruct l as [|c' l]; [reflexivity |].
  rewrite IH; [reflexivity | discriminate |].
  intros Hin. apply Hno. now right.
Qed.

Lemma dropCR_no_CR (l : list ascii) : ~ In CR l -> bufio.dropCR l = l.
Proof.
  intros Hno. unfold bufio.dropCR.
  destruct (Z.ltb_spec 0 (blen l)) as [Hpos | _]; [| reflexivity].
  cbn [andb].
  destruct (Ascii.eqb_spec (nth (Z.to_nat (blen l - 1)) l "000"%char) CR) as [He | _];
    [| reflexivity].
  exfalso. apply Hno. rewrite <- He. apply nth_In. unfold blen in *. lia.
Qed.

Lemma dropCR_CR (l : list ascii) : bufio.dropCR (l ++ [CR]) = l.
Proof.
  unfold bufio.dropCR. rewrite blen_app. change (blen [CR]) with 1.
  pose proof (blen_nonneg l) as Hl.
  destruct (Z.ltb_spec 0 (blen l + 1)) as [_ | Hn]; [| lia].
  replace (blen l + 1 - 1) with (blen l) by lia.
  unfold blen at 1. rewrite Nat2Z.id, nth_middle.
  cbn [andb]. replace (Ascii.eqb CR CR) with true by reflexivity.
  unfold bto, blen. rewrite Nat2Z.id. apply take_app_length.
Qed.

Lemma dropCR_sub (l : list ascii) (c : ascii) : In c (bufio.dropCR l) -> In c l.
Proof.
  unfold bufio.dropCR. destruct (_ && _); [| tauto].
  unfold bto. intros Hin. apply list_elem_of_In in Hin.
  apply list_elem_of_In. now apply (subseteq_take (Z.to_nat (blen l - 1)) l).
Qed.

Lemma blen_dropCR (l : list ascii) : blen (bufio.dropCR l) <= blen l.
Proof.
  unfold bufio.dropCR. destruct (_ && _); [| lia].
  unfold bto, blen. rewrite length_take. lia.
Qed.

Lemma scan_lines_In (ls : list (list ascii)) (t : string) :
  In t (fst (scan_lines ls)) ->
  exists l, In l ls /\ t = line_text l /\ t <> "" /\ blen l < bufio.MaxScanTokenSize.
Proof.
  induction ls as [|l ls IH]; cbn [scan_lines]; [intros [] |].
  destruct (Z.leb_spec bufio.MaxScanTokenSize (blen l)) as [_ | Hlen]; [intros [] |].
  destruct (scan_lines ls) as [lines e]. cbn [fst] in *.
  destruct (String.eqb_spec (line_text l) "") as [_ | Hne].
  - intros Hin. destruct (IH Hin) as (l' & Hl' & Hrest).
    exists l'. split; [now right | exact Hrest].
  - intros [<- | Hin].
    + exists l. repeat split; [now left | exact Hne | exact Hlen].
    + destruct (IH Hin) as (l' & Hl' & Hrest).
      exists l'. split; [now right | exact Hrest].
Qed.

(** X9.  Whatever the input, also when the scan ends with an error, no
    line [splitToLines] returns is empty, none has a line feed in it, and
    none is as long as the largest token of the scanner. *)
Theorem splitToLines_lines (input line : string) :
  In line (fst (splitToLines input)) ->
  line <> "" /\ has_char LF line = false /\ slen line < bufio.MaxScanTokenSize.
Proof.
  rewrite splitToLines_refines. unfold splitToLines_spec. intros Hin.
  apply scan_lines_In in Hin as (l & Hl & -> & Hne & Hlen).
  split; [exact Hne |]. split.
  - apply has_char_bytes. unfold line_text. rewrite bytes_of_string_of.
    intros Hin. apply dropCR_sub in Hin.
    exact (proj1 (List.Forall_forall _ _) (raw_lines_no_LF _) l Hl Hin).
  - unfold slen, line_text. rewrite bytes_of_string_of.
    pose proof (blen_dropCR l). lia.
Qed.

Lemma splitToLines_lines_witness :
  "b" <> "" /\ has_char LF "b" = false /\ slen "b" < bufio.MaxScanTokenSize.
Proof.
  apply (splitToLines_lines ("a" +:+ nl +:+ nl +:+ "b" +:+ String CR nl) "b").
  vm_compute. tauto.
Defined.

(** *** Lines that come back as they were *)

Lemma scan_lines_texts (f : string -> list ascii) (ls : list string) :
  Forall (fun l => l <> "" /\ line_text (f l) = l
                   /\ blen (f l) < bufio.MaxScanTokenSize) ls ->
  scan_lines (map f ls) = (ls, None).
Proof.
  induction ls as [|l ls IH]; intros Hls; [reflexivity |].
  apply List.Forall_cons_iff in Hls as [(Hne & Htext & Hlen) Hls].
  cbn [map scan_lines].
  destruct (Z.leb_spec bufio.MaxScanTokenSize (blen (f l))) as [Hge | _]; [lia |].
  rewrite (IH Hls), Htext.
  destruct (String.eqb_spec l "") as [He | _]; [contradiction | reflexivity].
Qed.

Lemma raw_lines_with_ends (tail : list ascii) (ls : list string) :
  ~ In LF tail ->
  Forall (fun l => has_char LF l = false) ls ->
  raw_lines (bytes_of (with_line_ends (string_of (tail ++ [LF])) ls))
  = map (fun l => bytes_of l ++ tail) ls.
Proof.
  intros Htail. induction ls as [|l ls IH]; intros Hls; [reflexivity |].
  apply List.Forall_cons_iff in Hls as [Hl Hls].
  cbn [with_line_ends map].
  rewrite !bytes_of_append, bytes_of_string_of.
  rewrite <- (app_assoc tail), app_assoc. cbn [app].
  rewrite raw_lines_line.
  - now rewrite (IH Hls).
  - intros Hin. apply in_app_or in Hin as [Hin | Hin]; [| now apply Htail].
    now apply has_char_bytes in Hl.
Qed.

Lemma raw_lines_join (ls : list string) :
  Forall (fun l => l <> "" /\ has_char LF l = false) ls ->
  raw_lines (bytes_of (join_lines ls)) = map bytes_of ls.
Proof.
  induction ls as [|l [|l' ls] IH]; intros Hls; [reflexivity | |].
  - apply List.Forall_cons_iff in Hls as [[Hne Hl] _].
    cbn [join_lines map]. apply raw_lines_last.
    + intros Hnil. apply Hne. rewrite <- (string_of_bytes_of l). now rewrite Hnil.
    + now apply has_char_bytes.
  - apply List.Forall_cons_iff in Hls as [[Hne Hl] Hls].
    rewrite join_lines_cons, !bytes_of_append.
    change (bytes_of nl) with [LF]. cbn [app].
    rewrite raw_lines_line by now apply has_char_bytes.
    now rewrite (IH Hls).
Qed.

Lemma plain_line_text (l : string) : plain_line l ->
  l <> "" /\ line_text (bytes_of l) = l /\ blen (bytes_of l) < bufio.MaxScanTokenSize.
Proof.
  intros (Hne & _ & HCR & Hlen). split; [exact Hne |]. split.
  - unfold line_text. rewrite dropCR_no_CR by now apply has_char_bytes.
    apply string_of_bytes_of.
  - unfold slen in Hlen. lia.
Qed.

Lemma splitToLines_join (ls : list string) :
  Forall plain_line ls -> splitToLines (join_lines ls) = (ls, None).
Proof.
  intros Hls. rewrite splitToLines_refines. unfold splitToLines_spec.
  rewrite raw_lines_join.
  - apply scan_lines_texts. eapply List.Forall_impl; [| exact Hls].
    intros l. apply plain_line_text.
  - eapply List.Forall_impl; [| exact Hls]. intros l (Hne & HLF & _). now split.
Qed.

(** X10.  Lines that are not empty and have no line feed and no carriage
    return in them come back from [splitToLines] as they were, in their
    order, whether each is ended by a line feed or by a carriage return
    and a line feed, and whether or not the last one is ended at all. *)
Theorem line_ends_do_not_matter (ls : list string) :
  Forall plain_line ls ->
  splitToLines (with_line_ends nl ls) = (ls, None)
  /\ splitToLines (with_line_ends (String CR nl) ls) = (ls, None)
  /\ splitToLines (join_lines ls) = (ls, None).
Proof.
  intros Hls.
  assert (HLF : Forall (fun l => has_char LF l = false) ls).
  { eapply List.Forall_impl; [| exact Hls]. intros l (_ & HLF & _). exact HLF. }
  repeat split.
  - rewrite splitToLines_refines. unfold splitToLines_spec.
    change nl with (string_of ([] ++ [LF])).
    rewrite raw_lines_with_ends by (exact HLF || tauto).
    apply scan_lines_texts. eapply List.Forall_impl; [| exact Hls].
    intros l Hl. rewrite app_nil_r. now apply plain_line_text.
  - rewrite splitToLines_refines. unfold splitToLines_spec.
    change (String CR nl) with (string_of ([CR] ++ [LF])).
    rewrite raw_lines_with_ends; [| intros [Hc | []]; discriminate | exact HLF].
    apply scan_lines_texts. eapply List.Forall_impl; [| exact Hls].
    intros l (Hne & _ & _ & Hlen). split; [exact Hne |]. split.
    + unfold line_text. rewrite dropCR_CR. apply string_of_bytes_of.
    + rewrite blen_app. change (blen [CR]) with 1. unfold slen in Hlen. lia.
  - now apply splitToLines_join.
Qed.

Lemma line_ends_do_not_matter_witness :
  splitToLines (with_line_ends (String CR nl) ["http://a.io"; "http://bb.io"])
  = (["http://a.io"; "http://bb.io"], None).
Proof.
  apply (line_ends_do_not_matter ["http://a.io"; "http://bb.io"]).
  repeat (apply List.Forall_cons; [vm_compute; repeat split; discriminate |]).
  apply List.Forall_nil.
Defined.

(** ** The response read back by lines *)

Lemma nb_digits_double (d : Decimal.uint) :
  (Decimal.nb_digits (Decimal.Little.double d) <= S (Decimal.nb_digits d))%nat
  /\ (Decimal.nb_digits (Decimal.Little.succ_double d) <= S (Decimal.nb_digits d))%nat.
Proof.
  induction d as [|d [IH1 IH2]|d [IH1 IH2]|d [IH1 IH2]|d [IH1 IH2]|d [IH1 IH2]
                  |d [IH1 IH2]|d [IH1 IH2]|d [IH1 IH2]|d [IH1 IH2]|d [IH1 IH2]];
    cbn [Decimal.Little.double Decimal.Little.succ_double Decimal.nb_digits];
    split; lia.
Qed.

Lemma nb_digits_revapp (d d' : Decimal.uint) :
  Decimal.nb_digits (Decimal.revapp d d')
  = (Decimal.nb_digits d + Decimal.nb_digits d')%nat.
Proof.
  revert d'. induction d; intros d'; cbn [Decimal.revapp Decimal.nb_digits];
    [reflexivity | ..]; rewrite IHd; cbn [Decimal.nb_digits]; lia.
Qed.

Lemma nb_digits_to_little_uint (p : positive) :
  (Decimal.nb_digits (Pos.to_little_uint p) <= Pos.size_nat p)%nat.
Proof.
  induction p as [p IH | p IH |]; cbn [Pos.to_little_uint Pos.size_nat].
  - pose proof (proj2 (nb_digits_double (Pos.to_little_uint p))). lia.
  - pose proof (proj1 (nb_digits_double (Pos.to_little_uint p))). lia.
  - cbn. lia.
Qed.

Lemma size_nat_bound (p : positive) :
  forall n : nat, Z.pos p < 2 ^ Z.of_nat n -> (Pos.size_nat p <= n)%nat.
Proof.
  induction p as [p IH | p IH |]; intros [|n] Hp; cbn [Pos.size_nat];
    try (change (2 ^ Z.of_nat 0) with 1 in Hp; lia);
    try lia;
    rewrite Nat2Z.inj_succ, Z.pow_succ_r in Hp by lia;
    apply le_n_S, IH; lia.
Qed.

Lemma length_string_of_uint (d : Decimal.uint) :
  String.length (NilEmpty.string_of_uint d) = Decimal.nb_digits d.
Proof. induction d; cbn [NilEmpty.string_of_uint String.length Decimal.nb_digits]; congruence. Qed.

Lemma length_Itoa_pos (p : positive) (n : nat) :
  Z.pos p < 2 ^ Z.of_nat n ->
  (String.length (NilZero.string_of_uint (Pos.to_uint p)) <= S n)%nat.
Proof.
  intros Hp.
  assert (Hd : (Decimal.nb_digits (Pos.to_uint p) <= n)%nat).
  { unfold Pos.to_uint, Decimal.rev. rewrite nb_digits_revapp.
    cbn [Decimal.nb_digits]. rewrite Nat.add_0_r.
    pose proof (nb_digits_to_little_uint p). pose proof (size_nat_bound p n Hp). lia. }
  unfold NilZero.string_of_uint.
  destruct (Pos.to_uint p) eqn:Hu;
    try (rewrite length_string_of_uint; lia).
  cbn. lia.
Qed.

(** The decimal text of a 64-bit integer is short: 66 bytes are enough. *)
Lemma length_Itoa (z : Z) :
  - 2 ^ 63 <= z < 2 ^ 63 -> (String.length (strconv.Itoa z) <= 66)%nat.
Proof.
  intros Hz. unfold strconv.Itoa. destruct z as [|p|p].
  - cbn. lia.
  - cbn [Z.to_int NilZero.string_of_int].
    pose proof (length_Itoa_pos p 64). 
    assert (Z.pos p < 2 ^ Z.of_nat 64) by (change (2 ^ Z.of_nat 64) with (2 ^ 64); lia).
    lia.
  - cbn [Z.to_int NilZero.string_of_int String.length].
    pose proof (length_Itoa_pos p 64).
    assert (Z.pos p < 2 ^ Z.of_nat 64) by (change (2 ^ Z.of_nat 64) with (2 ^ 64); lia).
    lia.
Qed.

Lemma Itoa_chars (c : ascii) (z : Z) :
  has_char c (strconv.Itoa z) = true ->
  In c ["-"; "0"; "1"; "2"; "3"; "4"; "5"; "6"; "7"; "8"; "9"]%char.
Proof.
  destruct z as [|p|p].
  - intros Hc. right. now apply (Itoa_digits c 0).
  - intros Hc. right. apply (Itoa_digits c (Z.pos p)); [lia | exact Hc].
  - unfold strconv.Itoa. cbn [Z.to_int NilZero.string_of_int has_char].
    intros Hc. apply orb_true_iff in Hc as [Hc | Hc].
    + left. now apply Ascii.eqb_eq in Hc.
    + right. apply (Itoa_digits c (Z.pos p)); [lia | exact Hc].
Qed.

Lemma Itoa_plain_line (z : Z) : - 2 ^ 63 <= z < 2 ^ 63 -> plain_line (strconv.Itoa z).
Proof.
  intros Hz. unfold plain_line.
  split; [apply Itoa_nonempty |]. split; [apply Itoa_no_LF |]. split.
  - destruct (has_char CR (strconv.Itoa z)) eqn:Hc; [| reflexivity].
    apply Itoa_chars in Hc. cbn in Hc.
    repeat (destruct Hc as [Hc | Hc]; [discriminate |]). destruct Hc.
  - unfold slen, blen. rewrite length_bytes_of.
    pose proof (length_Itoa z Hz). unfold bufio.MaxScanTokenSize. lia.
Qed.

(** X11.  The response read back: [splitToLines] on the rendering of the
    sizes, as the tests read the response, returns the decimal text of
    each size, in order and without an error, and [Atoi] of these texts
    gives the sizes again.  The sizes are those of Go's [int] of 64
    bits. *)
Theorem response_scans_back (rs : resSizes) :
  Forall (fun z => - 2 ^ 63 <= z < 2 ^ 63) (s rs) ->
  splitToLines (resSizes_String rs) = (map strconv.Itoa (s rs), None)
  /\ map strconv.Atoi (fst (splitToLines (resSizes_String rs))) = map Some (s rs).
Proof.
  intros Hs.
  assert (Hsplit : splitToLines (resSizes_String rs) = (map strconv.Itoa (s rs), None)).
  { rewrite resSizes_String_join. apply splitToLines_join.
    apply List.Forall_forall. intros l Hin.
    apply in_map_iff in Hin as (z & <- & Hz).
    apply Itoa_plain_line. exact (proj1 (List.Forall_forall _ _) Hs z Hz). }
  split; [exact Hsplit |].
  rewrite Hsplit. cbn [fst]. rewrite map_map.
  apply map_ext. intros z. apply Atoi_Itoa.
Qed.

Lemma response_scans_back_witness :
  splitToLines (resSizes_String (mkResSizes [25000; 0; 25000]))
  = (["25000"; "0"; "25000"], None).
Proof.
  apply (response_scans_back (mkResSizes [25000; 0; 25000])).
  repeat (apply List.Forall_cons; [lia |]). apply List.Forall_nil.
Defined.

(** ** What concurrent callers of [Increment] get back *)

Module OrdinalProofs.
Import Locked LockedProofs.

Lemma results_insert (k : string) (cs : list caller) (t : nat) (c c' : caller) :
  cs !! t = Some c ->
  exists r1 r2,
    results_on k cs = r1 ++ option_list (result_on k c) ++ r2
    /\ results_on k (<[t := c']> cs) = r1 ++ option_list (result_on k c') ++ r2.
Proof.
  intros Ht. apply list_elem_of_split_length in Ht as (l1 & l2 & -> & ->).
  replace (length l1) with (length l1 + 0)%nat by lia.
  rewrite insert_app_r. cbn [list_insert insert].
  exists (results_on k l1), (results_on k l2). unfold results_on.
  rewrite !omap_app. cbn [omap list_omap].
  unfold option_list.
  split; [destruct (result_on k c) | destruct (result_on k c')]; reflexivity.
Qed.

Lemma results_insert_same (k : string) (cs : list caller) (t : nat) (c c' : caller) :
  cs !! t = Some c -> result_on k c = result_on k c' ->
  results_on k (<[t := c']> cs) = results_on k cs.
Proof.
  intros Ht He. destruct (results_insert k cs t c c' Ht) as (r1 & r2 & H1 & H2).
  now rewrite H1, H2, He.
Qed.

Lemma results_insert_new (k : string) (cs : list caller) (t : nat) (c c' : caller) (r : Z) :
  cs !! t = Some c -> result_on k c = None -> result_on k c' = Some r ->
  results_on k (<[t := c']> cs) ≡ₚ results_on k cs ++ [r]
  /\ length (results_on k (<[t := c']> cs)) = S (length (results_on k cs)).
Proof.
  intros Ht Hc Hc'. destruct (results_insert k cs t c c' Ht) as (r1 & r2 & H1 & H2).
  rewrite H1, H2, Hc, Hc'. unfold option_list. cbn [option_rect app]. split.
  - rewrite <- app_assoc. apply Permutation_app_head. apply Permutation_cons_append.
  - rewrite !length_app. cbn [length]. lia.
Qed.

Lemma count_insert_b (P : caller -> bool) (cs : list caller) (t : nat) (c c' : caller)
    (b b' : bool) :
  cs !! t = Some c -> P c = b -> P c' = b' ->
  (count P (<[t := c']> cs) + Nat.b2n b = count P cs + Nat.b2n b')%nat.
Proof.
  intros Ht <- <-. pose proof (count_insert P cs t c c' Ht).
  destruct (P c), (P c'); cbn [Nat.b2n]; lia.
Qed.

Lemma count_le (P Q : caller -> bool) (cs : list caller) :
  (forall c, P c = true -> Q c = true) -> (count P cs <= count Q cs)%nat.
Proof.
  intros HPQ. induction cs as [|c cs IH]; [reflexivity |].
  rewrite !count_cons. destruct (P c) eqn:HP; [rewrite (HPQ c HP) |]; lia.
Qed.

Lemma count_stored_le (k : string) (cs : list caller) :
  (count (stored_on k) cs <= count_occ string_dec (map key cs) k)%nat.
Proof.
  induction cs as [|c cs IH]; [reflexivity |].
  rewrite count_cons. cbn [map count_occ]. unfold stored_on at 1.
  destruct (string_dec (key c) k) as [-> | Hne].
  - destruct (stored c && _); lia.
  - apply String.eqb_neq in Hne. rewrite Hne, andb_false_r. lia.
Qed.

Lemma one_to_S (n : nat) : one_to (S n) = one_to n ++ [Z.of_nat (S n)].
Proof. unfold one_to. now rewrite seq_S, map_app. Qed.

(** A step keeps the results in order. *)
Lemma step_Ordinals (k : string) (t : nat) (st st' : state) :
  Inv st ->
  Z.of_nat (count_occ string_dec (map key (callers st)) k) <= MaxInt32 ->
  Ordinals k st -> step t st = Some st' -> Ordinals k st'.
Proof.
  intros (Hmu & Hcnt & _) Hmax [Hperm Hlen]. unfold step.
  destruct (callers st !! t) as [c|] eqn:Ht; [| discriminate].
  assert (Hmove : forall p,
             result_on k (mkCaller (key c) p) = result_on k c ->
             stored_on k (mkCaller (key c) p) = stored_on k c ->
             returning_on k (mkCaller (key c) p) = returning_on k c ->
             Ordinals k (mkState (mu st) (counter st) (<[t := mkCaller (key c) p]> (callers st)))
             /\ forall m cnt, Ordinals k (mkState m cnt (<[t := mkCaller (key c) p]> (callers st)))).
  { intros p Hres Hst Hret.
    assert (HO : forall m cnt,
               Ordinals k (mkState m cnt (<[t := mkCaller (key c) p]> (callers st)))).
    { intros m cnt. unfold Ordinals. cbn [callers].
      rewrite (results_insert_same k _ t c _ Ht (eq_sym Hres)).
      split; [exact Hperm |].
      pose proof (count_insert (stored_on k) _ t c (mkCaller (key c) p) Ht) as H1.
      pose proof (count_insert (returning_on k) _ t c (mkCaller (key c) p) Ht) as H2.
      rewrite Hst in H1. rewrite Hret in H2. lia. }
    split; [apply HO | exact HO]. }
  destruct (at_pc c) eqn:Hpc.
  - (* [Lock] *)
    destruct (mu st); [discriminate |]. intros [= <-].
    apply Hmove; unfold result_on, stored_on, stored, returning_on;
      cbn [key at_pc]; now rewrite Hpc.
  - intros [= <-].
    apply Hmove; unfold result_on, stored_on, stored, returning_on;
      cbn [key at_pc]; now rewrite Hpc.
  - (* the write: one more increment written, its result not read yet *)
    intros [= <-]. unfold Ordinals. cbn [callers].
    rewrite (results_insert_same k _ t c (mkCaller (key c) AtReturn) Ht)
      by (unfold result_on; cbn [key at_pc]; now rewrite Hpc).
    split; [exact Hperm |].
    pose proof (count_insert_b (stored_on k) _ t c (mkCaller (key c) AtReturn)
                  false (String.eqb (key c) k) Ht) as H1.
    pose proof (count_insert_b (returning_on k) _ t c (mkCaller (key c) AtReturn)
                  false (String.eqb (key c) k) Ht) as H2.
    specialize (H1 ltac:(unfold stored_on, stored; now rewrite Hpc) eq_refl).
    specialize (H2 ltac:(unfold returning_on; now rewrite Hpc) eq_refl).
    destruct (String.eqb (key c) k); cbn [Nat.b2n] in H1, H2; lia.
  - (* the read of the result: the next number *)
    intros [= <-]. unfold Ordinals. cbn [callers].
    pose proof (count_insert_b (stored_on k) _ t c
                  (mkCaller (key c) (AtUnlock (index (counter st) (key c))))
                  (String.eqb (key c) k) (String.eqb (key c) k) Ht) as H1.
    pose proof (count_insert_b (returning_on k) _ t c
                  (mkCaller (key c) (AtUnlock (index (counter st) (key c))))
                  (String.eqb (key c) k) false Ht) as H2.
    specialize (H1 ltac:(unfold stored_on, stored; now rewrite Hpc) eq_refl).
    specialize (H2 ltac:(unfold returning_on; now rewrite Hpc) eq_refl).
    destruct (String.eqb_spec (key c) k) as [Hk | Hk]; cbn [Nat.b2n] in H1, H2.
    + assert (Hone : count (returning_on k) (callers st) = 1%nat).
      { assert (Hge : (1 <= count (returning_on k) (callers st))%nat).
        { apply (count_pos _ _ t c Ht). unfold returning_on. rewrite Hpc.
          now apply String.eqb_eq. }
        assert (Hle : (count (returning_on k) (callers st)
                       <= count holding (callers st))%nat).
        { apply count_le. intros c0. unfold returning_on, holding.
          now destruct (at_pc c0). }
        destruct (mu st); lia. }
      assert (Hr : index (counter st) (key c)
                   = Z.of_nat (S (length (results_on k (callers st))))).
      { rewrite Hk, Hcnt, Hlen, Hone.
        pose proof (count_stored_le k (callers st)).
        rewrite int32_id; [f_equal; lia |].
        unfold MaxInt32 in *. lia. }
      destruct (results_insert_new k (callers st) t c
                  (mkCaller (key c) (AtUnlock (index (counter st) (key c))))
                  (index (counter st) (key c)) Ht) as [Hp Hl].
      * unfold result_on. rewrite Hpc. now destruct (String.eqb (key c) k).
      * unfold result_on. cbn [key at_pc]. apply String.eqb_eq in Hk. now rewrite Hk.
      * split.
        -- rewrite Hl, one_to_S, Hp, <- Hr. now apply Permutation_app_tail.
        -- rewrite Hl. lia.
    + rewrite (results_insert_same k _ t c _ Ht).
      * split; [exact Hperm | lia].
      * unfold result_on. cbn [key at_pc]. apply String.eqb_neq in Hk. now rewrite Hk.
  - (* [Unlock] *)
    intros [= <-].
    apply Hmove; unfold result_on, stored_on, stored, returning_on;
      cbn [key at_pc]; now rewrite Hpc.
  - discriminate.
Qed.

Lemma Ordinals_init (k : string) (ids : list string) : Ordinals k (init ids).
Proof.
  unfold Ordinals, init. cbn [callers].
  assert (Hnil : results_on k (map (fun k0 => mkCaller k0 AtLock) ids) = []).
  { induction ids as [|i ids IH]; [reflexivity |].
    cbn [map]. unfold results_on in *. cbn [omap list_omap].
    fold (omap (result_on k) (map (fun k0 => mkCaller k0 AtLock) ids)).
    rewrite IH. unfold result_on. cbn [key at_pc]. now destruct (String.eqb i k). }
  rewrite Hnil. split; [reflexivity |].
  rewrite !count_init; [reflexivity | reflexivity | reflexivity].
Qed.

Lemma exec_Ordinals (k : string) (sched : list nat) :
  forall st,
    Inv st ->
    Z.of_nat (count_occ string_dec (map key (callers st)) k) <= MaxInt32 ->
    Ordinals k st -> Ordinals k (exec sched st).
Proof.
  induction sched as [|t sched IH]; intros st HInv Hmax HO; [exact HO |].
  destruct (step t st) as [st'|] eqn:Hstep.
  - rewrite (exec_step t sched st st' Hstep). apply IH.
    + exact (step_Inv t st st' HInv Hstep).
    + now rewrite (step_keys t st st' Hstep).
    + exact (step_Ordinals k t st st' HInv Hmax HO Hstep).
  - cbn [exec]. rewrite Hstep. now apply IH.
Qed.

Lemma returned_not_returning (k : string) (cs : list caller) :
  forallb has_returned cs = true -> count (returning_on k) cs = 0%nat.
Proof.
  induction cs as [|c cs IH]; [reflexivity |].
  cbn [forallb]. intros Hall. apply andb_true_iff in Hall as [Hc Hcs].
  rewrite count_cons, (IH Hcs). unfold returning_on. unfold has_returned in Hc.
  now destruct (at_pc c).
Qed.

(** When all callers have returned, the results for a key are the
    numbers from 1 to the number of its callers, in some order. *)
Lemma results_all_returned (ids : list string) (sched : list nat) (k : string) :
  Z.of_nat (count_occ string_dec ids k) <= MaxInt32 ->
  all_returned (exec sched (init ids)) = true ->
  results_on k (callers (exec sched (init ids))) ≡ₚ one_to (count_occ string_dec ids k).
Proof.
  intros Hmax Hall.
  destruct (exec_Ordinals k sched (init ids)) as [Hperm Hlen].
  - apply Inv_init.
  - now rewrite map_key_init.
  - apply Ordinals_init.
  - rewrite (returned_not_returning k _ Hall), Nat.add_0_r in Hlen.
    rewrite (count_all_returned k _ Hall) in Hlen.
    rewrite exec_keys, map_key_init in Hlen.
    now rewrite <- Hlen in Hperm.
Qed.

Lemma Permutation_filter_length (f : Z -> bool) (l l' : list Z) :
  l ≡ₚ l' -> length (List.filter f l) = length (List.filter f l').
Proof.
  induction 1 as [|x l l' _ IH|x y l|l l' l'' _ IH1 _ IH2]; cbn [List.filter].
  - reflexivity.
  - destruct (f x); cbn [length]; now rewrite IH.
  - destruct (f x), (f y); reflexivity.
  - now rewrite IH1.
Qed.

Lemma filter_one_to (L : Z) (n : nat) :
  length (List.filter (fun current => negb (L <? current)) (one_to n))
  = Nat.min n (Z.to_nat L).
Proof.
  induction n as [|n IH]; [reflexivity |].
  rewrite one_to_S, List.filter_app, length_app, IH. cbn [List.filter].
  destruct (Z.ltb_spec L (Z.of_nat (S n))); cbn [negb length]; lia.
Qed.

End OrdinalProofs.

(** X12.  Callers of [Increment] for one key that run at the same time
    get the numbers 1, 2, ..., n back, each number once, whatever the
    interleaving, when n of them have run to their end after a reset and
    n is in the range of [int32].  So no two requests of a window see
    the same count. *)
Theorem concurrent_results_are_ordinals (ids : list string) (sched : list nat)
    (k : string) :
  Z.of_nat (count_occ string_dec ids k) <= MaxInt32 ->
  Locked.all_returned (Locked.exec sched (Locked.init ids)) = true ->
  results_on k (Locked.callers (Locked.exec sched (Locked.init ids)))
  ≡ₚ one_to (count_occ string_dec ids k)
  /\ NoDup (results_on k (Locked.callers (Locked.exec sched (Locked.init ids)))).
Proof.
  intros Hmax Hall.
  pose proof (OrdinalProofs.results_all_returned ids sched k Hmax Hall) as Hperm.
  split; [exact Hperm |].
  rewrite Hperm. unfold one_to.
  apply NoDup_fmap_2; [intros a b; apply Nat2Z.inj | apply NoDup_seq].
Qed.

Lemma concurrent_results_are_ordinals_witness :
  results_on "a"
    (Locked.callers
       (Locked.exec [0; 1; 2; 0; 1; 0; 2; 0; 0; 2; 1; 2; 2; 1; 2; 2; 1; 1; 1; 1; 1]%nat
          (Locked.init ["a"; "b"; "a"])))
  ≡ₚ one_to 2.
Proof.
  apply (concurrent_results_are_ordinals ["a"; "b"; "a"]
           [0; 1; 2; 0; 1; 0; 2; 0; 0; 2; 1; 2; 2; 1; 2; 2; 1; 1; 1; 1; 1]%nat "a").
  - vm_compute. discriminate.
  - vm_compute. reflexivity.
Defined.

(** X13.  The limiter lets a request pass when the count it got from
    [Increment] is not above the limit.  Take n requests of one key that
    call [Increment] at the same time in a new window, n not more than
    the largest [int32], 2^31 - 1, so that no count wraps around.  Then
    as many of them get such a count as the limit allows and no more,
    whatever the interleaving: all n when n is not above the limit, as
    many as the limit when n is above it, and none when the limit is
    zero or less. *)
Theorem concurrent_requests_within_limit (L : Z) (ids : list string)
    (sched : list nat) (k : string) :
  Z.of_nat (count_occ string_dec ids k) <= MaxInt32 ->
  Locked.all_returned (Locked.exec sched (Locked.init ids)) = true ->
  length (List.filter (fun current => negb (L <? current))
            (results_on k (Locked.callers (Locked.exec sched (Locked.init ids)))))
  = Nat.min (count_occ string_dec ids k) (Z.to_nat L).
Proof.
  intros Hmax Hall.
  rewrite (OrdinalProofs.Permutation_filter_length _ _ _
             (OrdinalProofs.results_all_returned ids sched k Hmax Hall)).
  apply OrdinalProofs.filter_one_to.
Qed.

Lemma concurrent_requests_within_limit_witness :
  length (List.filter (fun current => negb (1 <? current))
            (results_on "a"
               (Locked.callers
                  (Locked.exec
                     [0; 1; 2; 0; 1; 0; 2; 0; 0; 2; 1; 2; 2; 1; 2; 2; 1; 1; 1; 1; 1]%nat
                     (Locked.init ["a"; "b"; "a"])))))
  = 1%nat.
Proof.
  apply (concurrent_requests_within_limit 1 ["a"; "b"; "a"]
           [0; 1; 2; 0; 1; 0; 2; 0; 0; 2; 1; 2; 2; 1; 2; 2; 1; 1; 1; 1; 1]%nat "a").
  - vm_compute. discriminate.
  - vm_compute. reflexivity.
Defined.

(** ** The key of a request *)

Lemma IndexByte_absent (b : list ascii) (c : ascii) : ~ In c b -> IndexByte b c = -1.
Proof.
  induction b as [|x b IH]; intros Hno; [reflexivity |].
  cbn [IndexByte].
  destruct (Ascii.eqb_spec x c) as [-> | _]; [exfalso; apply Hno; now left |].
  rewrite IH by (intros Hin; apply Hno; now right). reflexivity.
Qed.

Lemma IndexByte_first (a r : list ascii) (c : ascii) :
  ~ In c a -> IndexByte (a ++ c :: r) c = blen a.
Proof.
  induction a as [|x a IH]; intros Hno.
  - cbn [app IndexByte]. now rewrite Ascii.eqb_refl.
  - cbn [app IndexByte].
    destruct (Ascii.eqb_spec x c) as [-> | _]; [exfalso; apply Hno; now left |].
    rewrite IH by (intros Hin; apply Hno; now right).
    pose proof (blen_nonneg a).
    destruct (Z.ltb_spec (blen a) 0); [lia |]. unfold blen. cbn [length]. lia.
Qed.

Lemma bto_app_length (a r : list ascii) : bto (a ++ r) (blen a) = a.
Proof. unfold bto, blen. rewrite Nat2Z.id. apply take_app_length. Qed.

Lemma bfrom_app_length (a r : list ascii) (n : Z) :
  n = blen a -> bfrom (a ++ r) n = r.
Proof. intros ->. unfold bfrom, blen. rewrite Nat2Z.id. apply drop_app_length. Qed.

Lemma not_In_app (c : ascii) (a b : list ascii) :
  ~ In c a -> ~ In c b -> ~ In c (a ++ b).
Proof. intros Ha Hb Hin. apply in_app_or in Hin. tauto. Qed.

Lemma SplitHostPort_plain (host port : string) :
  bare host -> bare port ->
  net.SplitHostPort (host +:+ ":" +:+ port) = inl (host, port).
Proof.
  intros (Hc & Ho & Hcl) (Hpc & Hpo & Hpcl).
  apply has_char_bytes in Hc, Ho, Hcl, Hpc, Hpo, Hpcl.
  set (h := bytes_of host) in *. set (p := bytes_of port) in *.
  assert (Hb : bytes_of (host +:+ ":" +:+ port) = h ++ ":"%char :: p).
  { now rewrite !bytes_of_append. }
  assert (Hlen : slen (host +:+ ":" +:+ port) = blen h + 1 + blen p).
  { unfold slen. rewrite Hb, blen_app. unfold blen. cbn [length]. lia. }
  assert (Hi : sLastIndexByte (host +:+ ":" +:+ port) ":" = blen h).
  { unfold sLastIndexByte. rewrite Hlen, Hb, rev_app_distr. cbn [rev].
    rewrite <- app_assoc. cbn [app].
    rewrite IndexByte_first by (rewrite <- in_rev; exact Hpc).
    pose proof (blen_nonneg (rev p)).
    destruct (Z.ltb_spec (blen (rev p)) 0); [lia |].
    unfold blen. rewrite length_rev. lia. }
  pose proof (blen_nonneg h) as Hh.
  unfold net.SplitHostPort. cbv zeta. rewrite Hi.
  destruct (Z.ltb_spec (blen h) 0) as [Hneg | _]; [lia |].
  assert (Hfirst : Ascii.eqb (sat (host +:+ ":" +:+ port) 0) "[" = false).
  { unfold sat. rewrite Hb. apply Ascii.eqb_neq.
    change (Z.to_nat 0) with 0%nat.
    destruct h as [|x h']; cbn [app nth]; [discriminate |].
    intros Hx. apply Ho. now left. }
  rewrite Hfirst.
  assert (Hsto : sto (host +:+ ":" +:+ port) (blen h) = host).
  { unfold sto. rewrite Hb, bto_app_length. apply string_of_bytes_of. }
  rewrite Hsto. unfold sIndexByte. fold h.
  rewrite (IndexByte_absent h ":" Hc). cbn [Z.leb Z.compare].
  unfold sfrom at 1 2. rewrite Hb. rewrite !bfrom_0, !bytes_of_string_of.
  rewrite (IndexByte_absent (h ++ ":"%char :: p) "[")
    by (apply not_In_app; [exact Ho | intros [Hx | Hx]; [discriminate | tauto]]).
  rewrite (IndexByte_absent (h ++ ":"%char :: p) "]")
    by (apply not_In_app; [exact Hcl | intros [Hx | Hx]; [discriminate | tauto]]).
  cbn [Z.leb Z.compare].
  unfold sfrom. rewrite Hb.
  replace (h ++ ":"%char :: p) with ((h ++ [":"%char]) ++ p)
    by (now rewrite <- app_assoc).
  rewrite bfrom_app_length
    by (rewrite blen_app; unfold blen; cbn [length]; lia).
  unfold p. now rewrite string_of_bytes_of.
Qed.

Lemma SplitHostPort_bracketed (host port : string) :
  has_char "[" host = false -> has_char "]" host = false -> bare port ->
  net.SplitHostPort ("[" +:+ host +:+ "]:" +:+ port) = inl (host, port).
Proof.
  intros Ho Hcl (Hpc & Hpo & Hpcl).
  apply has_char_bytes in Ho, Hcl, Hpc, Hpo, Hpcl.
  set (h := bytes_of host) in *. set (p := bytes_of port) in *.
  set (hp := "[" +:+ host +:+ "]:" +:+ port).
  assert (Hb : bytes_of hp = "["%char :: h ++ "]"%char :: ":"%char :: p).
  { unfold hp. now rewrite !bytes_of_append. }
  pose proof (blen_nonneg h) as Hh. pose proof (blen_nonneg p) as Hp.
  assert (Hlen : slen hp = blen h + 3 + blen p).
  { unfold slen. rewrite Hb. unfold blen. cbn [length]. rewrite length_app.
    cbn [length]. lia. }
  assert (Hi : sLastIndexByte hp ":" = blen h + 2).
  { unfold sLastIndexByte. rewrite Hlen, Hb.
    replace ("["%char :: h ++ "]"%char :: ":"%char :: p)
      with (("["%char :: h ++ ["]"%char]) ++ ":"%char :: p)
      by (cbn [app]; now rewrite <- app_assoc).
    rewrite rev_app_distr. cbn [rev]. rewrite <- app_assoc. cbn [app].
    rewrite IndexByte_first by (rewrite <- in_rev; exact Hpc).
    pose proof (blen_nonneg (rev p)).
    destruct (Z.ltb_spec (blen (rev p)) 0); [lia |].
    unfold blen. rewrite length_rev. unfold blen in *. lia. }
  assert (Hend : sIndexByte hp "]" = blen h + 1).
  { unfold sIndexByte. rewrite Hb.
    change ("["%char :: h ++ "]"%char :: ":"%char :: p)
      with (("["%char :: h) ++ "]"%char :: ":"%char :: p).
    rewrite IndexByte_first.
    - unfold blen. cbn [length]. lia.
    - intros [Hx | Hx]; [discriminate | tauto]. }
  unfold net.SplitHostPort. cbv zeta. fold hp. rewrite Hi, Hend, Hlen.
  destruct (Z.ltb_spec (blen h + 2) 0) as [Hneg | _]; [lia |].
  assert (Hfirst : Ascii.eqb (sat hp 0) "[" = true).
  { unfold sat. rewrite Hb. reflexivity. }
  rewrite Hfirst.
  destruct (Z.ltb_spec (blen h + 1) 0) as [Hneg | _]; [lia |].
  destruct (Z.eqb_spec (blen h + 1 + 1) (blen h + 3 + blen p)) as [He | _]; [lia |].
  destruct (Z.eqb_spec (blen h + 1 + 1) (blen h + 2)) as [_ | Hne]; [| lia].
  assert (Hhost : sslice hp 1 (blen h + 1) = host).
  { unfold sslice. rewrite Hb.
    change (bfrom ("["%char :: h ++ "]"%char :: ":"%char :: p) 1)
      with (h ++ "]"%char :: ":"%char :: p).
    replace (blen h + 1 - 1) with (blen h) by lia.
    rewrite bto_app_length. apply string_of_bytes_of. }
  rewrite Hhost.
  assert (Hfrom1 : bytes_of (sfrom hp 1) = h ++ "]"%char :: ":"%char :: p).
  { unfold sfrom. rewrite Hb, bytes_of_string_of. reflexivity. }
  assert (Hfrom2 : bytes_of (sfrom hp (blen h + 1 + 1)) = ":"%char :: p).
  { unfold sfrom. rewrite Hb, bytes_of_string_of.
    replace ("["%char :: h ++ "]"%char :: ":"%char :: p)
      with (("["%char :: h ++ ["]"%char]) ++ ":"%char :: p)
      by (cbn [app]; now rewrite <- app_assoc).
    apply bfrom_app_length. unfold blen. cbn [length]. rewrite length_app.
    cbn [length]. lia. }
  unfold sIndexByte. rewrite Hfrom1, Hfrom2.
  rewrite (IndexByte_absent (h ++ "]"%char :: ":"%char :: p) "[")
    by (apply not_In_app; [exact Ho |];
        intros [Hx | [Hx | Hx]]; [discriminate | discriminate | tauto]).
  rewrite (IndexByte_absent (":"%char :: p) "]")
    by (intros [Hx | Hx]; [discriminate | tauto]).
  cbn [Z.leb Z.compare].
  unfold sfrom. rewrite Hb.
  replace ("["%char :: h ++ "]"%char :: ":"%char :: p)
    with (("["%char :: h ++ ["]"%char; ":"%char]) ++ p)
    by (cbn [app]; now rewrite <- app_assoc).
  rewrite bfrom_app_length
    by (unfold blen; cbn [length]; rewrite length_app; cbn [length]; lia).
  unfold p. now rewrite string_of_bytes_of.
Qed.

(** X14.  The key of a request is the host of its peer address and the
    port plays no part in it: an address [host:port] gives [host], and an
    address [[host]:port], as for IPv6, gives [host] without the
    brackets.  So all the connections of one host share one counter. *)
Theorem requestIP_is_the_host (req : http.Request) (host port : string) :
  bare port ->
  (bare host -> http.RemoteAddr req = host +:+ ":" +:+ port ->
   requestIP req = inl host)
  /\ (has_char "[" host = false -> has_char "]" host = false ->
      http.RemoteAddr req = "[" +:+ host +:+ "]:" +:+ port ->
      requestIP req = inl host).
Proof.
  intros Hport. unfold requestIP. split.
  - intros Hhost ->. now rewrite SplitHostPort_plain.
  - intros Ho Hc ->. now rewrite SplitHostPort_bracketed.
Qed.

Lemma requestIP_is_the_host_witness :
  requestIP (rq "[::1]:8080") = inl "::1".
Proof.
  refine (proj2 (requestIP_is_the_host (rq "[::1]:8080") "::1" "8080" _) _ _ _);
    vm_compute; tauto.
Defined.

(** ** A POST of URLs, from the body to the answer *)

(** X16.  A POST whose body can be read and scanned and whose lines of
    text are all URLs is answered 200 on a new recorder, with one decimal
    number for each line, joined by line feeds: the number of bytes the
    client read for the URL of that line, in the order in which the
    fetches ended.  The handler keeps the URLs and these sizes. *)
Theorem post_of_urls_answered (url_Parse : string -> option net_url.URL)
    (h : ResponseSizeCounter) (sched : Sched) (req : http.Request) :
  http.Method req = http.MethodPost ->
  failure (http.Body req) = None ->
  scannable (content (http.Body req)) ->
  Forall (fun l => isUrl url_Parse l = true) (text_lines (content (http.Body req))) ->
  exists order,
    order ≡ₚ text_lines (content (http.Body req))
    /\ RSC_ServeHTTP url_Parse h sched http.NewRecorder req
       = (mkRSC (text_lines (content (http.Body req)))
            (mkResSizes (map (bytes_read (client h)) order)) (client h),
          http.mkWriter 200 true
            (join_lines (map strconv.Itoa (map (bytes_read (client h)) order))) None).
Proof.
  intros Hm Hread Hscan Hurls.
  set (lines := text_lines (content (http.Body req))) in *.
  assert (Hget : getUrls url_Parse h req = (mkRSC lines (sizes h) (client h), None)).
  { rewrite (getUrls_read url_Parse h req Hread). unfold splitToLines_spec.
    rewrite (scan_lines_ok _ Hscan). fold (text_lines (content (http.Body req))).
    fold lines. now rewrite (getUrls_range_ok url_Parse lines _ Hurls). }
  destruct (getRespSizes_sizes (mkRSC lines (sizes h) (client h)) sched)
    as (order & Hperm & Hs).
  exists order. split; [exact Hperm |].
  destruct (serve_getUrls_ok url_Parse h _ sched http.NewRecorder req Hget)
    as (Hfst & _ & Hsnd).
  specialize (Hsnd eq_refl eq_refl).
  unfold RSC_ServeHTTP. rewrite Hm.
  replace (String.eqb http.MethodPost http.MethodPost) with true by reflexivity.
  assert (Hmap : map (fun u => fst (doGet (mkRSC lines (sizes h) (client h)) u)) order
                 = map (bytes_read (client h)) order).
  { apply map_ext. intros u.
    apply (doGet_bytes_read (mkRSC lines (sizes h) (client h)) u). }
  rewrite Hmap in Hs.
  destruct (serve url_Parse h sched http.NewRecorder req) as [h2 w2].
  cbn [fst snd] in Hfst, Hsnd. subst h2 w2.
  rewrite resSizes_String_join, Hs. f_equal.
  unfold getRespSizes in *. cbn [getRespSizes_fanout fst urls client sizes] in *.
  f_equal. destruct (f_sizes _) as [l]. cbn [s] in Hs. now rewrite Hs.
Qed.

Lemma post_of_urls_answered_witness :
  exists order,
    order ≡ₚ text_lines (content (http.Body (post three_urls)))
    /\ RSC_ServeHTTP net_url.Parse (counter_with flaky) [] http.NewRecorder (post three_urls)
       = (mkRSC (text_lines (content (http.Body (post three_urls))))
            (mkResSizes (map (bytes_read (client (counter_with flaky))) order))
            (client (counter_with flaky)),
          http.mkWriter 200 true
            (join_lines (map strconv.Itoa
                           (map (bytes_read (client (counter_with flaky))) order))) None).
Proof.
  apply (post_of_urls_answered net_url.Parse (counter_with flaky) [] (post three_urls)).
  - reflexivity.
  - reflexivity.
  - apply scannable_by_computation. vm_compute. reflexivity.
  - change (content (http.Body (post three_urls))) with three_urls.
    rewrite text_lines_three_urls.
    repeat (apply List.Forall_cons; [vm_compute; reflexivity |]).
    apply List.Forall_nil.
Defined.

(** ** A connection that is gone *)

(** X17.  When the response cannot be written the handler calls
    [http.Error] with the status 500, but the header has gone out with
    the write that failed: the status stays 200 and nothing is added to
    the body, the line of the error neither. *)
Theorem write_failure_keeps_200 (url_Parse : string -> option net_url.URL)
    (h : ResponseSizeCounter) (sched : Sched) (w : http.ResponseWriter)
    (req : http.Request) (e : string) :
  http.Method req = http.MethodPost ->
  snd (getUrls url_Parse h req) = None ->
  http.wroteHeader w = false ->
  http.writeErr w = Some e ->
  snd (RSC_ServeHTTP url_Parse h sched w req)
  = http.mkWriter 200 true (http.Written w) (Some e).
Proof.
  intros Hm Hget Hhead Herr.
  unfold RSC_ServeHTTP. rewrite Hm.
  replace (String.eqb http.MethodPost http.MethodPost) with true by reflexivity.
  unfold serve. destruct (getUrls url_Parse h req) as [h1 e1].
  cbn [snd] in Hget. subst e1.
  unfold getRespSizes, getRespSizes_fanout. cbn [fst snd sizes].
  destruct w as [code head written werr]. cbn in Hhead, Herr. subst head werr.
  reflexivity.
Qed.

Lemma write_failure_keeps_200_witness :
  snd (RSC_ServeHTTP net_url.Parse (counter_with flaky) []
         (http.mkWriter 200 false "" (Some "broken pipe")) (post three_urls))
  = http.mkWriter 200 true "" (Some "broken pipe").
Proof.
  apply (write_failure_keeps_200 net_url.Parse (counter_with flaky) []
           (http.mkWriter 200 false "" (Some "broken pipe")) (post three_urls)
           "broken pipe"); vm_compute; reflexivity.
Defined.

(** ** The handler [MakeResponseSizeCounter] makes *)

(** X18.  [MakeResponseSizeCounter] puts the handler behind a limiter of
    999 requests: the first 999 requests of a key are answered by the
    handler as if there were no limiter, and the next request of the key
    is answered 429 without reaching the handler. *)
Theorem service_limit_999 (url_Parse : string -> option net_url.URL)
    (DefaultClient : Getter) (k : string) (reqs : list (Sched * http.Request))
    (sched : Sched) (req : http.Request) :
  length reqs = 999%nat ->
  Forall (from_key k) reqs ->
  requestIP req = inl k ->
  let served := Service_run url_Parse (serve_events reqs)
                  (MakeResponseSizeCounter DefaultClient) in
  snd served = snd (@feed _ (RSC_Handler url_Parse) reqs (counter_with DefaultClient))
  /\ Service_ServeHTTP url_Parse (fst served) sched http.NewRecorder req
     = (mkRateLimiter 999
          (mkStatHolder (<[k := 1000]> (counter (stat (fst served)))))
          (next (fst served)),
        http.mkWriter 429 true ("Too Many Requests" +:+ nl) None).
Proof.
  intros Hlen Hkeys Hk. cbv zeta. unfold Service_run, Service_ServeHTTP.
  destruct (@run_within_limit _ (RSC_Handler url_Parse) k reqs
              (MakeResponseSizeCounter DefaultClient) Hkeys)
    as (sh & Hrun & Hidx).
  - cbn. rewrite index_empty. lia.
  - cbn [MakeResponseSizeCounter RateLimit stat counter NewStatHolder limit].
    rewrite index_empty, Hlen. unfold defaultRateLimit. lia.
  - cbn [MakeResponseSizeCounter RateLimit stat counter NewStatHolder limit].
    rewrite index_empty, Hlen. unfold MaxInt32. lia.
  - rewrite Hrun. cbn [fst snd]. split; [reflexivity |].
    cbn [MakeResponseSizeCounter RateLimit stat counter NewStatHolder limit next] in *.
    rewrite index_empty, Hlen in Hidx.
    change (@RateLimiter_ServeHTTP StatHolder ResponseSizeCounter StatHolder_Stat
              (RSC_Handler url_Parse))
      with (@ServeHTTP _ (@RateLimiter_Handler _ _ StatHolder_Stat (RSC_Handler url_Parse))).
    rewrite (@over_limit _ (RSC_Handler url_Parse) _ k sched _ req Hk);
      cbn [limit stat counter next]; rewrite Hidx;
      [reflexivity | lia | unfold defaultRateLimit, MaxInt32; lia].
Qed.

Lemma service_limit_999_witness :
  http.Code
    (snd (Service_ServeHTTP net_url.Parse
            (fst (Service_run net_url.Parse
                    (serve_events (repeat ([] : Sched, rq "127.0.0.1:80") 999))
                    (MakeResponseSizeCounter flaky)))
            [] http.NewRecorder (rq "127.0.0.1:80")))
  = 429.
Proof.
  destruct (service_limit_999 net_url.Parse flaky "127.0.0.1"
              (repeat ([] : Sched, rq "127.0.0.1:80") 999) [] (rq "127.0.0.1:80"))
    as [_ Hlast].
  - apply repeat_length.
  - apply from_key_repeat. reflexivity.
  - reflexivity.
  - rewrite Hlast. reflexivity.
Defined.

(** ** One request in flight *)

(** X19.  A request that is alone on the handler, taken step by step as
    the goroutines go, [getUrls], the start of the fetches, the end of
    each fetch and the write, is answered as [ServeHTTP] answers it and
    leaves the handler as [ServeHTTP] leaves it. *)
Theorem in_flight_alone (url_Parse : string -> option net_url.URL)
    (h : ResponseSizeCounter) (sched : Sched) (req : http.Request) :
  let final :=
    InFlight.exec url_Parse
      (InFlight.alone 0 sched (length (urls (fst (getUrls url_Parse h req)))))
      (InFlight.mkState h [InFlight.Arrived req]) in
  InFlight.answer final 0
  = Some (snd (RSC_ServeHTTP url_Parse h sched http.NewRecorder req))
  /\ InFlight.handler final = fst (RSC_ServeHTTP url_Parse h sched http.NewRecorder req).
Proof.
  cbv zeta. rewrite InFlightProofs.exec_alone. split; reflexivity.
Qed.

(** ** The lock of the counter store *)

(** X20.  Whatever the interleaving of the callers of [Increment], at
    most one of them is between [Lock] and [Unlock], the lock is taken
    exactly when one is, and the caller about to write the counter of its
    key holds the value the counter has: no increment is lost. *)
Theorem increment_is_atomic (ids : list string) (sched : list nat) :
  let st := Locked.exec sched (Locked.init ids) in
  (Locked.count Locked.holding (Locked.callers st) <= 1)%nat
  /\ (Locked.mu st = true <-> Locked.count Locked.holding (Locked.callers st) = 1%nat)
  /\ (forall t c v,
        Locked.callers st !! t = Some c -> Locked.at_pc c = Locked.AtStore v ->
        v = index (Locked.counter st) (Locked.key c))
  /\ (forall k,
        index (Locked.counter st) k
        = int32 (Z.of_nat (Locked.count (Locked.stored_on k) (Locked.callers st)))).
Proof.
  cbv zeta.
  destruct (LockedProofs.exec_Inv sched (Locked.init ids) (LockedProofs.Inv_init ids))
    as (Hmu & Hcnt & Hread).
  repeat split.
  - rewrite Hmu. destruct (Locked.mu _); lia.
  - intros Hm. now rewrite Hmu, Hm.
  - intros Hone. rewrite Hone in Hmu. now destruct (Locked.mu _).
  - exact Hread.
  - exact Hcnt.
Qed.

(** ** Lines that are no URLs *)

Module UrlProofs.
Import net_url.




End UrlProofs.



(** ** Lines that are URLs *)

Module UrlAccepted.
Import net_url.

(** What the bytes of a host name are not, and what they are. *)
Lemma host_name_byte_facts (c : ascii) :
  host_name_byte c = true ->
  ((c <? " ")%char || Ascii.eqb c "127"%char = false)
  /\ c <> "#"%char /\ c <> "?"%char /\ c <> "/"%char /\ c <> ":"%char
  /\ c <> "@"%char /\ c <> "["%char
  /\ Ascii.eqb c "%" = false
  /\ host_byte_ok c = true.
Proof.
  destruct c as [[] [] [] [] [] [] [] []]; vm_compute; intros Hc;
    try discriminate Hc; repeat split; discriminate.
Qed.

Lemma letter_facts (c : ascii) :
  is_lower c || is_upper c = true ->
  ((c <? " ")%char || Ascii.eqb c "127"%char = false)
  /\ c <> "#"%char /\ c <> "?"%char /\ c <> "*"%char.
Proof.
  destruct c as [[] [] [] [] [] [] [] []]; vm_compute; intros Hc;
    try discriminate Hc; repeat split; discriminate.
Qed.

Lemma forallb_In (f : ascii -> bool) (b : list ascii) (c : ascii) :
  forallb f b = true -> In c b -> f c = true.
Proof. intros Hall Hin. exact (proj1 (forallb_forall f b) Hall c Hin). Qed.

Lemma getScheme_from_letters (rawURL : string) (r : list ascii) (sb : list ascii) :
  forall i : Z,
    forallb (fun c => is_lower c || is_upper c) sb = true ->
    0 <= i -> 0 < i + blen sb ->
    getScheme_from rawURL i (sb ++ ":"%char :: r)
    = Some (sto rawURL (i + blen sb), sfrom rawURL (i + blen sb + 1)).
Proof.
  induction sb as [|c sb IH]; intros i Hall Hi Hpos.
  - cbn [app getScheme_from]. change (blen []) with 0 in *.
    replace (is_lower ":" || is_upper ":") with false by reflexivity.
    replace (is_digit ":" || one_of "+-." ":") with false by reflexivity.
    replace (Ascii.eqb ":" ":") with true by reflexivity.
    destruct (Z.eqb_spec i 0) as [He | _]; [lia |].
    now rewrite Z.add_0_r.
  - cbn [forallb] in Hall. apply andb_true_iff in Hall as [Hc Hall].
    cbn [app getScheme_from]. rewrite Hc.
    pose proof (blen_nonneg sb).
    assert (Hlen : blen (c :: sb) = 1 + blen sb) by (unfold blen; cbn [length]; lia).
    rewrite Hlen in *.
    rewrite (IH (i + 1) Hall) by lia.
    do 2 f_equal; f_equal; lia.
Qed.

Lemma host_ok_name (hb : list ascii) : forallb host_name_byte hb = true -> host_ok hb = true.
Proof.
  induction hb as [|c hb IH]; [reflexivity |].
  cbn [forallb]. intros Hall. apply andb_true_iff in Hall as [Hc Hall].
  destruct (host_name_byte_facts c Hc) as (_ & _ & _ & _ & _ & _ & _ & Hpc & Hok).
  cbn [host_ok]. rewrite Hpc, Hok, (IH Hall). now rewrite orb_true_r.
Qed.

Lemma not_In_name (c : ascii) (hb : list ascii) :
  forallb host_name_byte hb = true -> host_name_byte c = false -> ~ In c hb.
Proof.
  intros Hall Hc Hin. rewrite (forallb_In _ _ _ Hall Hin) in Hc. discriminate.
Qed.

Lemma sLastIndexByte_absent (str : string) (c : ascii) :
  ~ In c (bytes_of str) -> sLastIndexByte str c = -1.
Proof.
  intros Hno. unfold sLastIndexByte.
  rewrite IndexByte_absent by (rewrite <- in_rev; exact Hno). reflexivity.
Qed.

(** The parser on a scheme of letters, [://] and a host name. *)
Lemma parse_scheme_host (scheme host : string) :
  letters scheme -> host_name host ->
  parse (scheme +:+ "://" +:+ host) = Some (mkURL (ToLower scheme) host).
Proof.
  intros [Hsne Hs] [Hhne Hh].
  set (sb := bytes_of scheme) in *. set (hb := bytes_of host) in *.
  set (raw := scheme +:+ "://" +:+ host).
  assert (Hb : bytes_of raw = sb ++ ":"%char :: "/"%char :: "/"%char :: hb).
  { unfold raw. now rewrite !bytes_of_append. }
  pose proof (blen_nonneg sb) as Hsb.
  assert (Hsb1 : 0 < blen sb).
  { destruct sb as [|c sb'] eqn:Hsbe; [| unfold blen; cbn [length]; lia].
    exfalso. apply Hsne. rewrite <- (string_of_bytes_of scheme). fold sb.
    now rewrite Hsbe. }
  (* no control byte *)
  assert (Hctl : stringContainsCTLByte raw = false).
  { unfold stringContainsCTLByte. rewrite Hb.
    apply not_true_is_false. intros Hex.
    apply existsb_exists in Hex as (c & Hin & Hc).
    apply in_app_or in Hin as [Hin | [<- | [<- | [<- | Hin]]]];
      try discriminate Hc.
    - destruct (letter_facts c (forallb_In _ _ _ Hs Hin)) as (Hx & _). congruence.
    - destruct (host_name_byte_facts c (forallb_In _ _ _ Hh Hin)) as (Hx & _).
      congruence. }
  assert (Hstar : String.eqb raw "*" = false).
  { apply String.eqb_neq. intros He. apply (f_equal bytes_of) in He.
    rewrite Hb in He. destruct sb as [|c [|c' sb']]; cbn in He; discriminate. }
  assert (Hsch : getScheme raw
                 = Some (scheme, "//" +:+ host)).
  { unfold getScheme. rewrite Hb.
    rewrite (getScheme_from_letters raw _ sb 0 Hs) by lia.
    rewrite Z.add_0_l. f_equal. f_equal.
    - unfold sto. rewrite Hb, bto_app_length. apply string_of_bytes_of.
    - unfold sfrom. rewrite Hb.
      replace (sb ++ ":"%char :: "/"%char :: "/"%char :: hb)
        with ((sb ++ [":"%char]) ++ "/"%char :: "/"%char :: hb)
        by (now rewrite <- app_assoc).
      rewrite bfrom_app_length
        by (rewrite blen_app; unfold blen; cbn [length]; lia).
      unfold hb. cbn [string_of string_of_list_ascii].
      fold (string_of (bytes_of host)). now rewrite string_of_bytes_of. }
  assert (Hlow : String.eqb (ToLower scheme) "" = false).
  { apply String.eqb_neq. unfold ToLower. fold sb. intros He.
    apply string_of_nil_iff in He. destruct sb; [| discriminate].
    unfold blen in Hsb1. cbn in Hsb1. lia. }
  assert (Hrb : bytes_of ("//" +:+ host) = "/"%char :: "/"%char :: hb) by reflexivity.
  assert (Hno : forall c, host_name_byte c = false -> c <> "/"%char ->
                          ~ In c (bytes_of ("//" +:+ host))).
  { intros c Hc Hslash. rewrite Hrb. intros [Hx | [Hx | Hin]]; [congruence | congruence |].
    exact (not_In_name c hb Hh Hc Hin). }
  assert (Hcut : Cut ("//" +:+ host) "?" = ("//" +:+ host, "", false)).
  { unfold Cut, sIndexByte. rewrite IndexByte_absent; [reflexivity |].
    apply Hno; [reflexivity | discriminate]. }
  unfold parse. rewrite Hctl, Hstar, Hsch. cbv zeta. rewrite Hcut. cbn [fst].
  replace (HasPrefix ("//" +:+ host) "/") with true by reflexivity.
  replace (HasPrefix ("//" +:+ host) "//") with true
    by (unfold HasPrefix; rewrite Hrb; now destruct hb).
  rewrite Hlow. cbn [negb andb orb].
  assert (Hauth : sfrom ("//" +:+ host) 2 = host).
  { unfold sfrom. rewrite Hrb. change (bfrom ("/"%char :: "/"%char :: hb) 2) with hb.
    apply string_of_bytes_of. }
  rewrite Hauth.
  assert (Hslash : sIndexByte host "/" = -1).
  { unfold sIndexByte. fold hb. apply IndexByte_absent.
    now apply (not_In_name _ hb Hh). }
  rewrite Hslash. cbn [Z.leb Z.compare].
  assert (Hauthority : parseAuthority host = Some host).
  { unfold parseAuthority.
    rewrite (sLastIndexByte_absent host "@")
      by (fold hb; now apply (not_In_name _ hb Hh)).
    cbn [Z.ltb Z.compare].
    assert (Hph : parseHost_ok host = true).
    { unfold parseHost_ok.
      assert (Hpre : HasPrefix host "[" = false).
      { unfold HasPrefix. fold hb. destruct hb as [|c hb'] eqn:Hhb; [reflexivity |].
        cbn [bytes_of list_ascii_of_string bHasPrefix].
        cbn [forallb] in Hh. apply andb_true_iff in Hh as [Hc _].
        destruct (host_name_byte_facts c Hc) as (_ & _ & _ & _ & _ & _ & Hbr & _).
        apply Ascii.eqb_neq in Hbr. now rewrite Hbr. }
      rewrite Hpre.
      rewrite (sLastIndexByte_absent host ":")
        by (fold hb; now apply (not_In_name _ hb Hh)).
      cbn [Z.leb Z.compare andb]. fold hb. now apply host_ok_name. }
    now rewrite Hph. }
  rewrite Hauthority. reflexivity.
Qed.

End UrlAccepted.

(** X22.  With the parser of Go's [net/url], a line made of a scheme of
    letters, [://] and a host name of letters, digits, dots and hyphens is
    a URL for [isUrl], as the URLs of the tests are. *)
Theorem scheme_and_host_is_url (scheme host : string) :
  letters scheme -> host_name host ->
  isUrl net_url.Parse (scheme +:+ "://" +:+ host) = true.
Proof.
  intros Hs Hh.
  assert (Hfrag : Cut (scheme +:+ "://" +:+ host) "#"
                  = (scheme +:+ "://" +:+ host, "", false)).
  { unfold Cut, sIndexByte. rewrite IndexByte_absent; [reflexivity |].
    rewrite !bytes_of_append.
    change (bytes_of "://") with [":"; "/"; "/"]%char.
    destruct Hs as [_ Hs]. destruct Hh as [_ Hh].
    intros Hin. apply in_app_or in Hin as [Hin | [Hx | [Hx | [Hx | Hin]]]];
      try discriminate Hx.
    - destruct (UrlAccepted.letter_facts _ (UrlAccepted.forallb_In _ _ _ Hs Hin))
        as (_ & Hx & _). congruence.
    - destruct (UrlAccepted.host_name_byte_facts _ (UrlAccepted.forallb_In _ _ _ Hh Hin))
        as (_ & Hx & _). congruence. }
  unfold isUrl, net_url.Parse. rewrite Hfrag.
  rewrite (UrlAccepted.parse_scheme_host scheme host Hs Hh).
  cbn [bytes_of list_ascii_of_string net_url.escapes_ok net_url.Scheme net_url.Host].
  destruct Hs as [Hsne Hs]. destruct Hh as [Hhne _].
  apply andb_true_iff. split; apply negb_true_iff, String.eqb_neq; [| exact Hhne].
  unfold net_url.ToLower. intros He. apply string_of_nil_iff in He.
  apply Hsne. rewrite <- (string_of_bytes_of scheme).
  destruct (bytes_of scheme); [reflexivity | discriminate].
Qed.

Lemma scheme_and_host_is_url_witness :
  isUrl net_url.Parse ("https" +:+ "://" +:+ "test-1.com") = true.
Proof.
  apply (scheme_and_host_is_url "https" "test-1.com");
    (split; [discriminate | vm_compute; reflexivity]).
Defined.

(** ** What the limiter decides, after any history *)

Lemma above_limit {H : Type} `{Handler H} (rl : RateLimiter StatHolder H)
    (k : string) (sched : Sched) (w : http.ResponseWriter) (req : http.Request) :
  requestIP req = inl k ->
  limit rl < int32 (index (counter (stat rl)) k + 1) ->
  ServeHTTP rl sched w req
  = (mkRateLimiter (limit rl)
       (mkStatHolder
          (<[k := int32 (index (counter (stat rl)) k + 1)]> (counter (stat rl))))
       (next rl),
     http.Error w (http.StatusText http.StatusTooManyRequests)
       http.StatusTooManyRequests).
Proof.
  intros Hk Hlim.
  unfold ServeHTTP, RateLimiter_Handler, RateLimiter_ServeHTTP.
  rewrite Hk, Increment_eq.
  destruct (Z.ltb_spec (limit rl) (int32 (index (counter (stat rl)) k + 1)));
    [reflexivity | lia].
Qed.

(** X23.  After any sequence of requests and ticks on a new limiter, a
    request of the key [k] is rejected with 429, the handler behind not
    called, exactly when the count of the requests of [k] since the last
    tick, this one included and taken as an [int32], is above the limit;
    else the handler behind answers it.  The requests of other keys and
    the answers given before play no part. *)
Theorem limiter_decision {H : Type} `{Handler H} (L : Z) (downstream : H)
    (events : list Event) (k : string) (sched : Sched) (req : http.Request) :
  requestIP req = inl k ->
  let rl := fst (run events (RateLimit L NewStatHolder downstream)) in
  let current := int32 (Z.of_nat (window_count k events 0) + 1) in
  (L < current ->
   snd (ServeHTTP rl sched http.NewRecorder req)
   = http.mkWriter 429 true ("Too Many Requests" +:+ nl) None
   /\ next (fst (ServeHTTP rl sched http.NewRecorder req)) = next rl)
  /\ (current <= L ->
      snd (ServeHTTP rl sched http.NewRecorder req)
      = snd (ServeHTTP (next rl) sched http.NewRecorder req)
      /\ next (fst (ServeHTTP rl sched http.NewRecorder req))
         = fst (ServeHTTP (next rl) sched http.NewRecorder req)).
Proof.
  intros Hk rl current.
  destruct (run_counter k events (RateLimit L NewStatHolder downstream) 0%nat
              (index_empty k)) as [Hc Hl].
  fold rl in Hc, Hl. cbn [RateLimit limit] in Hl.
  assert (Hcur : int32 (index (counter (stat rl)) k + 1) = current).
  { rewrite Hc. apply LockedProofs.int32_succ. }
  clearbody rl. unfold current in *. clear current. split; intros Hcmp.
  - rewrite (above_limit rl k sched http.NewRecorder req Hk) by (rewrite Hcur, Hl; lia).
    split; reflexivity.
  - rewrite (under_limit rl k sched http.NewRecorder req Hk) by (rewrite Hcur, Hl; lia).
    split; reflexivity.
Qed.

Lemma limiter_decision_witness :
  snd (ServeHTTP
         (fst (run [Serve [] (rq "1.2.3.4:1"); Serve [] (rq "5.6.7.8:1"); Tick;
                    Serve [] (rq "1.2.3.4:2")]
                 (RateLimit 1 NewStatHolder (mkMock []))))
         [] http.NewRecorder (rq "1.2.3.4:3"))
  = http.mkWriter 429 true ("Too Many Requests" +:+ nl) None.
Proof.
  refine (proj1 (proj1 (limiter_decision 1 (mkMock [])
                          [Serve [] (rq "1.2.3.4:1"); Serve [] (rq "5.6.7.8:1"); Tick;
                           Serve [] (rq "1.2.3.4:2")]
                          "1.2.3.4" [] (rq "1.2.3.4:3") _) _)).
  - reflexivity.
  - vm_compute. reflexivity.
Defined.

(** ** The answers of [serve] *)

Section Answers.

Variable url_Parse : string -> option net_url.URL.

Lemma getUrls_range_result (lines : list string) :
  forall h : ResponseSizeCounter,
    snd (getUrls_range url_Parse lines h) = None
    \/ exists line,
         In line lines /\ isUrl url_Parse line = false
         /\ snd (getUrls_range url_Parse lines h) = Some ("'" +:+ line +:+ "' is not a URL").
Proof.
  induction lines as [|l lines IH]; intros h; cbn [getUrls_range]; [now left |].
  destruct (isUrl url_Parse l) eqn:Hl.
  - destruct (IH (mkRSC (urls h ++ [l]) (sizes h) (client h)))
      as [Hnone | (line & Hin & Hbad & He)]; [now left |].
    right. exists line. split; [now right | now split].
  - right. exists l. split; [now left | now split].
Qed.

(** X24.  What [serve] answers on a new recorder is one of two things:
    200 with the rendering of the sizes, when [getUrls] found no error;
    or 500 with the line [get urls: ...] of the error [getUrls] found,
    which is that the body could not be read, that a line was too long
    for the scanner, or that a line returned by [splitToLines] is not a
    URL.  No answer reports an error of the fetches. *)
Theorem serve_answers (h : ResponseSizeCounter) (sched : Sched) (req : http.Request) :
  (snd (getUrls url_Parse h req) = None
   /\ snd (serve url_Parse h sched http.NewRecorder req)
      = http.mkWriter 200 true
          (resSizes_String (sizes (fst (serve url_Parse h sched http.NewRecorder req))))
          None)
  \/ (exists e,
        snd (getUrls url_Parse h req) = Some e
        /\ snd (serve url_Parse h sched http.NewRecorder req)
           = http.mkWriter 500 true ("get urls: " +:+ e +:+ nl) None
        /\ ((exists e0, failure (http.Body req) = Some e0
                        /\ e = "read request body: " +:+ e0)
            \/ e = "split request body to lines: bufio.Scanner: token too long"
            \/ (exists line,
                  In line (fst (splitToLines (content (http.Body req))))
                  /\ isUrl url_Parse line = false
                  /\ e = "'" +:+ line +:+ "' is not a URL"))).
Proof.
  destruct (getUrls url_Parse h req) as [h1 [e|]] eqn:Hget.
  - right. exists e. split; [reflexivity |]. split.
    + rewrite (serve_getUrls_error url_Parse h h1 sched _ req e Hget).
      unfold http.Error. cbn. now rewrite append_assoc.
    + unfold getUrls, ReadAll in Hget.
      destruct (failure (http.Body req)) as [e0|].
      * left. exists e0. split; [reflexivity |]. now injection Hget as _ <-.
      * right.
        destruct (splitToLines (content (http.Body req))) as [lines [se|]] eqn:Hsplit.
        -- left. injection Hget as _ <-.
           pose proof (scan_lines_error (raw_lines (bytes_of (content (http.Body req)))))
             as Herr.
           rewrite splitToLines_refines in Hsplit. unfold splitToLines_spec in Hsplit.
           rewrite Hsplit in Herr. cbn [snd] in Herr.
           destruct Herr as [Herr | Herr]; [discriminate |].
           injection Herr as ->. reflexivity.
        -- right. cbn [fst].
           destruct (getUrls_range_result lines (mkRSC [] (sizes h) (client h)))
             as [Hnone | (line & Hin & Hbad & He)].
           ++ rewrite Hget in Hnone. discriminate.
           ++ rewrite Hget in He. cbn [snd] in He. injection He as ->.
              exists line. now repeat split.
  - left. split; [reflexivity |].
    destruct (serve_getUrls_ok url_Parse h h1 sched http.NewRecorder req Hget)
      as (Hfst & _ & Hsnd).
    rewrite (Hsnd eq_refl eq_refl), Hfst. reflexivity.
Qed.

End Answers.
